(** * The build scheduler of the ATC: a shallow embedding of
      [scheduler.go] and the properties of its scheduling procedure.

    The scheduler talks to five collaborators through Go interfaces
    ([PipelineDB], [BuildsDB], [BuildFactory], [Scanner], [engine.Engine]).
    They are embedded as type classes over an abstract world [W]; every
    method threads the world, so a collaborator may answer differently at
    every call.  The scheduler itself is written in a small monad that
    carries the world and the heap of Go maps, collects the calls it makes
    as a list of events, and knows [return], [defer] and run-time panics.

    Embedded are [BuildLatestInputs], [scheduleAndResumePendingBuild] and
    [cloneBuildPrep].  A [go] statement is recorded as the event of its
    launch.  The clock ([time.Now], [time.Since]) and the [lager.Data] of
    log messages are left out.  Collaborators receive slices and records by
    value and do not write to them. *)

From stdpp Require Import base strings list gmap.

Open Scope string_scope.
Open Scope Z_scope.
Open Scope list_scope.

(** ** Data of the packages the scheduler imports *)

Definition Error := string.

(** [lager.Logger]: a logger is identified by the path of its sessions.
    The [lager.Data] attached to sessions and messages is not kept. *)
Definition Logger := list string.

Definition Session (logger : Logger) (name : string) : Logger :=
  logger ++ [name].

Definition WithData (logger : Logger) : Logger := logger.

Inductive LogLevel := LDebug | LInfo | LError.

(** [time.Duration] counts nanoseconds. *)
Definition Duration := Z.
Definition Second : Duration := 1000000000.

Module config.
(** Modelled from the spec: an input declaration of a job (input name,
    resource name, trigger flag); [config.JobInput] is declared outside
    this file. *)
Record JobInput := {
  Name : string;
  Resource : string;
  Trigger : bool
}.
End config.

Module atc.
Definition Version := string.

(** Modelled from the spec: a job config declares a name and an ordered
    list of input declarations. *)
Record JobConfig := {
  Name : string;
  Inputs : list config.JobInput
}.

Record ResourceConfig := {
  RName : string;
  RType : string
}.

Definition ResourceConfigs := list ResourceConfig.

(** An execution plan is opaque to the scheduler. *)
Definition Plan := nat.
End atc.

(** Modelled from the spec: [config.JobInputs] yields the input
    declarations of the job, in declaration order. *)
Definition JobInputs (job : atc.JobConfig) : list config.JobInput :=
  atc.Inputs job.

Module algorithm.
(** The version index is opaque; a [*algorithm.VersionsDB] is an
    [option VersionsDB], [None] being the nil pointer. *)
Definition VersionsDB := nat.
End algorithm.

(** A Go map is a reference: a location in the heap of maps, or nil. *)
Abbreviation loc := nat.

Module db.
(** Only the identity of a build is read by the scheduler. *)
Record Build := { ID : Z }.

Record BuildInput := {
  Name : string;
  Resource : string;
  Version : atc.Version
}.

Inductive Status :=
| StatusPending | StatusScheduled | StatusStarted | StatusSucceeded
| StatusFailed | StatusErrored | StatusAborted.

Inductive BuildPreparationStatus :=
| BuildPreparationStatusUnknown
| BuildPreparationStatusBlocking
| BuildPreparationStatusNotBlocking.

(** The preparation record, with the representation [I] of its [Inputs]
    field left open: a map reference inside the scheduler, the contents
    of the map where the record crosses the store boundary. *)
Record BuildPreparationOf (I : Type) := {
  BuildID : Z;
  PausedPipeline : BuildPreparationStatus;
  PausedJob : BuildPreparationStatus;
  MaxRunningBuilds : BuildPreparationStatus;
  Inputs : I;
  InputsSatisfied : BuildPreparationStatus
}.
Arguments BuildID {I} _.
Arguments PausedPipeline {I} _.
Arguments PausedJob {I} _.
Arguments MaxRunningBuilds {I} _.
Arguments Inputs {I} _.
Arguments InputsSatisfied {I} _.

(** The lease is an opaque token; the store hands out a usable one
    whenever it reports the lease as acquired. *)
Definition Lease := nat.
End db.

Abbreviation InputStatuses := (gmap string db.BuildPreparationStatus).

(** [db.BuildPreparation] as the scheduler holds it. *)
Abbreviation BuildPreparation := (db.BuildPreparationOf (option loc)).

(** [db.BuildPreparation] as the store reads or writes it: the map is
    given by its contents, [None] being the nil map. *)
Abbreviation BuildPreparationRow := (db.BuildPreparationOf (option InputStatuses)).

Global Instance BuildPreparationStatus_eq_dec : EqDecision db.BuildPreparationStatus.
Proof. solve_decision. Defined.

Module engine.
(** An [engine.Build] handle; the interface value may be nil. *)
Definition Build := nat.
End engine.

(** ** The calls the scheduler makes *)

Inductive Event :=
| ECreateJobBuild (job : string) (ret : db.Build * option Error)
| ECreateJobBuildForCandidateInputs (job : string)
    (ret : db.Build * bool * option Error)
| EScheduleBuild (buildID : Z) (jobConfig : atc.JobConfig)
    (ret : bool * option Error)
| EGetJobBuildForInputs (job : string) (inputs : list db.BuildInput)
    (ret : db.Build * bool * option Error)
| EGetNextPendingBuild (job : string) (ret : db.Build * bool * option Error)
| ELoadVersionsDB (ret : option algorithm.VersionsDB * option Error)
| EGetLatestInputVersions (versions : option algorithm.VersionsDB)
    (job : string) (inputs : list config.JobInput)
    (ret : list db.BuildInput * bool * option Error)
| EUseInputsForBuild (buildID : Z) (inputs : list db.BuildInput)
    (ret : option Error)
| ELeaseBuildScheduling (buildID : Z) (interval : Duration)
    (ret : db.Lease * bool * option Error)
| ELeaseBreak (lease : db.Lease)
| EErrorBuild (buildID : Z) (err : Error) (ret : option Error)
| EFinishBuild (buildID : Z) (status : db.Status) (ret : option Error)
| EGetBuildPreparation (buildID : Z)
    (ret : BuildPreparationRow * bool * option Error)
| EUpdateBuildPreparation (buildPreparation : BuildPreparationRow)
    (ret : option Error)
| EFactoryCreate (job : atc.JobConfig) (resources : atc.ResourceConfigs)
    (inputs : list db.BuildInput) (ret : atc.Plan * option Error)
| EScan (logger : Logger) (resource : string) (ret : option Error)
| EEngineCreateBuild (logger : Logger) (build : db.Build) (plan : atc.Plan)
    (ret : option engine.Build * option Error)
| EGoResume (createdBuild : engine.Build) (logger : Logger)
| ELog (logger : Logger) (level : LogLevel) (message : string)
    (err : option Error).

(** ** The interfaces *)

Class PipelineDB (W : Type) := {
  CreateJobBuild : string → W → db.Build * option Error * W;
  CreateJobBuildForCandidateInputs :
    string → W → db.Build * bool * option Error * W;
  ScheduleBuild : Z → atc.JobConfig → W → bool * option Error * W;
  GetJobBuildForInputs :
    string → list db.BuildInput → W → db.Build * bool * option Error * W;
  GetNextPendingBuild : string → W → db.Build * bool * option Error * W;
  LoadVersionsDB : W → option algorithm.VersionsDB * option Error * W;
  GetLatestInputVersions :
    option algorithm.VersionsDB → string → list config.JobInput → W →
    list db.BuildInput * bool * option Error * W;
  SaveResourceVersions :
    atc.ResourceConfig → list atc.Version → W → option Error * W;
  UseInputsForBuild : Z → list db.BuildInput → W → option Error * W
}.

Class BuildsDB (W : Type) := {
  LeaseBuildScheduling : Z → Duration → W → db.Lease * bool * option Error * W;
  LeaseBreak : db.Lease → W → W;
  GetAllStartedBuilds : W → list db.Build * option Error * W;
  ErrorBuild : Z → Error → W → option Error * W;
  FinishBuild : Z → db.Status → W → option Error * W;
  GetBuildPreparation : Z → W → BuildPreparationRow * bool * option Error * W;
  UpdateBuildPreparation : BuildPreparationRow → W → option Error * W
}.

Class BuildFactory (W : Type) := {
  Create :
    atc.JobConfig → atc.ResourceConfigs → list db.BuildInput → W →
    atc.Plan * option Error * W
}.

Class Scanner (W : Type) := {
  Scan : Logger → string → W → option Error * W
}.

Class Engine (W : Type) := {
  CreateBuild :
    Logger → db.Build → atc.Plan → W → option engine.Build * option Error * W
}.

Class Scheduler (W : Type) := {
  Scheduler_PipelineDB :: PipelineDB W;
  Scheduler_BuildsDB :: BuildsDB W;
  Scheduler_Factory :: BuildFactory W;
  Scheduler_Engine :: Engine W;
  Scheduler_Scanner :: Scanner W
}.

(** ** The monad of scheduler code *)

Abbreviation Heap := (list InputStatuses).

Record Store (W : Type) := { world : W; heap : Heap }.
Arguments world {W} _.
Arguments heap {W} _.

Inductive Outcome (R A : Type) :=
| Continue (a : A)
| Returned (r : R)
| Panicked (msg : string).
Arguments Continue {R A} _.
Arguments Returned {R A} _.
Arguments Panicked {R A} _.

Record Run (W R A : Type) := {
  outcome : Outcome R A;
  final : Store W;
  events : list Event
}.
Arguments outcome {W R A} _.
Arguments final {W R A} _.
Arguments events {W R A} _.

Definition M (W R A : Type) := Store W → Run W R A.

(** A function body never falls off its end. *)
Definition Func (W R : Type) := M W R Empty_set.

Section Monad.
Context {W R : Type}.

Definition pure {A} (a : A) : M W R A :=
  λ s, {| outcome := Continue a; final := s; events := [] |}.

(** The run [r], after the calls [e] made before it. *)
Definition after {A} (e : list Event) (r : Run W R A) : Run W R A :=
  {| outcome := outcome r; final := final r; events := e ++ events r |}.

Definition bind {A B} (m : M W R A) (f : A → M W R B) : M W R B :=
  λ s,
    match outcome (m s) with
    | Continue a => after (events (m s)) (f a (final (m s)))
    | Returned r =>
      {| outcome := Returned r; final := final (m s); events := events (m s) |}
    | Panicked msg =>
      {| outcome := Panicked msg; final := final (m s); events := events (m s) |}
    end.

Definition return_ {A} (r : R) : M W R A :=
  λ s, {| outcome := Returned r; final := s; events := [] |}.

Definition panic {A} (msg : string) : M W R A :=
  λ s, {| outcome := Panicked msg; final := s; events := [] |}.

(** A call of a collaborator: the world moves on and the call is
    recorded together with what it returned. *)
Definition call {X} (method : W → X * W) (ev : X → Event) : M W R X :=
  λ s,
    match method (world s) with
    | (x, w) =>
      {| outcome := Continue x;
         final := {| world := w; heap := heap s |};
         events := [ev x] |}
    end.

Definition emit (e : Event) : M W R unit :=
  λ s, {| outcome := Continue tt; final := s; events := [e] |}.

(** [defer f(); body]: [f] runs when the body returns or panics. *)
Definition defer {A} (f : W → W) (ev : Event) (body : M W R A) : M W R A :=
  λ s,
    {| outcome := outcome (body s);
       final := {| world := f (world (final (body s)));
                   heap := heap (final (body s)) |};
       events := events (body s) ++ [ev] |}.

(** [if err != nil { ... }] *)
Definition if_err (err : option Error) (handle : Error → M W R unit)
  : M W R unit :=
  match err with
  | Some e => handle e
  | None => pure tt
  end.

(** [if cond { ... }] *)
Definition when (cond : bool) (body : M W R unit) : M W R unit :=
  if cond then body else pure tt.

(** [for _, x := range xs { ... }] with the locals [acc] the body assigns. *)
Fixpoint range {A S} (xs : list A) (acc : S) (body : A → S → M W R S)
  : M W R S :=
  match xs with
  | [] => pure acc
  | x :: rest => bind (body x acc) (λ acc', range rest acc' body)
  end.

(** *** Go maps *)

(** [map[string]db.BuildPreparationStatus{}] *)
Definition make_map : M W R (option loc) :=
  λ s,
    {| outcome := Continue (Some (length (heap s)));
       final := {| world := world s; heap := heap s ++ [∅] |};
       events := [] |}.

(** [m[key] = value]; a write to the nil map panics. *)
Definition map_assign (m : option loc) (key : string)
    (value : db.BuildPreparationStatus) : M W R unit :=
  λ s,
    match m ≫= (λ l, heap s !! l) with
    | Some contents =>
      {| outcome := Continue tt;
         final := {| world := world s;
                     heap := <[default 0%nat m := <[key := value]> contents]> (heap s) |};
         events := [] |}
    | None =>
      {| outcome := Panicked "assignment to entry in nil map";
         final := s; events := [] |}
    end.

(** The entries a [range] over the map visits; none for the nil map. *)
Definition map_entries (m : option loc)
  : M W R (list (string * db.BuildPreparationStatus)) :=
  λ s,
    {| outcome := Continue (map_to_list (default ∅ (m ≫= (λ l, heap s !! l))));
       final := s; events := [] |}.

(** Calling a function of the scheduler from another one. *)
Definition invoke {R'} (f : Func W R') : M W R R' :=
  λ s,
    {| outcome :=
         match outcome (f s) with
         | Continue a => match a with end
         | Returned r => Continue r
         | Panicked msg => Panicked msg
         end;
       final := final (f s);
       events := events (f s) |}.
End Monad.

Notation "'let!' x := m 'in' k" := (bind m (λ x, k))
  (at level 10, x name, m at level 100, k at level 200, only parsing).
Notation "'let!' ' pat := m 'in' k" :=
  (bind m (λ x, match x with pat => k end))
  (at level 10, pat strict pattern, m at level 100, k at level 200,
   only parsing).
Notation "m >> k" := (bind m (λ _, k))
  (at level 100, k at level 200, right associativity, only parsing).

(** ** scheduler.go *)

Section Scheduler.
Context {W : Type} `{!Scheduler W}.

Definition log {R} (logger : Logger) (level : LogLevel) (message : string)
    (err : option Error) : M W R unit :=
  emit (ELog logger level message err).

(** What the store sees of a preparation record: the record with the
    contents its map has at the time of the call. *)
Definition row_of (h : Heap) (buildPrep : BuildPreparation)
  : BuildPreparationRow :=
  {| db.BuildID := db.BuildID buildPrep;
     db.PausedPipeline := db.PausedPipeline buildPrep;
     db.PausedJob := db.PausedJob buildPrep;
     db.MaxRunningBuilds := db.MaxRunningBuilds buildPrep;
     db.Inputs := db.Inputs buildPrep ≫= (λ l, h !! l);
     db.InputsSatisfied := db.InputsSatisfied buildPrep |}.

(** [s.BuildsDB.UpdateBuildPreparation(buildPrep)] *)
Definition updateBuildPreparation {R} (buildPrep : BuildPreparation)
  : M W R (option Error) :=
  λ s,
    call (UpdateBuildPreparation (row_of (heap s) buildPrep))
         (EUpdateBuildPreparation (row_of (heap s) buildPrep)) s.

(** [s.BuildsDB.GetBuildPreparation(buildID)]: the map of the record the
    store returns (if not nil) is a map of its own in the heap. *)
Definition getBuildPreparation {R} (buildID : Z)
  : M W R (BuildPreparation * bool * option Error) :=
  let! '(row, found, err) :=
    call (GetBuildPreparation buildID) (EGetBuildPreparation buildID) in
  λ s,
    let inputs := (λ _, length (heap s)) <$> db.Inputs row in
    {| outcome :=
         Continue
           ({| db.BuildID := db.BuildID row;
               db.PausedPipeline := db.PausedPipeline row;
               db.PausedJob := db.PausedJob row;
               db.MaxRunningBuilds := db.MaxRunningBuilds row;
               db.Inputs := inputs;
               db.InputsSatisfied := db.InputsSatisfied row |}, found, err);
       final := {| world := world s;
                   heap := heap s ++ option_list (db.Inputs row) |};
       events := [] |}.

(** [buildPrep.InputsSatisfied = status] *)
Definition set_InputsSatisfied {I} (buildPrep : db.BuildPreparationOf I)
    (status : db.BuildPreparationStatus) : db.BuildPreparationOf I :=
  {| db.BuildID := db.BuildID buildPrep;
     db.PausedPipeline := db.PausedPipeline buildPrep;
     db.PausedJob := db.PausedJob buildPrep;
     db.MaxRunningBuilds := db.MaxRunningBuilds buildPrep;
     db.Inputs := db.Inputs buildPrep;
     db.InputsSatisfied := status |}.

Definition cloneBuildPrep {R} (buildPrep : BuildPreparation)
  : M W R BuildPreparation :=
  let! inputs := make_map in
  let clone :=
    {| db.BuildID := db.BuildID buildPrep;
       db.PausedPipeline := db.PausedPipeline buildPrep;
       db.PausedJob := db.PausedJob buildPrep;
       db.MaxRunningBuilds := db.MaxRunningBuilds buildPrep;
       db.Inputs := inputs;
       db.InputsSatisfied := db.InputsSatisfied buildPrep |} in
  let! entries := map_entries (db.Inputs buildPrep) in
  range entries tt
    (λ '(key, value) _, map_assign (db.Inputs clone) key value) >>
  pure clone.

(** The body of the loop that scans the inputs of a build triggered
    without a version index. *)
Definition scanInput (logger : Logger) (build : db.Build)
    (input : config.JobInput) (buildPrep : BuildPreparation)
  : M W (option engine.Build) BuildPreparation :=
  let scanLog := Session logger "scan" in
  let! buildPrep := cloneBuildPrep buildPrep in
  map_assign (db.Inputs buildPrep) (config.Name input)
    db.BuildPreparationStatusBlocking >>
  let! err := updateBuildPreparation buildPrep in
  if_err err (λ err,
    log logger LError "failed-to-update-build-prep-with-blocking-input"
      (Some err) >>
    return_ None) >>
  let! err := call (Scan scanLog (config.Resource input))
                   (EScan scanLog (config.Resource input)) in
  if_err err (λ err,
    log scanLog LError "failed-to-scan" (Some err) >>
    let! err' := call (ErrorBuild (db.ID build) err)
                      (EErrorBuild (db.ID build) err) in
    if_err err' (λ err',
      log logger LError "failed-to-mark-build-as-errored" (Some err')) >>
    return_ None) >>
  let! buildPrep := cloneBuildPrep buildPrep in
  map_assign (db.Inputs buildPrep) (config.Name input)
    db.BuildPreparationStatusNotBlocking >>
  let! err := updateBuildPreparation buildPrep in
  if_err err (λ err,
    log logger LError "failed-to-update-build-prep-with-not-blocking-input"
      (Some err) >>
    return_ None) >>
  log scanLog LInfo "done" None >>
  pure buildPrep.

(** [for _, input := range buildInputs { buildPrep.Inputs[input.Name] = status }] *)
Definition markInputs {R} (buildInputs : list config.JobInput)
    (buildPrep : BuildPreparation) (status : db.BuildPreparationStatus)
  : M W R unit :=
  range buildInputs tt
    (λ input _, map_assign (db.Inputs buildPrep) (config.Name input) status).

Definition scheduleAndResumePendingBuild (logger : Logger)
    (versions : option algorithm.VersionsDB) (build : db.Build)
    (job : atc.JobConfig) (resources : atc.ResourceConfigs)
  : Func W (option engine.Build) :=
  let! '(lease, acquired, err) :=
    call (LeaseBuildScheduling (db.ID build) (10 * Second))
         (ELeaseBuildScheduling (db.ID build) (10 * Second)) in
  if_err err (λ err,
    log logger LError "failed-to-get-lease" (Some err) >> return_ None) >>
  when (negb acquired) (return_ None) >>
  defer (LeaseBreak lease) (ELeaseBreak lease) (
    let logger := WithData logger in
    let! '(scheduled, err) :=
      call (ScheduleBuild (db.ID build) job)
           (EScheduleBuild (db.ID build) job) in
    if_err err (λ err,
      log logger LError "failed-to-schedule-build" (Some err) >>
      return_ None) >>
    when (negb scheduled) (
      log logger LDebug "build-could-not-be-scheduled" None >>
      return_ None) >>
    let buildInputs := JobInputs job in
    let! '(buildPrep, found, err) := getBuildPreparation (db.ID build) in
    if_err err (λ err,
      log logger LError "failed-to-get-build-prep" (Some err) >>
      return_ None) >>
    when (negb found) (
      log logger LDebug "failed-to-find-build-prep" None >>
      return_ None) >>
    let! '(versions, buildPrep) :=
      match versions with
      | None =>
        markInputs buildInputs buildPrep db.BuildPreparationStatusUnknown >>
        let buildPrep :=
          set_InputsSatisfied buildPrep db.BuildPreparationStatusBlocking in
        let! err := updateBuildPreparation buildPrep in
        if_err err (λ err,
          log logger LError "failed-to-update-build-prep-with-inputs"
            (Some err) >>
          return_ None) >>
        let! buildPrep :=
          range buildInputs buildPrep (scanInput logger build) in
        let vLog := Session logger "loading-versions" in
        log vLog LInfo "start" None >>
        let! '(versions, err) := call LoadVersionsDB ELoadVersionsDB in
        if_err err (λ err,
          log vLog LError "failed" (Some err) >> return_ None) >>
        log vLog LInfo "done" None >>
        pure (versions, buildPrep)
      | Some _ =>
        markInputs buildInputs buildPrep db.BuildPreparationStatusNotBlocking >>
        let buildPrep :=
          set_InputsSatisfied buildPrep db.BuildPreparationStatusBlocking in
        let! err := updateBuildPreparation buildPrep in
        if_err err (λ err,
          log logger LError "failed-to-update-build-prep-with-discovered-inputs"
            (Some err) >>
          return_ None) >>
        pure (versions, buildPrep)
      end in
    let! '(inputs, found, err) :=
      call (GetLatestInputVersions versions (atc.Name job) buildInputs)
           (EGetLatestInputVersions versions (atc.Name job) buildInputs) in
    if_err err (λ err,
      log logger LError "failed-to-get-latest-input-versions" (Some err) >>
      return_ None) >>
    when (negb found) (
      log logger LDebug "no-input-versions-available" None >>
      return_ None) >>
    let buildPrep :=
      set_InputsSatisfied buildPrep db.BuildPreparationStatusNotBlocking in
    let! err := updateBuildPreparation buildPrep in
    if_err err (λ err,
      log logger LError "failed-to-update-build-prep-with-inputs-satisfied"
        (Some err) >>
      return_ None) >>
    let! err := call (UseInputsForBuild (db.ID build) inputs)
                     (EUseInputsForBuild (db.ID build) inputs) in
    if_err err (λ err,
      log logger LError "failed-to-use-inputs-for-build" (Some err) >>
      return_ None) >>
    let! '(plan, err) := call (Create job resources inputs)
                              (EFactoryCreate job resources inputs) in
    if_err err (λ _,
      let! err := call (FinishBuild (db.ID build) db.StatusErrored)
                       (EFinishBuild (db.ID build) db.StatusErrored) in
      if_err err (λ err,
        log logger LError "failed-to-mark-build-as-errored" (Some err)) >>
      return_ None) >>
    let! '(createdBuild, err) :=
      call (CreateBuild logger build plan)
           (EEngineCreateBuild logger build plan) in
    if_err err (λ err,
      log logger LError "failed-to-create-build" (Some err) >>
      return_ None) >>
    match createdBuild with
    | Some createdBuild =>
      log logger LInfo "building" None >>
      emit (EGoResume createdBuild logger)
    | None => pure tt
    end >>
    return_ createdBuild).

(** The inner loop of [BuildLatestInputs]: the first declaration with the
    name of [input] decides whether [input] is appended. *)
Fixpoint appendIfTrigger (inputs : list config.JobInput)
    (input : db.BuildInput) (checkInputs : list db.BuildInput)
  : list db.BuildInput :=
  match inputs with
  | [] => checkInputs
  | ji :: rest =>
    if String.eqb (config.Name ji) (db.Name input) then
      if config.Trigger ji then checkInputs ++ [input] else checkInputs
    else appendIfTrigger rest input checkInputs
  end.

Definition BuildLatestInputs (logger : Logger)
    (versions : option algorithm.VersionsDB) (job : atc.JobConfig)
    (resources : atc.ResourceConfigs) : Func W (option Error) :=
  let logger := Session logger "build-latest" in
  let inputs := JobInputs job in
  when (length inputs =? 0)%nat (return_ None) >>
  let! '(latestInputs, found, err) :=
    call (GetLatestInputVersions versions (atc.Name job) inputs)
         (EGetLatestInputVersions versions (atc.Name job) inputs) in
  if_err err (λ err,
    log logger LError "failed-to-get-latest-input-versions" (Some err) >>
    return_ (Some err)) >>
  when (negb found) (
    log logger LDebug "no-input-versions-available" None >>
    return_ None) >>
  let checkInputs :=
    foldl (λ checkInputs input, appendIfTrigger inputs input checkInputs)
          [] latestInputs in
  when (length checkInputs =? 0)%nat (
    log logger LDebug "no-triggered-input-versions" None >>
    return_ None) >>
  let! '(existingBuild, found, err) :=
    call (GetJobBuildForInputs (atc.Name job) checkInputs)
         (EGetJobBuildForInputs (atc.Name job) checkInputs) in
  if_err err (λ err,
    log logger LError "could-not-determine-if-inputs-are-already-used"
      (Some err) >>
    return_ (Some err)) >>
  when found (
    log logger LDebug "build-already-exists-for-inputs" None >>
    return_ None) >>
  let! '(build, created, err) :=
    call (CreateJobBuildForCandidateInputs (atc.Name job))
         (ECreateJobBuildForCandidateInputs (atc.Name job)) in
  if_err err (λ err,
    log logger LError "failed-to-create-build" (Some err) >>
    return_ (Some err)) >>
  when (negb created) (
    log logger LDebug "waiting-for-existing-build-to-determine-inputs" None >>
    return_ None) >>
  log logger LDebug "created-build" None >>
  let! _ := invoke (scheduleAndResumePendingBuild logger versions build job
                      resources) in
  return_ None.
End Scheduler.

(** ** Scripted collaborators

    Fakes in the manner of the scheduler's test suite: every method answers
    with a fixed value taken from a script, and the world counts the calls
    made so far. *)

Module fakes.
Record Script := {
  createJobBuildForCandidateInputsReturns : db.Build * bool * option Error;
  scheduleBuildReturns : bool * option Error;
  getJobBuildForInputsReturns : db.Build * bool * option Error;
  loadVersionsDBReturns : option algorithm.VersionsDB * option Error;
  getLatestInputVersionsReturns : list db.BuildInput * bool * option Error;
  useInputsForBuildReturns : option Error;
  leaseBuildSchedulingReturns : db.Lease * bool * option Error;
  errorBuildReturns : option Error;
  finishBuildReturns : option Error;
  getBuildPreparationReturns : BuildPreparationRow * bool * option Error;
  updateBuildPreparationStub : BuildPreparationRow → option Error;
  createReturns : atc.Plan * option Error;
  scanStub : string → option Error;
  createBuildReturns : option engine.Build * option Error
}.

Definition counted {X} (x : X) (calls : nat) : X * nat := (x, S calls).

Definition scheduler (f : Script) : Scheduler nat :=
  {| Scheduler_PipelineDB :=
       {| CreateJobBuild := λ _, counted ({| db.ID := 0 |}, None);
          CreateJobBuildForCandidateInputs :=
            λ _, counted (createJobBuildForCandidateInputsReturns f);
          ScheduleBuild := λ _ _, counted (scheduleBuildReturns f);
          GetJobBuildForInputs :=
            λ _ _, counted (getJobBuildForInputsReturns f);
          GetNextPendingBuild := λ _, counted ({| db.ID := 0 |}, false, None);
          LoadVersionsDB := counted (loadVersionsDBReturns f);
          GetLatestInputVersions :=
            λ _ _ _, counted (getLatestInputVersionsReturns f);
          SaveResourceVersions := λ _ _, counted None;
          UseInputsForBuild := λ _ _, counted (useInputsForBuildReturns f) |};
     Scheduler_BuildsDB :=
       {| LeaseBuildScheduling :=
            λ _ _, counted (leaseBuildSchedulingReturns f);
          LeaseBreak := λ _, S;
          GetAllStartedBuilds := counted ([], None);
          ErrorBuild := λ _ _, counted (errorBuildReturns f);
          FinishBuild := λ _ _, counted (finishBuildReturns f);
          GetBuildPreparation := λ _, counted (getBuildPreparationReturns f);
          UpdateBuildPreparation :=
            λ row, counted (updateBuildPreparationStub f row) |};
     Scheduler_Factory := {| Create := λ _ _ _, counted (createReturns f) |};
     Scheduler_Engine :=
       {| CreateBuild := λ _ _ _, counted (createBuildReturns f) |};
     Scheduler_Scanner := {| Scan := λ _ resource, counted (scanStub f resource) |} |}.

Definition input (name : string) : config.JobInput :=
  {| config.Name := name; config.Resource := name ++ "-resource";
     config.Trigger := true |}.

Definition version (name : string) : db.BuildInput :=
  {| db.Name := name; db.Resource := name ++ "-resource";
     db.Version := "1" |}.

Definition job (names : list string) : atc.JobConfig :=
  {| atc.Name := "some-job"; atc.Inputs := input <$> names |}.

Definition build : db.Build := {| db.ID := 128 |}.

Definition prep : BuildPreparationRow :=
  {| db.BuildID := 128;
     db.PausedPipeline := db.BuildPreparationStatusNotBlocking;
     db.PausedJob := db.BuildPreparationStatusNotBlocking;
     db.MaxRunningBuilds := db.BuildPreparationStatusNotBlocking;
     db.Inputs := Some ∅;
     db.InputsSatisfied := db.BuildPreparationStatusUnknown |}.

(** A script in which the store succeeds throughout; the scanner, the plan
    factory and the engine answer as given, and [created] is what
    [CreateJobBuildForCandidateInputs] reports. *)
Definition script (names : list string) (scan : string → option Error)
    (plan : atc.Plan * option Error)
    (engineBuild : option engine.Build * option Error) (created : bool)
  : Script :=
  {| createJobBuildForCandidateInputsReturns := (build, created, None);
     scheduleBuildReturns := (true, None);
     getJobBuildForInputsReturns := ({| db.ID := 0 |}, false, None);
     loadVersionsDBReturns := (Some 7%nat, None);
     getLatestInputVersionsReturns := (version <$> names, true, None);
     useInputsForBuildReturns := None;
     leaseBuildSchedulingReturns := (1%nat, true, None);
     errorBuildReturns := None;
     finishBuildReturns := None;
     getBuildPreparationReturns := (prep, true, None);
     updateBuildPreparationStub := λ _, None;
     createReturns := plan;
     scanStub := scan;
     createBuildReturns := engineBuild |}.

(** Every collaborator succeeds. *)
Definition happy (names : list string) : Script :=
  script names (λ _, None) (42%nat, None) (Some 5%nat, None) true.

(** The scanner fails on the resource of input [name]. *)
Definition scan_fails (names : list string) (name : string) : Script :=
  script names
    (λ resource,
       if String.eqb resource (name ++ "-resource")%string
       then Some "scan failed" else None)
    (42%nat, None) (Some 5%nat, None) true.

(** The plan factory fails. *)
Definition plan_fails (names : list string) : Script :=
  script names (λ _, None) (42%nat, Some "no plan") (Some 5%nat, None) true.

(** The engine returns neither a handle nor an error. *)
Definition engine_nil (names : list string) : Script :=
  script names (λ _, None) (42%nat, None) (None, None) true.

(** Another scheduler already created the build of the candidates. *)
Definition not_created (names : list string) : Script :=
  script names (λ _, None) (42%nat, None) (Some 5%nat, None) false.

Definition start : Store nat := {| world := 0%nat; heap := [] |}.

(** The scheduling procedure, and [BuildLatestInputs], run from [start]
    on the collaborators of a script, for a job with the given inputs. *)
Abbreviation attempt f versions names :=
  (scheduleAndResumePendingBuild (Scheduler0 := scheduler f)
     ["atc"] versions build (job names) [] start).

Abbreviation latest f versions names :=
  (BuildLatestInputs (Scheduler0 := scheduler f)
     ["atc"] versions (job names) [] start).
End fakes.

(** ** The runs of the scheduling procedure, as the store sees them

    The paths through [scheduleAndResumePendingBuild], written as the
    sequences of calls they make.  Preparation records appear as rows: the
    record together with the contents of its map. *)

Definition with_Inputs {I J} (row : db.BuildPreparationOf I) (inputs : J)
  : db.BuildPreparationOf J :=
  {| db.BuildID := db.BuildID row;
     db.PausedPipeline := db.PausedPipeline row;
     db.PausedJob := db.PausedJob row;
     db.MaxRunningBuilds := db.MaxRunningBuilds row;
     db.Inputs := inputs;
     db.InputsSatisfied := db.InputsSatisfied row |}.

(** The row of a clone with one entry assigned. *)
Definition row_assign (row : BuildPreparationRow) (key : string)
    (status : db.BuildPreparationStatus) : BuildPreparationRow :=
  with_Inputs row (Some (<[key := status]> (default ∅ (db.Inputs row)))).

Definition mark_all (inputs : list config.JobInput)
    (status : db.BuildPreparationStatus) (m : InputStatuses) : InputStatuses :=
  foldl (λ m input, <[config.Name input := status]> m) m inputs.

(** The row after every declared input was assigned [status] in place;
    there is none when an entry of the nil map is assigned. *)
Definition row_mark (row : BuildPreparationRow)
    (inputs : list config.JobInput) (status : db.BuildPreparationStatus)
  : option BuildPreparationRow :=
  match inputs with
  | [] => Some row
  | _ => (λ m, with_Inputs row (Some (mark_all inputs status m))) <$> db.Inputs row
  end.

Definition nil_map_panic : string := "assignment to entry in nil map".

Section Paths.
Variables (logger : Logger) (build : db.Build) (job : atc.JobConfig)
  (resources : atc.ResourceConfigs).

Abbreviation R := (option engine.Build).

Definition error_log (logger : Logger) (message : string)
    (ret : option Error) : list Event :=
  match ret with
  | Some err => [ELog logger LError message (Some err)]
  | None => []
  end.

(** The scanning loop from a row on, over the inputs still to scan; the
    result is the row after the last input, or nothing if the loop
    returned from the procedure. *)
Inductive scan_path :
  BuildPreparationRow → list config.JobInput → list Event →
  option BuildPreparationRow → Prop :=
| scan_done row :
    scan_path row [] [] (Some row)
| scan_next row input rest evs last :
    let blocking :=
      row_assign row (config.Name input) db.BuildPreparationStatusBlocking in
    let notBlocking :=
      row_assign blocking (config.Name input)
        db.BuildPreparationStatusNotBlocking in
    scan_path notBlocking rest evs last →
    scan_path row (input :: rest)
      (EUpdateBuildPreparation blocking None
       :: EScan (Session logger "scan") (config.Resource input) None
       :: EUpdateBuildPreparation notBlocking None
       :: ELog (Session logger "scan") LInfo "done" None
       :: evs)
      last
| scan_blocking_not_saved row input rest err :
    let blocking :=
      row_assign row (config.Name input) db.BuildPreparationStatusBlocking in
    scan_path row (input :: rest)
      [EUpdateBuildPreparation blocking (Some err);
       ELog logger LError "failed-to-update-build-prep-with-blocking-input"
         (Some err)]
      None
| scan_failed row input rest err ret :
    let blocking :=
      row_assign row (config.Name input) db.BuildPreparationStatusBlocking in
    scan_path row (input :: rest)
      (EUpdateBuildPreparation blocking None
       :: EScan (Session logger "scan") (config.Resource input) (Some err)
       :: ELog (Session logger "scan") LError "failed-to-scan" (Some err)
       :: EErrorBuild (db.ID build) err ret
       :: error_log logger "failed-to-mark-build-as-errored" ret)
      None
| scan_not_blocking_not_saved row input rest err :
    let blocking :=
      row_assign row (config.Name input) db.BuildPreparationStatusBlocking in
    let notBlocking :=
      row_assign blocking (config.Name input)
        db.BuildPreparationStatusNotBlocking in
    scan_path row (input :: rest)
      [EUpdateBuildPreparation blocking None;
       EScan (Session logger "scan") (config.Resource input) None;
       EUpdateBuildPreparation notBlocking (Some err);
       ELog logger LError
         "failed-to-update-build-prep-with-not-blocking-input" (Some err)]
      None.

(** Input discovery, from the row the store returned: it ends with the
    version index and the row to go on with, or leaves the procedure. *)
Inductive discover_path (row : BuildPreparationRow) :
  option algorithm.VersionsDB → list Event →
  Outcome R (option algorithm.VersionsDB * BuildPreparationRow) → Prop :=
| cached_nil_map v :
    row_mark row (JobInputs job) db.BuildPreparationStatusNotBlocking = None →
    discover_path row (Some v) [] (Panicked nil_map_panic)
| cached_not_saved v marked err :
    row_mark row (JobInputs job) db.BuildPreparationStatusNotBlocking
      = Some marked →
    discover_path row (Some v)
      [EUpdateBuildPreparation
         (set_InputsSatisfied marked db.BuildPreparationStatusBlocking)
         (Some err);
       ELog logger LError
         "failed-to-update-build-prep-with-discovered-inputs" (Some err)]
      (Returned None)
| cached_saved v marked :
    row_mark row (JobInputs job) db.BuildPreparationStatusNotBlocking
      = Some marked →
    discover_path row (Some v)
      [EUpdateBuildPreparation
         (set_InputsSatisfied marked db.BuildPreparationStatusBlocking) None]
      (Continue
         (Some v,
          set_InputsSatisfied marked db.BuildPreparationStatusBlocking))
| fresh_nil_map :
    row_mark row (JobInputs job) db.BuildPreparationStatusUnknown = None →
    discover_path row None [] (Panicked nil_map_panic)
| fresh_not_saved marked err :
    row_mark row (JobInputs job) db.BuildPreparationStatusUnknown
      = Some marked →
    discover_path row None
      [EUpdateBuildPreparation
         (set_InputsSatisfied marked db.BuildPreparationStatusBlocking)
         (Some err);
       ELog logger LError "failed-to-update-build-prep-with-inputs"
         (Some err)]
      (Returned None)
| fresh_scan_stopped marked evs :
    row_mark row (JobInputs job) db.BuildPreparationStatusUnknown
      = Some marked →
    scan_path
      (set_InputsSatisfied marked db.BuildPreparationStatusBlocking)
      (JobInputs job) evs None →
    discover_path row None
      (EUpdateBuildPreparation
         (set_InputsSatisfied marked db.BuildPreparationStatusBlocking) None
       :: evs)
      (Returned None)
| fresh_not_loaded marked evs last versions err :
    row_mark row (JobInputs job) db.BuildPreparationStatusUnknown
      = Some marked →
    scan_path
      (set_InputsSatisfied marked db.BuildPreparationStatusBlocking)
      (JobInputs job) evs (Some last) →
    discover_path row None
      (EUpdateBuildPreparation
         (set_InputsSatisfied marked db.BuildPreparationStatusBlocking) None
       :: evs
       ++ [ELog (Session logger "loading-versions") LInfo "start" None;
           ELoadVersionsDB (versions, Some err);
           ELog (Session logger "loading-versions") LError "failed"
             (Some err)])
      (Returned None)
| fresh_loaded marked evs last versions :
    row_mark row (JobInputs job) db.BuildPreparationStatusUnknown
      = Some marked →
    scan_path
      (set_InputsSatisfied marked db.BuildPreparationStatusBlocking)
      (JobInputs job) evs (Some last) →
    discover_path row None
      (EUpdateBuildPreparation
         (set_InputsSatisfied marked db.BuildPreparationStatusBlocking) None
       :: evs
       ++ [ELog (Session logger "loading-versions") LInfo "start" None;
           ELoadVersionsDB (versions, None);
           ELog (Session logger "loading-versions") LInfo "done" None])
      (Continue (versions, last)).

(** Plan construction and hand-off to the engine. *)
Inductive plan_path (inputs : list db.BuildInput) :
  list Event → Outcome R Empty_set → Prop :=
| create_failed plan err ret :
    plan_path inputs
      (EFactoryCreate job resources inputs (plan, Some err)
       :: EFinishBuild (db.ID build) db.StatusErrored ret
       :: error_log logger "failed-to-mark-build-as-errored" ret)
      (Returned None)
| engine_failed plan createdBuild err :
    plan_path inputs
      [EFactoryCreate job resources inputs (plan, None);
       EEngineCreateBuild logger build plan (createdBuild, Some err);
       ELog logger LError "failed-to-create-build" (Some err)]
      (Returned None)
| engine_nothing plan :
    plan_path inputs
      [EFactoryCreate job resources inputs (plan, None);
       EEngineCreateBuild logger build plan (None, None)]
      (Returned None)
| engine_building plan createdBuild :
    plan_path inputs
      [EFactoryCreate job resources inputs (plan, None);
       EEngineCreateBuild logger build plan (Some createdBuild, None);
       ELog logger LInfo "building" None;
       EGoResume createdBuild logger]
      (Returned (Some createdBuild)).

(** The commit of the resolved inputs, and the rest if it succeeded. *)
Inductive use_path (row : BuildPreparationRow) (inputs : list db.BuildInput) :
  list Event → Outcome R Empty_set → Prop :=
| satisfied_not_saved err :
    use_path row inputs
      [EUpdateBuildPreparation row (Some err);
       ELog logger LError
         "failed-to-update-build-prep-with-inputs-satisfied" (Some err)]
      (Returned None)
| use_failed err :
    use_path row inputs
      [EUpdateBuildPreparation row None;
       EUseInputsForBuild (db.ID build) inputs (Some err);
       ELog logger LError "failed-to-use-inputs-for-build" (Some err)]
      (Returned None)
| used evs o :
    plan_path inputs evs o →
    use_path row inputs
      (EUpdateBuildPreparation row None
       :: EUseInputsForBuild (db.ID build) inputs None
       :: evs)
      o.

(** Resolution, and the rest if the resolver found versions. *)
Inductive commit_path (versions : option algorithm.VersionsDB)
    (row : BuildPreparationRow) : list Event → Outcome R Empty_set → Prop :=
| resolve_failed inputs found err :
    commit_path versions row
      [EGetLatestInputVersions versions (atc.Name job) (JobInputs job)
         (inputs, found, Some err);
       ELog logger LError "failed-to-get-latest-input-versions" (Some err)]
      (Returned None)
| resolve_nothing inputs :
    commit_path versions row
      [EGetLatestInputVersions versions (atc.Name job) (JobInputs job)
         (inputs, false, None);
       ELog logger LDebug "no-input-versions-available" None]
      (Returned None)
| resolved inputs evs o :
    use_path (set_InputsSatisfied row db.BuildPreparationStatusNotBlocking)
      inputs evs o →
    commit_path versions row
      (EGetLatestInputVersions versions (atc.Name job) (JobInputs job)
         (inputs, true, None) :: evs)
      o.

(** The procedure under the lease. *)
Inductive leased_path (versions : option algorithm.VersionsDB) :
  list Event → Outcome R Empty_set → Prop :=
| schedule_failed scheduled err :
    leased_path versions
      [EScheduleBuild (db.ID build) job (scheduled, Some err);
       ELog logger LError "failed-to-schedule-build" (Some err)]
      (Returned None)
| schedule_refused :
    leased_path versions
      [EScheduleBuild (db.ID build) job (false, None);
       ELog logger LDebug "build-could-not-be-scheduled" None]
      (Returned None)
| prep_failed row found err :
    leased_path versions
      [EScheduleBuild (db.ID build) job (true, None);
       EGetBuildPreparation (db.ID build) (row, found, Some err);
       ELog logger LError "failed-to-get-build-prep" (Some err)]
      (Returned None)
| prep_not_found row :
    leased_path versions
      [EScheduleBuild (db.ID build) job (true, None);
       EGetBuildPreparation (db.ID build) (row, false, None);
       ELog logger LDebug "failed-to-find-build-prep" None]
      (Returned None)
| discovery_returned row evs r :
    discover_path row versions evs (Returned r) →
    leased_path versions
      (EScheduleBuild (db.ID build) job (true, None)
       :: EGetBuildPreparation (db.ID build) (row, true, None)
       :: evs)
      (Returned r)
| discovery_panicked row evs msg :
    discover_path row versions evs (Panicked msg) →
    leased_path versions
      (EScheduleBuild (db.ID build) job (true, None)
       :: EGetBuildPreparation (db.ID build) (row, true, None)
       :: evs)
      (Panicked msg)
| discovered row evs versions' row' evs' o :
    discover_path row versions evs (Continue (versions', row')) →
    commit_path versions' row' evs' o →
    leased_path versions
      (EScheduleBuild (db.ID build) job (true, None)
       :: EGetBuildPreparation (db.ID build) (row, true, None)
       :: evs ++ evs')
      o.

(** The whole procedure. *)
Inductive attempt_path (versions : option algorithm.VersionsDB) :
  list Event → Outcome R Empty_set → Prop :=
| lease_failed lease acquired err :
    attempt_path versions
      [ELeaseBuildScheduling (db.ID build) (10 * Second)
         (lease, acquired, Some err);
       ELog logger LError "failed-to-get-lease" (Some err)]
      (Returned None)
| lease_not_acquired lease :
    attempt_path versions
      [ELeaseBuildScheduling (db.ID build) (10 * Second)
         (lease, false, None)]
      (Returned None)
| lease_acquired lease evs o :
    leased_path versions evs o →
    attempt_path versions
      (ELeaseBuildScheduling (db.ID build) (10 * Second) (lease, true, None)
       :: evs ++ [ELeaseBreak lease])
      o.
End Paths.

(** ** Postconditions of runs

    [follows P r]: the calls, the outcome and the final store of the run [r]
    satisfy [P]. *)

Definition follows {W R A} (P : list Event → Outcome R A → Store W → Prop)
    (r : Run W R A) : Prop :=
  P (events r) (outcome r) (final r).

(** ** Observing a run *)

(** The methods of the collaborators, of the lease and of the logger. *)
Inductive Method :=
| PipelineDB_CreateJobBuild
| PipelineDB_CreateJobBuildForCandidateInputs
| PipelineDB_ScheduleBuild
| PipelineDB_GetJobBuildForInputs
| PipelineDB_GetNextPendingBuild
| PipelineDB_LoadVersionsDB
| PipelineDB_GetLatestInputVersions
| PipelineDB_UseInputsForBuild
| BuildsDB_LeaseBuildScheduling
| Lease_Break
| BuildsDB_ErrorBuild
| BuildsDB_FinishBuild
| BuildsDB_GetBuildPreparation
| BuildsDB_UpdateBuildPreparation
| BuildFactory_Create
| Scanner_Scan
| Engine_CreateBuild
| Build_Resume
| Logger_Log.

Global Instance Method_eq_dec : EqDecision Method.
Proof. solve_decision. Defined.

Definition method (e : Event) : Method :=
  match e with
  | ECreateJobBuild _ _ => PipelineDB_CreateJobBuild
  | ECreateJobBuildForCandidateInputs _ _ =>
    PipelineDB_CreateJobBuildForCandidateInputs
  | EScheduleBuild _ _ _ => PipelineDB_ScheduleBuild
  | EGetJobBuildForInputs _ _ _ => PipelineDB_GetJobBuildForInputs
  | EGetNextPendingBuild _ _ => PipelineDB_GetNextPendingBuild
  | ELoadVersionsDB _ => PipelineDB_LoadVersionsDB
  | EGetLatestInputVersions _ _ _ _ => PipelineDB_GetLatestInputVersions
  | EUseInputsForBuild _ _ _ => PipelineDB_UseInputsForBuild
  | ELeaseBuildScheduling _ _ _ => BuildsDB_LeaseBuildScheduling
  | ELeaseBreak _ => Lease_Break
  | EErrorBuild _ _ _ => BuildsDB_ErrorBuild
  | EFinishBuild _ _ _ => BuildsDB_FinishBuild
  | EGetBuildPreparation _ _ => BuildsDB_GetBuildPreparation
  | EUpdateBuildPreparation _ _ => BuildsDB_UpdateBuildPreparation
  | EFactoryCreate _ _ _ _ => BuildFactory_Create
  | EScan _ _ _ => Scanner_Scan
  | EEngineCreateBuild _ _ _ _ => Engine_CreateBuild
  | EGoResume _ _ => Build_Resume
  | ELog _ _ _ _ => Logger_Log
  end.

(** The calls of the methods [ms], in the order they were made. *)
Fixpoint calls (ms : list Method) (trace : list Event) : list Event :=
  match trace with
  | [] => []
  | e :: rest =>
    if bool_decide (method e ∈ ms) then e :: calls ms rest else calls ms rest
  end.

(** Everything but logging is a call of a collaborator. *)
Fixpoint collaborator_calls (trace : list Event) : list Event :=
  match trace with
  | [] => []
  | e :: rest =>
    if bool_decide (method e = Logger_Log) then collaborator_calls rest
    else e :: collaborator_calls rest
  end.

(** The preparation records persisted through [UpdateBuildPreparation]. *)
Fixpoint persisted (trace : list Event) : list BuildPreparationRow :=
  match trace with
  | [] => []
  | EUpdateBuildPreparation row _ :: rest => row :: persisted rest
  | _ :: rest => persisted rest
  end.

(** The status a persisted record gives to an input, if any. *)
Definition input_status (name : string) (row : BuildPreparationRow)
  : option db.BuildPreparationStatus :=
  db.Inputs row ≫= (λ m, m !! name).

(** The statuses persisted for an input, in the order they were persisted. *)
Definition statuses (name : string) (trace : list Event)
  : list (option db.BuildPreparationStatus) :=
  input_status name <$> persisted trace.

(** The contents of the map a preparation record refers to; the nil map has
    no entries. *)
Definition contents (h : Heap) (buildPrep : BuildPreparation) : InputStatuses :=
  default ∅ (db.Inputs buildPrep ≫= (λ l, h !! l)).

(** No method of [ms] is among [ms']. *)
Definition apart (ms ms' : list Method) : bool :=
  forallb (λ m, negb (bool_decide (m ∈ ms'))) ms.

(** The methods only the scheduling procedure calls. *)
Definition scheduling_methods : list Method :=
  [BuildsDB_LeaseBuildScheduling; Lease_Break; PipelineDB_ScheduleBuild;
   BuildsDB_GetBuildPreparation; BuildsDB_UpdateBuildPreparation;
   Scanner_Scan; BuildsDB_ErrorBuild; PipelineDB_LoadVersionsDB;
   PipelineDB_UseInputsForBuild; BuildFactory_Create; BuildsDB_FinishBuild;
   Engine_CreateBuild; Build_Resume].

(** The methods called while scanning, and those called by a scan that ran
    to its end. *)
Definition scan_methods : list Method :=
  [BuildsDB_UpdateBuildPreparation; Scanner_Scan; Logger_Log;
   BuildsDB_ErrorBuild].

Definition scanned_methods : list Method :=
  [BuildsDB_UpdateBuildPreparation; Scanner_Scan; Logger_Log].

(** The methods called under the lease, and by the whole procedure. *)
Definition leased_methods : list Method :=
  [PipelineDB_ScheduleBuild; BuildsDB_GetBuildPreparation;
   BuildsDB_UpdateBuildPreparation; Scanner_Scan; Logger_Log;
   BuildsDB_ErrorBuild; PipelineDB_LoadVersionsDB;
   PipelineDB_GetLatestInputVersions; PipelineDB_UseInputsForBuild;
   BuildFactory_Create; BuildsDB_FinishBuild; Engine_CreateBuild;
   Build_Resume].

Definition attempt_methods : list Method :=
  BuildsDB_LeaseBuildScheduling :: Lease_Break :: leased_methods.

(** ** The order of preparation statuses and of scans, in the spec's words *)

(** The chain unknown, blocking, not blocking; a persisted status is an
    [option], an input the record does not mention having none. *)
Definition preparation_chain : list (option db.BuildPreparationStatus) :=
  [Some db.BuildPreparationStatusUnknown;
   Some db.BuildPreparationStatusBlocking;
   Some db.BuildPreparationStatusNotBlocking].

(** A sequence with its repetitions collapsed. *)
Fixpoint collapse {A} `{EqDecision A} (l : list A) : list A :=
  match l with
  | [] => []
  | x :: rest =>
    match rest with
    | [] => [x]
    | y :: _ => if decide (x = y) then collapse rest else x :: collapse rest
    end
  end.

(** One step along the chain, or none. *)
Definition chain_step (a b : option db.BuildPreparationStatus) : Prop :=
  a = b ∨
  (a = Some db.BuildPreparationStatusUnknown ∧
   b = Some db.BuildPreparationStatusBlocking) ∨
  (a = Some db.BuildPreparationStatusBlocking ∧
   b = Some db.BuildPreparationStatusNotBlocking).

(** The statuses [l] go on along the chain from [prev]. *)
Fixpoint ascends (prev : option db.BuildPreparationStatus)
    (l : list (option db.BuildPreparationStatus)) : Prop :=
  match l with
  | [] => True
  | x :: rest => chain_step prev x ∧ ascends x rest
  end.

(** The calls of a scan of all inputs, given the records saved around the
    scan of each: the record with the input blocking, the scan of its
    resource, the record with the input not blocking. *)
Fixpoint scan_calls (logger : Logger) (inputs : list config.JobInput)
    (rows : list (BuildPreparationRow * BuildPreparationRow)) : list Event :=
  match inputs, rows with
  | input :: inputs, (blocking, notBlocking) :: rows =>
    EUpdateBuildPreparation blocking None
    :: EScan (Session logger "scan") (config.Resource input) None
    :: EUpdateBuildPreparation notBlocking None
    :: scan_calls logger inputs rows
  | _, _ => []
  end.

(** The records saved around the scan of an input show it blocking, then
    not blocking. *)
Definition brackets (input : config.JobInput)
    (rows : BuildPreparationRow * BuildPreparationRow) : Prop :=
  input_status (config.Name input) rows.1
  = Some db.BuildPreparationStatusBlocking ∧
  input_status (config.Name input) rows.2
  = Some db.BuildPreparationStatusNotBlocking.

(** ** Further observations of a run *)

(** The resources passed to [Scanner.Scan], in the order of the calls. *)
Fixpoint scanned (trace : list Event) : list string :=
  match trace with
  | [] => []
  | EScan _ resource _ :: rest => resource :: scanned rest
  | _ :: rest => scanned rest
  end.

(** Two preparation records agree on the fields the scheduler does not
    assign: [BuildID], [PausedPipeline], [PausedJob], [MaxRunningBuilds]. *)
Definition same_build_fields (row row' : BuildPreparationRow) : Prop :=
  db.BuildID row' = db.BuildID row ∧
  db.PausedPipeline row' = db.PausedPipeline row ∧
  db.PausedJob row' = db.PausedJob row ∧
  db.MaxRunningBuilds row' = db.MaxRunningBuilds row.

Module scenarios.
(** The store returns a preparation record whose [Inputs] map is nil. *)
Definition nil_map (names : list string) : fakes.Script :=
{| fakes.createJobBuildForCandidateInputsReturns := (fakes.build, true, None);
   fakes.scheduleBuildReturns := (true, None);
   fakes.getJobBuildForInputsReturns := ({| db.ID := 0 |}, false, None);
   fakes.loadVersionsDBReturns := (Some 7%nat, None);
   fakes.getLatestInputVersionsReturns := (fakes.version <$> names, true, None);
   fakes.useInputsForBuildReturns := None;
   fakes.leaseBuildSchedulingReturns := (1%nat, true, None);
   fakes.errorBuildReturns := None;
   fakes.finishBuildReturns := None;
   fakes.getBuildPreparationReturns := (with_Inputs fakes.prep None, true, None);
   fakes.updateBuildPreparationStub := λ _, None;
   fakes.createReturns := (42%nat, None);
   fakes.scanStub := λ _, None;
   fakes.createBuildReturns := (Some 5%nat, None) |}.

(** The store answers as [store] tells; scanner, plan factory and engine
  succeed. *)
Definition store (schedule : bool * option Error)
  (latest : list db.BuildInput * bool * option Error)
  (existing : db.Build * bool * option Error)
  (engineBuild : option engine.Build * option Error) : fakes.Script :=
{| fakes.createJobBuildForCandidateInputsReturns := (fakes.build, true, None);
   fakes.scheduleBuildReturns := schedule;
   fakes.getJobBuildForInputsReturns := existing;
   fakes.loadVersionsDBReturns := (Some 7%nat, None);
   fakes.getLatestInputVersionsReturns := latest;
   fakes.useInputsForBuildReturns := None;
   fakes.leaseBuildSchedulingReturns := (1%nat, true, None);
   fakes.errorBuildReturns := None;
   fakes.finishBuildReturns := None;
   fakes.getBuildPreparationReturns := (fakes.prep, true, None);
   fakes.updateBuildPreparationStub := λ _, None;
   fakes.createReturns := (42%nat, None);
   fakes.scanStub := λ _, None;
   fakes.createBuildReturns := engineBuild |}.

(** [ScheduleBuild] declines. *)
Definition refused : fakes.Script :=
store (false, None) ([], true, None) ({| db.ID := 0 |}, false, None)
  (Some 5%nat, None).

(** The resolver finds no versions. *)
Definition unresolved : fakes.Script :=
store (true, None) ([], false, None) ({| db.ID := 0 |}, false, None)
  (Some 5%nat, None).

(** The engine returns a handle together with an error. *)
Definition engine_fails (names : list string) : fakes.Script :=
store (true, None) (fakes.version <$> names, true, None)
  ({| db.ID := 0 |}, false, None) (Some 5%nat, Some "no engine").

(** The resolver fails. *)
Definition resolver_fails : fakes.Script :=
store (true, None) ([], false, Some "no versions")
  ({| db.ID := 0 |}, false, None) (Some 5%nat, None).

(** A build with the triggered inputs exists already. *)
Definition already_built (names : list string) : fakes.Script :=
store (true, None) (fakes.version <$> names, true, None)
  ({| db.ID := 127 |}, true, None) (Some 5%nat, None).
End scenarios.


(** ** The runs of [BuildLatestInputs] *)

(** Whether the first declaration with the name of [input] is a trigger. *)
Definition triggers (inputs : list config.JobInput) (input : db.BuildInput)
  : bool :=
  match List.find (λ ji, String.eqb (config.Name ji) (db.Name input)) inputs with
  | Some ji => config.Trigger ji
  | None => false
  end.

(** The inputs [BuildLatestInputs] looks a build up for, as its loops
    collect them. *)
Definition checkInputs_of (inputs : list config.JobInput)
    (latestInputs : list db.BuildInput) : list db.BuildInput :=
  foldl (λ checkInputs input, appendIfTrigger inputs input checkInputs)
        [] latestInputs.

(** The error a call returned, if it returned one. *)
Definition failure (e : Event) : option Error :=
  match e with
  | ECreateJobBuild _ (_, err) => err
  | ECreateJobBuildForCandidateInputs _ (_, _, err) => err
  | EScheduleBuild _ _ (_, err) => err
  | EGetJobBuildForInputs _ _ (_, _, err) => err
  | EGetNextPendingBuild _ (_, _, err) => err
  | ELoadVersionsDB (_, err) => err
  | EGetLatestInputVersions _ _ _ (_, _, err) => err
  | EUseInputsForBuild _ _ err => err
  | ELeaseBuildScheduling _ _ (_, _, err) => err
  | ELeaseBreak _ => None
  | EErrorBuild _ _ err => err
  | EFinishBuild _ _ err => err
  | EGetBuildPreparation _ (_, _, err) => err
  | EUpdateBuildPreparation _ err => err
  | EFactoryCreate _ _ _ (_, err) => err
  | EScan _ _ err => err
  | EEngineCreateBuild _ _ _ (_, err) => err
  | EGoResume _ _ => None
  | ELog _ _ _ _ => None
  end.

(** What a caller that drops the result of the scheduling procedure and
    returns nil makes of its outcome. *)
Definition dropped {R} (o : Outcome (option engine.Build) Empty_set)
  : Outcome (option R) Empty_set :=
  match o with
  | Continue a => match a with end
  | Returned _ => Returned None
  | Panicked msg => Panicked msg
  end.

Section LatestPaths.
Context {W : Type} `{!Scheduler W}.
Variables (logger : Logger) (versions : option algorithm.VersionsDB)
  (job : atc.JobConfig) (resources : atc.ResourceConfigs).

(** From the creation of the build on. *)
Inductive candidate_path :
  list Event → Outcome (option Error) Empty_set → Prop :=
| candidate_failed build created err :
    candidate_path
      [ECreateJobBuildForCandidateInputs (atc.Name job)
         (build, created, Some err);
       ELog (Session logger "build-latest") LError "failed-to-create-build"
         (Some err)]
      (Returned (Some err))
| candidate_exists build :
    candidate_path
      [ECreateJobBuildForCandidateInputs (atc.Name job) (build, false, None);
       ELog (Session logger "build-latest") LDebug
         "waiting-for-existing-build-to-determine-inputs" None]
      (Returned None)
| candidate_scheduled build (s : Store W) :
    candidate_path
      (ECreateJobBuildForCandidateInputs (atc.Name job) (build, true, None)
       :: ELog (Session logger "build-latest") LDebug "created-build" None
       :: events
            (scheduleAndResumePendingBuild (Session logger "build-latest")
               versions build job resources s))
      (dropped
         (outcome
            (scheduleAndResumePendingBuild (Session logger "build-latest")
               versions build job resources s))).

(** From the lookup of a build with the inputs [checkInputs] on. *)
Inductive lookup_path (checkInputs : list db.BuildInput) :
  list Event → Outcome (option Error) Empty_set → Prop :=
| lookup_failed existingBuild found err :
    lookup_path checkInputs
      [EGetJobBuildForInputs (atc.Name job) checkInputs
         (existingBuild, found, Some err);
       ELog (Session logger "build-latest") LError
         "could-not-determine-if-inputs-are-already-used" (Some err)]
      (Returned (Some err))
| lookup_found existingBuild :
    lookup_path checkInputs
      [EGetJobBuildForInputs (atc.Name job) checkInputs
         (existingBuild, true, None);
       ELog (Session logger "build-latest") LDebug
         "build-already-exists-for-inputs" None]
      (Returned None)
| lookup_missing existingBuild evs o :
    candidate_path evs o →
    lookup_path checkInputs
      (EGetJobBuildForInputs (atc.Name job) checkInputs
         (existingBuild, false, None) :: evs)
      o.

(** The whole of [BuildLatestInputs]. *)
Inductive latest_path :
  list Event → Outcome (option Error) Empty_set → Prop :=
| latest_no_inputs :
    JobInputs job = [] →
    latest_path [] (Returned None)
| latest_failed latestInputs found err :
    JobInputs job ≠ [] →
    latest_path
      [EGetLatestInputVersions versions (atc.Name job) (JobInputs job)
         (latestInputs, found, Some err);
       ELog (Session logger "build-latest") LError
         "failed-to-get-latest-input-versions" (Some err)]
      (Returned (Some err))
| latest_nothing latestInputs :
    JobInputs job ≠ [] →
    latest_path
      [EGetLatestInputVersions versions (atc.Name job) (JobInputs job)
         (latestInputs, false, None);
       ELog (Session logger "build-latest") LDebug
         "no-input-versions-available" None]
      (Returned None)
| latest_no_trigger latestInputs :
    JobInputs job ≠ [] →
    checkInputs_of (JobInputs job) latestInputs = [] →
    latest_path
      [EGetLatestInputVersions versions (atc.Name job) (JobInputs job)
         (latestInputs, true, None);
       ELog (Session logger "build-latest") LDebug
         "no-triggered-input-versions" None]
      (Returned None)
| latest_looked_up latestInputs evs o :
    JobInputs job ≠ [] →
    checkInputs_of (JobInputs job) latestInputs ≠ [] →
    lookup_path (checkInputs_of (JobInputs job) latestInputs) evs o →
    latest_path
      (EGetLatestInputVersions versions (atc.Name job) (JobInputs job)
         (latestInputs, true, None) :: evs)
      o.
End LatestPaths.

(** * The actions step of package [exec]

    [ActionsStep] of [actions_step.go] runs a list of actions and reports to
    a delegate.  Actions and the delegate are Go interfaces: they are type
    classes over a world [W], as the collaborators of the scheduler.  The
    step is a record passed explicitly: [Run] has a pointer receiver and
    returns the step it leaves behind, [Using] has a value receiver and
    returns a copy.  The channels [signals] and [ready] are handed to the
    actions untouched and are left out. *)

Module exec.
(** The errors of an action, as far as [Run] tells them apart: a value of
    type [resource.ErrResourceScriptFailed] with its exit status, the
    value [resource.ErrAborted], and any other error, among them
    [ErrInterrupted] of this package. *)
Inductive error :=
| ErrResourceScriptFailed (ExitStatus : Z)
| ErrAborted
| ErrInterrupted
| ErrOther (message : string).

Definition ExitStatus := Z.

(** [*worker.ArtifactRepository]: nil or the address of a repository. *)
Definition ArtifactRepository := option nat.

Class Action (W A : Type) := {
  Action_Run : A → Logger → ArtifactRepository → W → option error * W
}.

Class BuildEventsDelegate (W : Type) := {
  Initializing : Logger → W → W;
  Failed : Logger → error → W → W;
  Finished : Logger → ExitStatus → W → W
}.

(** What a step does: calls of the delegate, runs of actions with what
    they returned, and log messages. *)
Inductive Event (A : Type) :=
| EInitializing (logger : Logger)
| EFailed (logger : Logger) (err : error)
| EFinished (logger : Logger) (status : ExitStatus)
| ERun (action : A) (logger : Logger) (repository : ArtifactRepository)
    (ret : option error)
| ELogError (logger : Logger) (message : string) (err : error)
| ELogDebug (logger : Logger) (message : string).
Arguments EInitializing {A} _.
Arguments EFailed {A} _ _.
Arguments EFinished {A} _ _.
Arguments ERun {A} _ _ _ _.
Arguments ELogError {A} _ _ _.
Arguments ELogDebug {A} _ _.

Record ActionsStep (A : Type) := {
  actions : list A;
  logger : Logger;
  repository : ArtifactRepository;
  succeeded : bool
}.
Arguments actions {A} _.
Arguments logger {A} _.
Arguments repository {A} _.
Arguments succeeded {A} _.

(** A run of the step: what [Run] returned, the step and the world it
    left, and what it did. *)
Record Report (W A : Type) := {
  returned : option error;
  step : ActionsStep A;
  world : W;
  trace : list (Event A)
}.
Arguments returned {W A} _.
Arguments step {W A} _.
Arguments world {W A} _.
Arguments trace {W A} _.

(** The actions run, in the order of their runs. *)
Fixpoint ran {A} (trace : list (Event A)) : list A :=
  match trace with
  | [] => []
  | ERun action _ _ _ :: rest => action :: ran rest
  | _ :: rest => ran rest
  end.

(** The calls of the delegate, in their order. *)
Fixpoint notified {A} (trace : list (Event A)) : list (Event A) :=
  match trace with
  | [] => []
  | EInitializing logger :: rest => EInitializing logger :: notified rest
  | EFailed logger err :: rest => EFailed logger err :: notified rest
  | EFinished logger status :: rest => EFinished logger status :: notified rest
  | _ :: rest => notified rest
  end.

(** The runs of the actions [done] by the step [s], each returning nil. *)
Definition quiet {A} (s : ActionsStep A) (done : list A) : list (Event A) :=
  (λ a, ERun a (logger s) (repository s) None) <$> done.

Section Step.
Context {W A : Type} `{!Action W A, !BuildEventsDelegate W}.

Definition Using (s : ActionsStep A) (repo : ArtifactRepository)
  : ActionsStep A :=
  {| actions := actions s; logger := logger s; repository := repo;
     succeeded := succeeded s |}.

(** The loop of [Run] over the actions still to run.  The first
    component is [Some err] when the loop returned [err] from [Run],
    and [None] when it ran to its end. *)
Fixpoint run_actions (s : ActionsStep A) (todo : list A) (w : W)
  : option (option error) * W * list (Event A) :=
  match todo with
  | [] => (None, w, [])
  | action :: rest =>
    let '(err, w) := Action_Run action (logger s) (repository s) w in
    match err with
    | None =>
      let '(r, w, evs) := run_actions s rest w in
      (r, w, ERun action (logger s) (repository s) None :: evs)
    | Some (ErrResourceScriptFailed status) =>
      (Some None, Finished (logger s) status w,
       [ERun action (logger s) (repository s) err;
        ELogError (logger s) "resource-script-failed"
          (ErrResourceScriptFailed status);
        EFinished (logger s) status])
    | Some ErrAborted =>
      (Some (Some ErrInterrupted), w,
       [ERun action (logger s) (repository s) err;
        ELogDebug (logger s) "resource-aborted"])
    | Some e =>
      (Some (Some e), Failed (logger s) e w,
       [ERun action (logger s) (repository s) err;
        ELogError (logger s) "failed-to-run-action" e;
        EFailed (logger s) e])
    end
  end.

Definition Run (s : ActionsStep A) (w : W) : Report W A :=
  let w := Initializing (logger s) w in
  match run_actions s (actions s) w with
  | (Some err, w, evs) =>
    {| returned := err; step := s; world := w;
       trace := EInitializing (logger s) :: evs |}
  | (None, w, evs) =>
    {| returned := None;
       step := {| actions := actions s; logger := logger s;
                  repository := repository s; succeeded := true |};
       world := Finished (logger s) 0 w;
       trace := EInitializing (logger s) :: evs
                ++ [EFinished (logger s) 0] |}
  end.
End Step.

(** Scripted actions in the manner of fakes: an action is what it
    returns, and the world counts the calls made. *)
Module scripted.
Definition action : Action nat (option error) :=
  {| Action_Run := λ a _ _ w, (a, S w) |}.

Definition delegate : BuildEventsDelegate nat :=
  {| Initializing := λ _, S; Failed := λ _ _, S; Finished := λ _ _, S |}.

Definition a_step (actions : list (option error))
  : ActionsStep (option error) :=
  {| actions := actions; logger := ["atc"]; repository := Some 1%nat;
     succeeded := false |}.

(** [Run] on the scripted actions and delegate, from the world 0. *)
Abbreviation run s :=
  (Run (Action0 := action) (BuildEventsDelegate0 := delegate) s 0%nat).
End scripted.
End exec.

(** * The other entry points of the scheduler

    [TryNextPendingBuild] and [TriggerImmediately] start a goroutine and
    hand out its wait group.  The goroutine is embedded as the function it
    runs; a waiter is the goroutine it waits for ([wg.Done] is deferred to
    the end of the goroutine), and nil is no waiter. *)

Section EntryPoints.
Context {W : Type} `{!Scheduler W}.

(** The goroutine of [TryNextPendingBuild], which besides starting it
    only makes the session logger and the wait group. *)
Definition TryNextPendingBuild (logger : Logger)
    (versions : option algorithm.VersionsDB) (job : atc.JobConfig)
    (resources : atc.ResourceConfigs) : Func W unit :=
  let logger := Session logger "try-next-pending" in
  let! '(build, found, err) :=
    call (GetNextPendingBuild (atc.Name job))
         (EGetNextPendingBuild (atc.Name job)) in
  if_err err (λ err,
    log logger LError "failed-to-get-next-pending-build" (Some err) >>
    return_ tt) >>
  when (negb found) (return_ tt) >>
  let! _ := invoke (scheduleAndResumePendingBuild logger versions build job
                      resources) in
  return_ tt.

(** The goroutine of [TriggerImmediately]. *)
Definition triggered (logger : Logger) (build : db.Build)
    (job : atc.JobConfig) (resources : atc.ResourceConfigs) : Func W unit :=
  let! _ := invoke (scheduleAndResumePendingBuild logger None build job
                      resources) in
  return_ tt.

Definition TriggerImmediately (logger : Logger) (job : atc.JobConfig)
    (resources : atc.ResourceConfigs)
  : Func W (db.Build * option (Func W unit) * option Error) :=
  let logger := Session logger "trigger-immediately" in
  let! '(build, err) :=
    call (CreateJobBuild (atc.Name job)) (ECreateJobBuild (atc.Name job)) in
  if_err err (λ err,
    log logger LError "failed-to-create-build" (Some err) >>
    return_ ({| db.ID := 0 |}, None, Some err)) >>
  return_ (build, Some (triggered logger build job resources), None).
End EntryPoints.

(** ** The calls of a trace, made on the world

    An event records a call together with what it returned.  The
    definitions below say what the event means for the world of the
    collaborators: the call was made, in the world as it was then, with the
    arguments the event shows; it returned what the event shows and left
    the world that the next call finds. *)

Section Replay.
Context {W : Type} `{!Scheduler W}.

(** [performs e w w']: the method of [e], called in the world [w] with
    the arguments of [e], returns what [e] records and leaves the world
    [w'].  A log message and the launch of [Resume] are no calls of a
    collaborator: they leave the world as it is. *)
Definition performs (e : Event) (w w' : W) : Prop :=
  match e with
  | ECreateJobBuild job ret => CreateJobBuild job w = (ret, w')
  | ECreateJobBuildForCandidateInputs job ret =>
    CreateJobBuildForCandidateInputs job w = (ret, w')
  | EScheduleBuild buildID jobConfig ret =>
    ScheduleBuild buildID jobConfig w = (ret, w')
  | EGetJobBuildForInputs job inputs ret =>
    GetJobBuildForInputs job inputs w = (ret, w')
  | EGetNextPendingBuild job ret => GetNextPendingBuild job w = (ret, w')
  | ELoadVersionsDB ret => LoadVersionsDB w = (ret, w')
  | EGetLatestInputVersions versions job inputs ret =>
    GetLatestInputVersions versions job inputs w = (ret, w')
  | EUseInputsForBuild buildID inputs ret =>
    UseInputsForBuild buildID inputs w = (ret, w')
  | ELeaseBuildScheduling buildID interval ret =>
    LeaseBuildScheduling buildID interval w = (ret, w')
  | ELeaseBreak lease => LeaseBreak lease w = w'
  | EErrorBuild buildID err ret => ErrorBuild buildID err w = (ret, w')
  | EFinishBuild buildID status ret => FinishBuild buildID status w = (ret, w')
  | EGetBuildPreparation buildID ret => GetBuildPreparation buildID w = (ret, w')
  | EUpdateBuildPreparation buildPreparation ret =>
    UpdateBuildPreparation buildPreparation w = (ret, w')
  | EFactoryCreate job resources inputs ret =>
    Create job resources inputs w = (ret, w')
  | EScan logger resource ret => Scan logger resource w = (ret, w')
  | EEngineCreateBuild logger build plan ret =>
    CreateBuild logger build plan w = (ret, w')
  | EGoResume _ _ => w' = w
  | ELog _ _ _ _ => w' = w
  end.

(** [replays trace w w']: the calls of [trace], made one after the other
    from the world [w] on, return what [trace] records and leave the
    world [w']. *)
Fixpoint replays (trace : list Event) (w w' : W) : Prop :=
  match trace with
  | [] => w' = w
  | e :: rest => ∃ w1, performs e w w1 ∧ replays rest w1 w'
  end.

(** A computation is faithful if its trace is what it did to the world:
    from any store, the calls recorded lead from the world of the store
    to the world it leaves. *)
Definition faithful {R A} (m : M W R A) : Prop :=
  ∀ s, replays (events (m s)) (world s) (world (final (m s))).
End Replay.

(** * The trace of a run is what the run did to the world *)

Section Faithful.
Context {W : Type} `{!Scheduler W}.

Lemma replays_app trace1 trace2 (w w1 w' : W) :
  replays trace1 w w1 → replays trace2 w1 w' →
  replays (trace1 ++ trace2) w w'.
Proof.
  revert w. induction trace1 as [|e trace1 IH]; intros w; simpl.
  - by intros ->.
  - intros (w2 & He & Hrest) Htrace2. exists w2. split; [done|].
    by apply IH.
Qed.

Lemma replays_app_inv trace1 trace2 (w w' : W) :
  replays (trace1 ++ trace2) w w' →
  ∃ w1, replays trace1 w w1 ∧ replays trace2 w1 w'.
Proof.
  revert w. induction trace1 as [|e trace1 IH]; intros w; simpl.
  - intros Htrace2. by exists w.
  - intros (w2 & He & Hrest). destruct (IH _ Hrest) as (w1 & H1 & H2).
    exists w1. split; [|done]. by exists w2.
Qed.

Lemma replays_last trace e (w w' : W) :
  replays (trace ++ [e]) w w' →
  ∃ w1, replays trace w w1 ∧ performs e w1 w'.
Proof.
  intros Htrace. apply replays_app_inv in Htrace as (w1 & Htrace & He).
  exists w1. split; [done|]. by destruct He as (? & ? & ->).
Qed.

(** A call in a faithful trace was made: on the world the calls before
    it have left, and the calls after it go on from the world it left. *)
Lemma replays_elem e trace (w w' : W) :
  replays trace w w' → e ∈ trace →
  ∃ before after w1 w2,
    trace = before ++ e :: after ∧
    replays before w w1 ∧ performs e w1 w2 ∧ replays after w2 w'.
Proof.
  intros Htrace Hin.
  apply list_elem_of_split in Hin as (before & after & ->).
  apply replays_app_inv in Htrace as (w1 & Hbefore & w2 & He & Hafter).
  by exists before, after, w1, w2.
Qed.

(** Log messages leave the world alone. *)
Lemma replays_logs trace (w w' : W) :
  replays trace w w' → collaborator_calls trace = [] → w' = w.
Proof.
  revert w. induction trace as [|e trace IH]; intros w; simpl; [done|].
  intros (w1 & He & Hrest).
  destruct e; simpl; try discriminate.
  simpl in He. subst w1. by apply IH.
Qed.

Lemma faithful_pure {R A} (a : A) : faithful (W := W) (R := R) (pure a).
Proof. by intros s. Qed.

Lemma faithful_return {R A} (r : R) : faithful (W := W) (A := A) (return_ r).
Proof. by intros s. Qed.

Lemma faithful_panic {R A} msg : faithful (W := W) (R := R) (A := A) (panic msg).
Proof. by intros s. Qed.

Lemma faithful_bind {R A B} (m : M W R A) (f : A → M W R B) :
  faithful m → (∀ a, faithful (f a)) → faithful (bind m f).
Proof.
  intros Hm Hf s. unfold bind. specialize (Hm s).
  destruct (outcome (m s)) as [a| |]; simpl; [|done..].
  eapply replays_app; [exact Hm|apply Hf].
Qed.

(** A call is faithful if it is recorded as the call it is. *)
Lemma faithful_call {R X} (method : W → X * W) (ev : X → Event) :
  (∀ w, performs (ev (method w).1) w (method w).2) →
  faithful (R := R) (call method ev).
Proof.
  intros Hev s. unfold call. specialize (Hev (world s)).
  destruct (method (world s)) as [x w]. simpl in *. by exists w.
Qed.

Lemma faithful_emit {R} (e : Event) :
  (∀ w, performs e w w) → faithful (R := R) (emit e).
Proof. intros He s. simpl. by exists (world s). Qed.

Lemma faithful_log {R} logger level message err :
  faithful (R := R) (log logger level message err).
Proof. by apply faithful_emit. Qed.

(** A deferred call is faithful if it is recorded as the call it is. *)
Lemma faithful_defer {R A} (f : W → W) (ev : Event) (body : M W R A) :
  (∀ w, performs ev w (f w)) → faithful body →
  faithful (defer f ev body).
Proof.
  intros Hev Hbody s. unfold defer. simpl.
  eapply replays_app; [apply Hbody|]. simpl. eauto.
Qed.

Lemma faithful_if_err {R} err (handle : Error → M W R unit) :
  (∀ e, faithful (handle e)) → faithful (if_err err handle).
Proof. destruct err; simpl; [done|]. intros _. apply faithful_pure. Qed.

Lemma faithful_when {R} (cond : bool) (body : M W R unit) :
  faithful body → faithful (when cond body).
Proof. destruct cond; simpl; [done|]. intros _. apply faithful_pure. Qed.

Lemma faithful_range {R A S} (xs : list A) (acc : S)
    (body : A → S → M W R S) :
  (∀ x acc, faithful (body x acc)) → faithful (range xs acc body).
Proof.
  intros Hbody. revert acc. induction xs as [|x xs IH]; intros acc; simpl.
  - apply faithful_pure.
  - apply faithful_bind; [apply Hbody|apply IH].
Qed.

Lemma faithful_make_map {R} : faithful (W := W) (R := R) make_map.
Proof. by intros s. Qed.

Lemma faithful_map_assign {R} m key value :
  faithful (W := W) (R := R) (map_assign m key value).
Proof. intros s. unfold map_assign. by destruct (m ≫= _). Qed.

Lemma faithful_map_entries {R} m :
  faithful (W := W) (R := R) (map_entries m).
Proof. by intros s. Qed.

Lemma faithful_invoke {R R'} (f : Func W R') :
  faithful f → faithful (R := R) (invoke f).
Proof. intros Hf s. apply Hf. Qed.

Lemma faithful_updateBuildPreparation {R} buildPrep :
  faithful (R := R) (updateBuildPreparation buildPrep).
Proof.
  intros s. unfold updateBuildPreparation.
  apply (faithful_call (R := R)
           (UpdateBuildPreparation (row_of (heap s) buildPrep))
           (EUpdateBuildPreparation (row_of (heap s) buildPrep))).
  intros w. apply surjective_pairing.
Qed.

Lemma faithful_getBuildPreparation {R} buildID :
  faithful (R := R) (getBuildPreparation buildID).
Proof.
  unfold getBuildPreparation. apply faithful_bind.
  - apply faithful_call. intros w. apply surjective_pairing.
  - by intros [[row found] err] s.
Qed.

Lemma faithful_cloneBuildPrep {R} buildPrep :
  faithful (R := R) (cloneBuildPrep buildPrep).
Proof.
  unfold cloneBuildPrep.
  apply faithful_bind; [apply faithful_make_map|]. intros inputs.
  apply faithful_bind; [apply faithful_map_entries|]. intros entries.
  apply faithful_bind; [|intros; apply faithful_pure].
  apply faithful_range. intros [key value] []. apply faithful_map_assign.
Qed.

Lemma faithful_markInputs {R} buildInputs buildPrep status :
  faithful (R := R) (markInputs buildInputs buildPrep status).
Proof.
  apply faithful_range. intros input []. apply faithful_map_assign.
Qed.

(** Walks through a function of the scheduler, call by call. *)
Ltac faithfully :=
  repeat first
    [ apply faithful_pure
    | apply faithful_return
    | apply faithful_log
    | apply faithful_updateBuildPreparation
    | apply faithful_getBuildPreparation
    | apply faithful_cloneBuildPrep
    | apply faithful_markInputs
    | apply faithful_map_assign
    | apply faithful_if_err; intros ?
    | apply faithful_when
    | apply faithful_call; intros ?; cbn [performs]; apply surjective_pairing
    | apply faithful_emit; intros ?; reflexivity
    | apply faithful_defer; [intros ?; reflexivity|]
    | apply faithful_range; intros ? ?
    | apply faithful_bind; [|intros ?]
    | match goal with
      | |- faithful (match ?x with _ => _ end) => destruct x
      end ].

Lemma faithful_scanInput logger build input buildPrep :
  faithful (scanInput logger build input buildPrep).
Proof. unfold scanInput. faithfully. Qed.

(** Every call the scheduling procedure records is a call it made, in
    the order recorded and with the result recorded, and it changed the
    world in no other way. *)
Lemma attempt_faithful logger versions build job resources :
  faithful (scheduleAndResumePendingBuild logger versions build job resources).
Proof.
  unfold scheduleAndResumePendingBuild.
  pose proof faithful_scanInput.
  faithfully.
Qed.

Lemma latest_faithful logger versions job resources :
  faithful (BuildLatestInputs logger versions job resources).
Proof.
  unfold BuildLatestInputs. pose proof attempt_faithful.
  repeat first [ progress faithfully | apply faithful_invoke ].
Qed.

Lemma next_faithful logger versions job resources :
  faithful (TryNextPendingBuild logger versions job resources).
Proof.
  unfold TryNextPendingBuild. pose proof attempt_faithful.
  repeat first [ progress faithfully | apply faithful_invoke ].
Qed.

Lemma trigger_faithful logger job resources :
  faithful (TriggerImmediately logger job resources).
Proof. unfold TriggerImmediately. faithfully. Qed.
End Faithful.
(** ** Go maps in the heap *)

Section HeapLemmas.
Context {W R : Type}.

Lemma lookup_fresh (h : Heap) (m : InputStatuses) :
  (h ++ [m]) !! length h = Some m.
Proof. apply list_lookup_middle. done. Qed.

Lemma insert_fresh (h : Heap) (m m' : InputStatuses) :
  <[length h := m']> (h ++ [m]) = h ++ [m'].
Proof.
  replace (length h) with (length h + 0)%nat by lia.
  by rewrite insert_app_r.
Qed.

Lemma map_assign_fresh (h : Heap) (m : InputStatuses) w key value :
  @map_assign W R (Some (length h)) key value
    {| world := w; heap := h ++ [m] |}
  = {| outcome := Continue tt;
       final := {| world := w; heap := h ++ [<[key := value]> m] |};
       events := [] |}.
Proof.
  unfold map_assign. simpl. rewrite lookup_fresh. simpl.
  by rewrite insert_fresh.
Qed.

Lemma range_assign_fresh entries (h : Heap) (m : InputStatuses) w :
  @range W R _ _ entries tt
    (λ '(key, value) _, map_assign (Some (length h)) key value)
    {| world := w; heap := h ++ [m] |}
  = {| outcome := Continue tt;
       final := {| world := w;
                   heap := h ++ [foldl (λ m kv, <[kv.1 := kv.2]> m) m entries] |};
       events := [] |}.
Proof.
  revert m. induction entries as [|[key value] entries IH]; intros m.
  - done.
  - simpl. unfold bind. rewrite map_assign_fresh. simpl. rewrite IH. done.
Qed.

Lemma foldl_insert_lookup (entries : list (string * db.BuildPreparationStatus))
    (m : InputStatuses) key :
  foldl (λ m kv, <[kv.1 := kv.2]> m) m entries !! key
  = match (list_to_map (reverse entries) : InputStatuses) !! key with
    | Some value => Some value
    | None => m !! key
    end.
Proof.
  revert m. induction entries as [|[k v] entries IH]; intros m; simpl.
  - by rewrite lookup_empty.
  - rewrite IH, reverse_cons, list_to_map_app. simpl.
    rewrite lookup_union.
    destruct ((list_to_map (reverse entries) : InputStatuses) !! key); simpl.
    + by destruct (_ !! key).
    + rewrite (left_id None _). destruct (decide (k = key)) as [->|Hne].
      * by rewrite !lookup_insert_eq.
      * by rewrite !lookup_insert_ne, lookup_empty by done.
Qed.

Lemma foldl_insert_map_to_list (m : InputStatuses) :
  foldl (λ m kv, <[kv.1 := kv.2]> m) ∅ (map_to_list m) = m.
Proof.
  apply map_eq; intros key. rewrite foldl_insert_lookup, lookup_empty.
  rewrite (list_to_map_proper (reverse (map_to_list m)) (map_to_list m)).
  - rewrite list_to_map_to_list. by destruct (m !! key).
  - rewrite fmap_reverse, reverse_Permutation. apply NoDup_fst_map_to_list.
  - apply reverse_Permutation.
Qed.
End HeapLemmas.

(** ** The preparation record and its map *)

Section PreparationLemmas.
Context {W : Type} `{!Scheduler W}.

Lemma contents_fresh (h : Heap) (m : option loc) (fresh : InputStatuses) :
  default ∅ (m ≫= (λ l, (h ++ [fresh]) !! l)) = default ∅ (m ≫= (λ l, h !! l))
  ∨ fresh ≠ ∅.
Proof.
  destruct m as [l|]; simpl; [|by left].
  destruct (decide (l < length h)%nat).
  - left. by rewrite lookup_app_l.
  - destruct (decide (fresh = ∅)) as [->|]; [left|by right].
    rewrite (lookup_ge_None_2 h l) by lia. simpl.
    destruct (decide (l = length h)) as [->|].
    + by rewrite lookup_fresh.
    + rewrite lookup_ge_None_2; [done|]. rewrite length_app. simpl. lia.
Qed.

Lemma cloneBuildPrep_run {R} (buildPrep : BuildPreparation) (s : Store W) :
  cloneBuildPrep (R := R) buildPrep s
  = {| outcome := Continue (with_Inputs buildPrep (Some (length (heap s))));
       final :=
         {| world := world s;
            heap := heap s
              ++ [default ∅ (db.Inputs buildPrep ≫= (λ l, heap s !! l))] |};
       events := [] |}.
Proof.
  unfold cloneBuildPrep, bind, make_map, map_entries, pure. simpl.
  rewrite range_assign_fresh. simpl.
  destruct (contents_fresh (heap s) (db.Inputs buildPrep) ∅) as [->|]; [|done].
  by rewrite foldl_insert_map_to_list.
Qed.

Lemma row_of_clone_assign (h : Heap) (buildPrep : BuildPreparation) key status :
  row_of
    (h ++ [<[key := status]> (default ∅ (db.Inputs buildPrep ≫= (λ l, h !! l)))])
    (with_Inputs buildPrep (Some (length h)))
  = row_assign (row_of h buildPrep) key status.
Proof. unfold row_of, row_assign, with_Inputs. simpl. by rewrite lookup_fresh. Qed.

Lemma markInputs_valid {R} inputs (buildPrep : BuildPreparation) status
    (s : Store W) l m :
  db.Inputs buildPrep = Some l →
  heap s !! l = Some m →
  markInputs (R := R) inputs buildPrep status s
  = {| outcome := Continue tt;
       final := {| world := world s;
                   heap := <[l := mark_all inputs status m]> (heap s) |};
       events := [] |}.
Proof.
  unfold markInputs. intros Hl. rewrite Hl. clear Hl. revert s m.
  induction inputs as [|input inputs IH]; intros s m Hm; simpl.
  - unfold pure. destruct s as [w h]. simpl in *.
    by rewrite list_insert_id.
  - unfold bind, map_assign. simpl. rewrite Hm. simpl.
    pose proof (lookup_lt_Some _ _ _ Hm) as Hlt.
    rewrite (IH _ (<[config.Name input := status]> m)); simpl.
    + by rewrite list_insert_insert_eq.
    + by rewrite list_lookup_insert_eq.
Qed.

Lemma markInputs_run {R} inputs (buildPrep : BuildPreparation) status
    (s : Store W) :
  events (markInputs (R := R) inputs buildPrep status s) = [] ∧
  match row_mark (row_of (heap s) buildPrep) inputs status with
  | Some row =>
    outcome (markInputs (R := R) inputs buildPrep status s) = Continue tt ∧
    row_of (heap (final (markInputs (R := R) inputs buildPrep status s)))
      buildPrep = row
  | None =>
    outcome (markInputs (R := R) inputs buildPrep status s)
    = Panicked nil_map_panic
  end.
Proof.
  destruct inputs as [|input inputs]; [done|].
  unfold row_mark. simpl db.Inputs.
  destruct (db.Inputs buildPrep) as [l|] eqn:Hl; simpl;
    [destruct (heap s !! l) as [m|] eqn:Hm; simpl|].
  - rewrite (markInputs_valid _ _ _ _ l m) by done. simpl.
    split; [done|]. split; [done|].
    unfold row_of, with_Inputs. simpl. rewrite Hl. simpl.
    rewrite list_lookup_insert_eq; [done|]. by eapply lookup_lt_Some.
  - unfold markInputs. simpl. unfold bind, map_assign. simpl.
    rewrite Hl. simpl. by rewrite Hm.
  - unfold markInputs. simpl. unfold bind, map_assign. simpl. by rewrite Hl.
Qed.
End PreparationLemmas.

(** ** A small logic of runs

    One rule per construct of the monad lets a proof walk through a function
    body once, from its first statement to its exits. *)

Section Rules.
Context {W : Type}.

Lemma follows_mono {R A} (Q P : list Event → Outcome R A → Store W → Prop) r :
  (∀ e o s, Q e o s → P e o s) → follows Q r → follows P r.
Proof. unfold follows. auto. Qed.

Lemma follows_bind {R A B} (P : list Event → Outcome R B → Store W → Prop)
    (m : M W R A) (f : A → M W R B) s :
  match outcome (m s) with
  | Continue a =>
    follows (λ e o s', P (events (m s) ++ e) o s') (f a (final (m s)))
  | Returned r => P (events (m s)) (Returned r) (final (m s))
  | Panicked msg => P (events (m s)) (Panicked msg) (final (m s))
  end →
  follows P (bind m f s).
Proof. unfold follows, bind. by destruct (outcome (m s)). Qed.

Lemma follows_assoc {R A B C}
    (P : list Event → Outcome R C → Store W → Prop)
    (m : M W R A) (g : A → M W R B) (f : B → M W R C) s :
  follows P (bind m (λ a, bind (g a) f) s) →
  follows P (bind (bind m g) f s).
Proof.
  unfold follows, bind.
  destruct (outcome (m s)); simpl; [|done..].
  destruct (outcome (g _ _)); simpl; by rewrite ?app_assoc.
Qed.

Lemma follows_call {R X B} (P : list Event → Outcome R B → Store W → Prop)
    (method : W → X * W) ev (f : X → M W R B) s :
  (∀ x w,
     follows (λ e o s', P (ev x :: e) o s')
       (f x {| world := w; heap := heap s |})) →
  follows P (bind (call method ev) f s).
Proof.
  intros H. apply follows_bind. unfold call.
  destruct (method (world s)) as [x w]. simpl. apply H.
Qed.

Lemma follows_emit {R B} (P : list Event → Outcome R B → Store W → Prop)
    ev (f : unit → M W R B) s :
  follows (λ e o s', P (ev :: e) o s') (f tt s) →
  follows P (bind (emit ev) f s).
Proof. intros H. by apply follows_bind. Qed.

Lemma follows_pure {R A B} (P : list Event → Outcome R B → Store W → Prop)
    (a : A) (f : A → M W R B) s :
  follows P (f a s) → follows P (bind (pure a) f s).
Proof. intros H. by apply follows_bind. Qed.

Lemma follows_return {R A B} (P : list Event → Outcome R B → Store W → Prop)
    (r : R) (f : A → M W R B) s :
  P [] (Returned r) s → follows P (bind (return_ r) f s).
Proof. intros H. by apply follows_bind. Qed.

Lemma follows_return_end {R A}
    (P : list Event → Outcome R A → Store W → Prop) (r : R) s :
  P [] (Returned r) s → follows P (return_ r s).
Proof. done. Qed.

Lemma follows_pure_end {R A}
    (P : list Event → Outcome R A → Store W → Prop) (a : A) s :
  P [] (Continue a) s → follows P (pure a s).
Proof. done. Qed.

Lemma follows_if_err {R B} (P : list Event → Outcome R B → Store W → Prop)
    err handle (f : unit → M W R B) s :
  match err with
  | Some e => follows P (bind (handle e) f s)
  | None => follows P (f tt s)
  end →
  follows P (bind (if_err err handle) f s).
Proof. destruct err; [done|]. apply follows_pure. Qed.

Lemma follows_when {R B} (P : list Event → Outcome R B → Store W → Prop)
    (cond : bool) body (f : unit → M W R B) s :
  (if cond then follows P (bind body f s) else follows P (f tt s)) →
  follows P (bind (when cond body) f s).
Proof. destruct cond; [done|]. apply follows_pure. Qed.

Lemma follows_defer {R B} (P : list Event → Outcome R B → Store W → Prop)
    g ev (body : M W R B) s :
  follows
    (λ e o s', P (e ++ [ev]) o {| world := g (world s'); heap := heap s' |})
    (body s) →
  follows P (defer g ev body s).
Proof. done. Qed.

Lemma follows_invoke {R R' B}
    (P : list Event → Outcome R B → Store W → Prop)
    (body : Func W R') (f : R' → M W R B) s :
  (∀ r,
     outcome (body s) = Returned r →
     follows (λ e o s', P (events (body s) ++ e) o s')
       (f r (final (body s)))) →
  (∀ msg,
     outcome (body s) = Panicked msg →
     P (events (body s)) (Panicked msg) (final (body s))) →
  follows P (bind (invoke body) f s).
Proof.
  intros Hret Hpanic. apply follows_bind. unfold invoke. simpl.
  destruct (outcome (body s)) as [[]|r|msg]; auto.
Qed.

Lemma follows_assign_fresh {R B}
    (P : list Event → Outcome R B → Store W → Prop)
    (h : Heap) m w key value (f : unit → M W R B) :
  follows P (f tt {| world := w; heap := h ++ [<[key := value]> m] |}) →
  follows P
    (bind (map_assign (Some (length h)) key value) f
       {| world := w; heap := h ++ [m] |}).
Proof. intros H. apply follows_bind. by rewrite map_assign_fresh. Qed.
End Rules.

Section SchedulerRules.
Context {W : Type} `{!Scheduler W}.

Lemma follows_update {R B} (P : list Event → Outcome R B → Store W → Prop)
    buildPrep (f : option Error → M W R B) s :
  (∀ err w,
     follows
       (λ e o s',
          P (EUpdateBuildPreparation (row_of (heap s) buildPrep) err :: e) o s')
       (f err {| world := w; heap := heap s |})) →
  follows P (bind (updateBuildPreparation buildPrep) f s).
Proof. intros H. unfold updateBuildPreparation. by apply follows_call. Qed.

Lemma follows_getBuildPreparation {R B}
    (P : list Event → Outcome R B → Store W → Prop)
    buildID (f : BuildPreparation * bool * option Error → M W R B) s :
  (∀ buildPrep found err s',
     follows
       (λ e o s'',
          P (EGetBuildPreparation buildID
               (row_of (heap s') buildPrep, found, err) :: e) o s'')
       (f (buildPrep, found, err) s')) →
  follows P (bind (getBuildPreparation buildID) f s).
Proof.
  intros H. unfold getBuildPreparation.
  apply follows_assoc, follows_call. intros [[row found] err] w.
  apply follows_bind. simpl.
  match goal with |- follows _ (f (?bp, _, _) ?s') =>
    specialize (H bp found err s') end.
  eapply follows_mono; [|exact H]. simpl. intros e o s'.
  replace (row_of _ _) with row; [done|].
  destruct row as [? ? ? ? [m|] ?]; unfold row_of; simpl; [|done].
  by rewrite lookup_fresh.
Qed.

Lemma follows_markInputs {R B}
    (P : list Event → Outcome R B → Store W → Prop)
    inputs buildPrep status (f : unit → M W R B) s :
  match row_mark (row_of (heap s) buildPrep) inputs status with
  | Some row => ∀ s', row_of (heap s') buildPrep = row → follows P (f tt s')
  | None => ∀ s', P [] (Panicked nil_map_panic) s'
  end →
  follows P (bind (markInputs inputs buildPrep status) f s).
Proof.
  intros H. apply follows_bind.
  destruct (markInputs_run (R := R) inputs buildPrep status s) as [He Hrow].
  rewrite He.
  destruct (row_mark _ _ _) as [row|].
  - destruct Hrow as [-> Hrow]. by apply H.
  - rewrite Hrow. apply H.
Qed.

(** [buildPrep = s.cloneBuildPrep(buildPrep); buildPrep.Inputs[key] = status] *)
Lemma follows_clone_assign {R B}
    (P : list Event → Outcome R B → Store W → Prop)
    buildPrep key status (f : BuildPreparation → M W R B) s :
  (∀ buildPrep' s',
     row_of (heap s') buildPrep'
     = row_assign (row_of (heap s) buildPrep) key status →
     follows P (f buildPrep' s')) →
  follows P
    (bind (cloneBuildPrep buildPrep)
       (λ buildPrep',
          bind (map_assign (db.Inputs buildPrep') key status)
            (λ _, f buildPrep')) s).
Proof.
  intros H. apply follows_bind. rewrite cloneBuildPrep_run. simpl.
  eapply follows_mono; [|apply follows_assign_fresh, H].
  - done.
  - apply row_of_clone_assign.
Qed.
End SchedulerRules.

Ltac exits :=
  repeat first
    [ apply follows_assoc
    | apply follows_emit
    | apply follows_return
    | apply follows_return_end ];
  cbv beta.

(** Walks through logging and the branches already decided. *)
Ltac run :=
  repeat first
    [ apply follows_assoc
    | apply follows_emit
    | apply follows_return
    | apply follows_return_end
    | apply follows_pure ];
  cbv beta iota.

(** Closes a goal that is no longer about a run. *)
Ltac finished tac :=
  lazymatch goal with
  | |- follows _ _ => idtac
  | |- _ => tac
  end.

(** ** The runs of the procedure follow its paths *)

Section Runs.
Context {W : Type} `{!Scheduler W}.
Variables (logger : Logger) (build : db.Build) (job : atc.JobConfig)
  (resources : atc.ResourceConfigs).

Opaque cloneBuildPrep markInputs map_assign getBuildPreparation
  updateBuildPreparation.

Lemma row_of_set_InputsSatisfied (h : Heap) (buildPrep : BuildPreparation)
    status :
  row_of h (set_InputsSatisfied buildPrep status)
  = set_InputsSatisfied (row_of h buildPrep) status.
Proof. done. Qed.

Lemma scanInput_run input (buildPrep : BuildPreparation) (s : Store W) :
  let blocking :=
    row_assign (row_of (heap s) buildPrep) (config.Name input)
      db.BuildPreparationStatusBlocking in
  let notBlocking :=
    row_assign blocking (config.Name input)
      db.BuildPreparationStatusNotBlocking in
  follows
    (λ e o s',
       (∃ buildPrep',
          o = Continue buildPrep' ∧
          row_of (heap s') buildPrep' = notBlocking ∧
          e =
            [EUpdateBuildPreparation blocking None;
             EScan (Session logger "scan") (config.Resource input) None;
             EUpdateBuildPreparation notBlocking None;
             ELog (Session logger "scan") LInfo "done" None]) ∨
       (o = Returned None ∧
        scan_path logger build (row_of (heap s) buildPrep) [input] e None))
    (scanInput logger build input buildPrep s).
Proof.
  intros blocking notBlocking. unfold scanInput.
  apply follows_clone_assign. intros buildPrep1 s1 Hrow1.
  apply follows_update. intros [err|] w1; apply follows_if_err; cbv beta;
    simpl heap; rewrite Hrow1; fold blocking.
  { exits. right. split; [done|constructor]. }
  apply follows_call. intros [err|] w2; apply follows_if_err; cbv beta.
  { exits. apply follows_call. intros err' w3. exits. apply follows_if_err.
    destruct err'; exits; (right; split; [done|]).
    - apply (scan_failed _ _ _ _ _ _ (Some _)).
    - apply (scan_failed _ _ _ _ _ _ None). }
  apply follows_clone_assign. intros buildPrep2 s2 Hrow2.
  simpl heap in Hrow2. rewrite Hrow1 in Hrow2. fold blocking notBlocking in Hrow2.
  apply follows_update. intros [err|] w3; apply follows_if_err; cbv beta;
    simpl heap; rewrite Hrow2.
  { exits. right. split; [done|constructor]. }
  exits. apply follows_pure_end. left. by exists buildPrep2.
Qed.

Opaque scanInput.

Lemma scan_run inputs (buildPrep : BuildPreparation) (s : Store W) :
  follows
    (λ e o s',
       ∃ last,
         scan_path logger build (row_of (heap s) buildPrep) inputs e last ∧
         match last with
         | Some row =>
           ∃ buildPrep', o = Continue buildPrep' ∧
                         row_of (heap s') buildPrep' = row
         | None => o = Returned None
         end)
    (range inputs buildPrep (scanInput logger build) s).
Proof.
  revert buildPrep s.
  induction inputs as [|input inputs IH]; intros buildPrep s.
  - exists (Some (row_of (heap s) buildPrep)). split; [constructor|].
    by exists buildPrep.
  - simpl range. apply follows_bind.
    destruct (scanInput_run input buildPrep s)
      as [(buildPrep1 & -> & Hrow & ->)|[-> Hpath]].
    + eapply follows_mono; [|apply IH]. cbv beta.
      intros e o s' (last & Hpath & Hlast). exists last. split; [|done].
      rewrite Hrow in Hpath. by constructor.
    + exists None. split; [|done].
      inversion Hpath; subst;
        first [ by constructor
              | match goal with
                | H : scan_path _ _ _ [] _ None |- _ => inversion H
                end ].
Qed.

Opaque range.

Lemma follows_scan {B}
    (P : list Event → Outcome (option engine.Build) B → Store W → Prop)
    inputs buildPrep (f : BuildPreparation → M W _ B) s :
  (∀ evs last,
     scan_path logger build (row_of (heap s) buildPrep) inputs evs last →
     match last with
     | Some row =>
       ∀ buildPrep' s',
         row_of (heap s') buildPrep' = row →
         follows (λ e o s'', P (evs ++ e) o s'') (f buildPrep' s')
     | None => ∀ s', P evs (Returned None) s'
     end) →
  follows P (bind (range inputs buildPrep (scanInput logger build)) f s).
Proof.
  intros H. apply follows_bind.
  destruct (scan_run inputs buildPrep s) as (last & Hpath & Hlast).
  specialize (H _ _ Hpath). destruct last as [row|].
  - destruct Hlast as (buildPrep' & -> & Hrow). by apply H.
  - rewrite Hlast. apply H.
Qed.

Ltac commit_phase Hrow :=
  apply follows_call; intros [[inputs found] [err|]] ?; run;
    finished ltac:(constructor);
  apply follows_when; destruct found; cbn [negb]; cbv iota; run;
    finished ltac:(constructor);
  apply follows_update; intros [err|] ?; simpl heap;
    rewrite !row_of_set_InputsSatisfied, Hrow; run;
    finished ltac:(apply resolved; constructor);
  apply follows_call; intros [err|] ?; run;
    finished ltac:(apply resolved; constructor);
  apply follows_call; intros [plan [err|]] ?; run;
    [ apply follows_call; intros [err'|] ?; run;
      apply resolved, used;
      [ apply (create_failed _ _ _ _ _ _ _ (Some _))
      | apply (create_failed _ _ _ _ _ _ _ None) ]
    |];
  apply follows_call; intros [[createdBuild|] [err|]] ?; run;
    apply resolved, used; constructor.

Lemma attempt_run versions (s : Store W) :
  follows (λ e o _, attempt_path logger build job resources versions e o)
    (scheduleAndResumePendingBuild logger versions build job resources s).
Proof.
  unfold scheduleAndResumePendingBuild, WithData.
  apply follows_call. intros [[lease acquired] [err|]] w1; run;
    finished ltac:(constructor).
  apply follows_when. destruct acquired; cbn [negb]; cbv iota; run;
    finished ltac:(constructor).
  apply follows_defer.
  eapply follows_mono; [intros e o s' H; apply lease_acquired, H|].
  apply follows_call. intros [scheduled [err|]] w2; run;
    finished ltac:(constructor).
  apply follows_when. destruct scheduled; cbn [negb]; cbv iota; run;
    finished ltac:(constructor).
  apply follows_getBuildPreparation. intros buildPrep found [err|] s1; run;
    finished ltac:(constructor).
  apply follows_when. destruct found; cbn [negb]; cbv iota; run;
    finished ltac:(constructor).
  destruct versions as [v|]; run.
  - apply follows_markInputs.
    destruct (row_mark _ _ _) as [marked|] eqn:Hmark.
    2:{ intros s'. by apply discovery_panicked, cached_nil_map. }
    intros s2 Hrow2. run.
    apply follows_update; intros [err|] w3; simpl heap;
      rewrite row_of_set_InputsSatisfied, Hrow2; run.
    { by apply discovery_returned, cached_not_saved. }
    eapply follows_mono.
    { intros e o s' H.
      apply (discovered _ _ _ _ _ _
               [EUpdateBuildPreparation _ None] _ _ _ _
               (cached_saved _ _ _ _ _ _ Hmark) H). }
    commit_phase Hrow2.
  - apply follows_markInputs.
    destruct (row_mark _ _ _) as [marked|] eqn:Hmark.
    2:{ intros s'. by apply discovery_panicked, fresh_nil_map. }
    intros s2 Hrow2. run.
    apply follows_update; intros [err|] w3; simpl heap;
      rewrite row_of_set_InputsSatisfied, Hrow2; run.
    { by apply discovery_returned, fresh_not_saved. }
    apply follows_scan. simpl heap.
    rewrite row_of_set_InputsSatisfied, Hrow2.
    intros evs [last|] Hscan.
    2:{ intros s'. by eapply discovery_returned, fresh_scan_stopped. }
    intros buildPrep3 s3 Hrow3. run.
    apply follows_call. intros [versions [err|]] w4; run.
    { by eapply discovery_returned, fresh_not_loaded. }
    apply (follows_mono
             (λ e o _, commit_path logger build job resources versions last e o)).
    { intros e o s' H.
      pose proof (discovered _ _ _ _ _ _ _ _ _ _ _
                    (fresh_loaded _ _ _ _ _ _ _ versions Hmark Hscan) H)
        as Hpath.
      simpl in Hpath. rewrite <- app_assoc in Hpath. exact Hpath. }
    commit_phase Hrow3.
Qed.
End Runs.

(** ** Calls along the paths *)

Lemma calls_app ms trace1 trace2 :
  calls ms (trace1 ++ trace2) = calls ms trace1 ++ calls ms trace2.
Proof.
  induction trace1 as [|e trace1 IH]; [done|]. simpl.
  rewrite IH. by destruct (bool_decide _).
Qed.

Lemma elem_of_calls ms e trace :
  e ∈ calls ms trace ↔ e ∈ trace ∧ method e ∈ ms.
Proof.
  induction trace as [|e' trace IH]; simpl.
  - rewrite elem_of_nil. tauto.
  - destruct (bool_decide_reflect (method e' ∈ ms)) as [Hin|Hnot];
      rewrite ?elem_of_cons, IH.
    + split; [intros [->|[??]]; auto|intros [[->|?] ?]; auto].
    + split; [tauto|]. intros [[->|] ?]; [done|tauto].
Qed.

Lemma elem_of_calls_1 e trace : e ∈ trace → e ∈ calls [method e] trace.
Proof. intros. apply elem_of_calls. split; [done|]. apply list_elem_of_here. Qed.

Lemma apart_spec ms ms' m : apart ms ms' = true → m ∈ ms → m ∉ ms'.
Proof.
  unfold apart. rewrite forallb_forall. intros Hall Hm.
  apply list_elem_of_In, Hall in Hm.
  apply negb_true_iff, bool_decide_eq_false in Hm. done.
Qed.

Lemma calls_absent (ms' ms : list Method) trace :
  Forall (λ e, method e ∈ ms') trace → apart ms ms' = true →
  calls ms trace = [].
Proof.
  intros Hall Hm. induction Hall as [|e trace He _ IH]; [done|].
  simpl. rewrite IH.
  destruct (bool_decide_reflect (method e ∈ ms)) as [Hin|]; [|done].
  by destruct (apart_spec _ _ _ Hm Hin).
Qed.

Lemma calls_Forall (P : Event → Prop) ms trace :
  Forall P trace → Forall P (calls ms trace).
Proof.
  induction 1 as [|e trace He _ IH]; simpl; [done|].
  destruct (bool_decide _); [by constructor|done].
Qed.

Ltac methods :=
  repeat first
    [ apply Forall_nil_2
    | apply Forall_cons_2; [by repeat constructor|]
    | apply Forall_app_2 ].

Section PathCalls.
Variables (logger : Logger) (build : db.Build) (job : atc.JobConfig)
  (resources : atc.ResourceConfigs).

Lemma scan_path_methods row inputs evs last :
  scan_path logger build row inputs evs last →
  Forall (λ e, method e ∈ scan_methods) evs.
Proof.
  induction 1; methods; try done.
  match goal with |- Forall _ (error_log _ _ ?ret) => destruct ret end;
    methods.
Qed.

Lemma scan_path_scanned_methods row inputs evs last :
  scan_path logger build row inputs evs last →
  is_Some last →
  Forall (λ e, method e ∈ scanned_methods) evs.
Proof.
  induction 1; intros [? Hlast]; try discriminate; methods; eauto.
Qed.
End PathCalls.

(** Case analysis on the path of a run, down to the scanning loop. *)
Ltac invert_paths :=
  repeat match goal with
  | H : attempt_path _ _ _ _ _ _ _ |- _ => inversion H; subst; clear H
  | H : leased_path _ _ _ _ _ _ _ |- _ => inversion H; subst; clear H
  | H : discover_path _ _ _ _ _ _ _ |- _ => inversion H; subst; clear H
  | H : commit_path _ _ _ _ _ _ _ _ |- _ => inversion H; subst; clear H
  | H : use_path _ _ _ _ _ _ _ _ |- _ => inversion H; subst; clear H
  | H : plan_path _ _ _ _ _ _ _ |- _ => inversion H; subst; clear H
  end.

Ltac not_called := reflexivity.

(** Case analysis on the position of an event in the trace of a path. *)
Ltac position H :=
  repeat first
    [ apply elem_of_nil in H; destruct H
    | apply elem_of_cons in H as [H|H]; [try discriminate H|]
    | apply elem_of_app in H as [H|H] ].

(** Computes the calls of a method in the trace of a path. *)
Ltac count_calls :=
  repeat match goal with
  | |- context [error_log _ _ ?ret] =>
    is_var ret; destruct ret; simpl error_log
  | H : context [error_log _ _ ?ret] |- _ =>
    is_var ret; destruct ret; simpl error_log in H
  end;
  rewrite <- ?app_assoc in *; simpl in *;
  rewrite ?calls_app in *;
  repeat match goal with
  | H : scan_path _ _ _ _ ?evs (Some _) |- context [calls ?m ?evs] =>
    rewrite (calls_absent scanned_methods m evs
               (scan_path_scanned_methods _ _ _ _ _ _ H
                  (mk_is_Some _ _ eq_refl))) by not_called
  | H : scan_path _ _ _ _ ?evs (Some _), H' : context [calls ?m ?evs] |- _ =>
    rewrite (calls_absent scanned_methods m evs
               (scan_path_scanned_methods _ _ _ _ _ _ H
                  (mk_is_Some _ _ eq_refl))) in H' by not_called
  | H : scan_path _ _ _ _ ?evs _ |- context [calls ?m ?evs] =>
    rewrite (calls_absent scan_methods m evs
               (scan_path_methods _ _ _ _ _ _ H)) by not_called
  | H : scan_path _ _ _ _ ?evs _, H' : context [calls ?m ?evs] |- _ =>
    rewrite (calls_absent scan_methods m evs
               (scan_path_methods _ _ _ _ _ _ H)) in H' by not_called
  end;
  rewrite ?app_nil_r, <- ?app_assoc in *; simpl in *.

Lemma Forall_methods (ms ms' : list Method) trace :
  Forall (λ e, method e ∈ ms) trace →
  forallb (λ m, bool_decide (m ∈ ms')) ms = true →
  Forall (λ e, method e ∈ ms') trace.
Proof.
  intros Hall Hsub. eapply Forall_impl; [exact Hall|]. simpl. intros e He.
  rewrite forallb_forall in Hsub.
  apply list_elem_of_In, Hsub, bool_decide_eq_true in He. done.
Qed.

Section PathMethods.
Variables (logger : Logger) (build : db.Build) (job : atc.JobConfig)
  (resources : atc.ResourceConfigs).

Lemma leased_path_methods versions evs o :
  leased_path logger build job resources versions evs o →
  Forall (λ e, method e ∈ leased_methods) evs.
Proof.
  intros H. invert_paths;
    repeat match goal with
    | |- context [error_log _ _ ?ret] =>
      is_var ret; destruct ret; simpl error_log
    end;
    methods;
    try (eapply Forall_methods; [eapply scan_path_methods; eassumption|done]).
Qed.

Lemma attempt_path_methods versions evs o :
  attempt_path logger build job resources versions evs o →
  Forall (λ e, method e ∈ attempt_methods) evs.
Proof.
  inversion 1; subst; methods.
  eapply Forall_methods; [eapply leased_path_methods; eassumption|done].
Qed.
End PathMethods.

(** ** What the scanning loop guarantees *)

Section ScanFacts.
Variables (logger : Logger) (build : db.Build).

(** A failed scan ends the loop, after one [ErrorBuild] with its error. *)
Lemma scan_path_failure row inputs evs last lg resource err :
  scan_path logger build row inputs evs last →
  EScan lg resource (Some err) ∈ evs →
  last = None ∧
  ∃ ret, calls [BuildsDB_ErrorBuild] evs = [EErrorBuild (db.ID build) err ret].
Proof.
  induction 1 as [row|row input rest evs last blocking notBlocking Hrest IH
                 |row input rest err' blocking
                 |row input rest err' ret blocking
                 |row input rest err' blocking notBlocking];
    intros Hin.
  - by apply elem_of_nil in Hin.
  - rewrite !elem_of_cons in Hin.
    destruct Hin as [Hin|[Hin|[Hin|[Hin|Hin]]]]; try discriminate.
    by apply IH.
  - rewrite !elem_of_cons, elem_of_nil in Hin.
    destruct Hin as [Hin|[Hin|[]]]; discriminate.
  - split; [done|]. exists ret.
    rewrite !elem_of_cons in Hin.
    destruct Hin as [Hin|[Hin|[Hin|[Hin|Hin]]]]; try discriminate.
    + injection Hin as -> -> ->. by destruct ret.
    + destruct ret; simpl in Hin; [|by apply elem_of_nil in Hin].
      apply list_elem_of_singleton in Hin. discriminate.
  - rewrite !elem_of_cons, elem_of_nil in Hin.
    destruct Hin as [Hin|[Hin|[Hin|[Hin|[]]]]]; discriminate.
Qed.

(** In a loop that ran to its end every record was saved. *)
Lemma scan_path_saved row inputs evs last row' err :
  scan_path logger build row inputs evs last →
  is_Some last →
  EUpdateBuildPreparation row' (Some err) ∉ evs.
Proof.
  induction 1; intros [? Hlast] Hin; try discriminate.
  - by apply elem_of_nil in Hin.
  - rewrite !elem_of_cons in Hin.
    destruct Hin as [Hin|[Hin|[Hin|[Hin|Hin]]]]; try discriminate.
    by eapply IHscan_path.
Qed.

(** The loop never logs that the build is building. *)
Lemma scan_path_not_building row inputs evs last lg :
  scan_path logger build row inputs evs last →
  ELog lg LInfo "building" None ∉ evs.
Proof.
  induction 1; intros Hin;
    repeat match goal with
    | H : context [error_log _ _ ?ret] |- _ => destruct ret; simpl in H
    end;
    rewrite ?elem_of_cons, ?elem_of_nil in Hin;
    repeat match goal with
    | H : _ ∨ _ |- _ => destruct H as [H|H]
    end;
    try discriminate; done.
Qed.
End ScanFacts.

(** ** Statuses along the paths *)

Lemma persisted_app trace1 trace2 :
  persisted (trace1 ++ trace2) = persisted trace1 ++ persisted trace2.
Proof.
  induction trace1 as [|e trace1 IH]; [done|].
  destruct e; simpl; by rewrite ?IH.
Qed.

Lemma persisted_error_log logger message ret :
  persisted (error_log logger message ret) = [].
Proof. by destruct ret. Qed.

Lemma input_status_set_InputsSatisfied name (row : BuildPreparationRow) status :
  input_status name (set_InputsSatisfied row status) = input_status name row.
Proof. done. Qed.

Lemma input_status_assign name row status :
  input_status name (row_assign row name status) = Some status.
Proof. unfold input_status, row_assign. simpl. apply lookup_insert_eq. Qed.

Lemma input_status_assign_ne name key row status :
  key ≠ name →
  input_status name (row_assign row key status) = input_status name row.
Proof.
  intros Hne. unfold input_status, row_assign. simpl.
  rewrite lookup_insert_ne by done. by destruct (db.Inputs row).
Qed.

Lemma mark_all_lookup_ne name inputs status (m : InputStatuses) :
  name ∉ config.Name <$> inputs →
  mark_all inputs status m !! name = m !! name.
Proof.
  revert m. induction inputs as [|input inputs IH]; intros m Hnot; [done|].
  rewrite fmap_cons, not_elem_of_cons in Hnot. destruct Hnot as [Hne Hnot].
  simpl. rewrite IH by done. by rewrite lookup_insert_ne.
Qed.

Lemma mark_all_lookup name inputs status (m : InputStatuses) :
  name ∈ config.Name <$> inputs →
  mark_all inputs status m !! name = Some status.
Proof.
  revert m. induction inputs as [|input inputs IH]; intros m Hin.
  - by apply elem_of_nil in Hin.
  - simpl. destruct (decide (name ∈ config.Name <$> inputs)) as [Hrest|Hrest].
    + by apply IH.
    + rewrite fmap_cons, elem_of_cons in Hin. destruct Hin as [->|]; [|done].
      rewrite mark_all_lookup_ne by done. apply lookup_insert_eq.
  Qed.

Lemma row_mark_status name row inputs status marked :
  row_mark row inputs status = Some marked →
  name ∈ config.Name <$> inputs →
  input_status name marked = Some status.
Proof.
  destruct inputs as [|input inputs]; intros Hmark Hin.
  - by apply elem_of_nil in Hin.
  - unfold row_mark in Hmark. destruct (db.Inputs row) as [m|]; [|done].
    simpl in Hmark. injection Hmark as <-.
    unfold input_status. simpl. by apply (mark_all_lookup _ (input :: inputs)).
Qed.

Lemma ascends_const p l k :
  Forall (λ st, st = p) l → ascends p k → ascends p (l ++ k).
Proof.
  induction 1 as [|x l -> _ IH]; [done|]. intros Hk. simpl.
  split; [by left|auto].
Qed.

Lemma ascends_nil_r p l : ascends p (l ++ []) → ascends p l.
Proof. by rewrite app_nil_r. Qed.

Lemma collapse_nil : collapse (@nil (option db.BuildPreparationStatus)) = [].
Proof. done. Qed.

Lemma collapse_cons_eq (x : option db.BuildPreparationStatus) l :
  collapse (x :: x :: l) = collapse (x :: l).
Proof. simpl. by rewrite decide_True. Qed.

Lemma collapse_cons_ne (x y : option db.BuildPreparationStatus) l :
  x ≠ y → collapse (x :: y :: l) = x :: collapse (y :: l).
Proof. intros. simpl. by rewrite decide_False. Qed.

(** Statuses that go on along the chain are, once collapsed, a piece of it. *)
Lemma ascends_collapse l :
  ascends (Some db.BuildPreparationStatusUnknown) l →
  collapse (Some db.BuildPreparationStatusUnknown :: l)
    `prefix_of` preparation_chain.
Proof.
  assert (Hnb : ∀ l, ascends (Some db.BuildPreparationStatusNotBlocking) l →
    collapse (Some db.BuildPreparationStatusNotBlocking :: l)
    = [Some db.BuildPreparationStatusNotBlocking]).
  { clear l. induction l as [|x l IH]; [done|]. intros [Hstep Hl].
    destruct Hstep as [<-|[[? _]|[? _]]]; try discriminate.
    rewrite collapse_cons_eq. auto. }
  assert (Hb : ∀ l, ascends (Some db.BuildPreparationStatusBlocking) l →
    collapse (Some db.BuildPreparationStatusBlocking :: l)
      `prefix_of` [Some db.BuildPreparationStatusBlocking;
                   Some db.BuildPreparationStatusNotBlocking]).
  { clear l. induction l as [|x l IH]; [by eexists [_]|]. intros [Hstep Hl].
    destruct Hstep as [<-|[[? _]|[_ ->]]]; try discriminate.
    - rewrite collapse_cons_eq. auto.
    - rewrite collapse_cons_ne, Hnb by done. by exists []. }
  induction l as [|x l IH]; [by eexists [_; _]|]. intros [Hstep Hl].
  destruct Hstep as [<-|[[_ ->]|[? _]]]; try discriminate.
  - rewrite collapse_cons_eq. auto.
  - rewrite collapse_cons_ne by done. unfold preparation_chain.
    by apply prefix_cons, Hb.
Qed.

Section ScanStatuses.
Variables (logger : Logger) (build : db.Build) (name : string).

(** The loop leaves the status of an input it does not scan as it is. *)
Lemma scan_path_untouched row inputs evs last :
  scan_path logger build row inputs evs last →
  name ∉ config.Name <$> inputs →
  Forall (λ st, st = input_status name row)
    (input_status name <$> persisted evs) ∧
  ∀ row', last = Some row' → input_status name row' = input_status name row.
Proof.
  induction 1 as [row|row input rest evs last blocking notBlocking Hrest IH
                 |row input rest err' blocking
                 |row input rest err' ret blocking
                 |row input rest err' blocking notBlocking];
    intros Hnot;
    try (rewrite fmap_cons, not_elem_of_cons in Hnot;
         destruct Hnot as [Hne Hnot]);
    try (assert (Hb : input_status name blocking = input_status name row)
           by (by apply input_status_assign_ne));
    try (assert (Hnb : input_status name notBlocking = input_status name row)
           by (subst notBlocking; by rewrite input_status_assign_ne));
    simpl.
  - split; [done|]. by intros ? [= <-].
  - destruct (IH Hnot) as [Hall Hlast]. rewrite Hnb in Hall, Hlast.
    split; [|done]. by repeat constructor.
  - split; [|done]. by repeat constructor.
  - split; [|done]. rewrite persisted_error_log. by repeat constructor.
  - split; [|done]. by repeat constructor.
Qed.

(** The status of an input the loop has yet to scan goes along the chain,
    and is not blocking after a loop that ran to its end. *)
Lemma scan_path_ascends row inputs evs last :
  scan_path logger build row inputs evs last →
  NoDup (config.Name <$> inputs) →
  name ∈ config.Name <$> inputs →
  input_status name row = (Some db.BuildPreparationStatusUnknown) →
  match last with
  | Some row' =>
    input_status name row' = (Some db.BuildPreparationStatusNotBlocking) ∧
    ∀ k, ascends (Some db.BuildPreparationStatusNotBlocking) k →
         ascends (Some db.BuildPreparationStatusUnknown) ((input_status name <$> persisted evs) ++ k)
  | None => ascends (Some db.BuildPreparationStatusUnknown) (input_status name <$> persisted evs)
  end.
Proof.
  induction 1 as [row|row input rest evs last blocking notBlocking Hrest IH
                 |row input rest err' blocking
                 |row input rest err' ret blocking
                 |row input rest err' blocking notBlocking];
    intros Hdup Hin Hrow;
    try (rewrite fmap_cons in Hdup, Hin;
         apply NoDup_cons in Hdup as [Hfresh Hdup];
         destruct (decide (config.Name input = name)) as [Heq|Hne];
         [ assert (Hb : input_status name blocking
                        = Some db.BuildPreparationStatusBlocking)
             by (subst blocking; rewrite <- Heq; apply input_status_assign)
         | assert (Hb : input_status name blocking = Some db.BuildPreparationStatusUnknown)
             by (subst blocking; by rewrite input_status_assign_ne) ];
         try (first
           [ assert (Hnb : input_status name notBlocking
                           = Some db.BuildPreparationStatusNotBlocking)
               by (subst notBlocking; rewrite <- Heq;
                   apply input_status_assign)
           | assert (Hnb : input_status name notBlocking = Some db.BuildPreparationStatusUnknown)
               by (subst notBlocking; by rewrite input_status_assign_ne) ]));
    simpl; rewrite ?persisted_error_log, ?Hb, ?Hnb; simpl;
    try (unfold chain_step; by intuition).
  - by apply elem_of_nil in Hin.
  - rewrite Heq in Hfresh.
    destruct (scan_path_untouched _ _ _ _ Hrest Hfresh) as [Hall Hlast].
    rewrite Hnb in Hall, Hlast.
    destruct last as [row'|].
    + split; [auto|]. intros k Hk. unfold chain_step.
      split_and!; [auto..|]. by apply ascends_const.
    + unfold chain_step. split_and!; [auto..|].
      by apply ascends_nil_r, ascends_const.
  - apply elem_of_cons in Hin as [->|Hin]; [done|].
    specialize (IH Hdup Hin Hnb).
    destruct last as [row'|].
    + destruct IH as [Hlast Hk]. split; [done|]. intros k Hasc.
      unfold chain_step. split_and!; auto.
    + unfold chain_step. split_and!; auto.
Qed.

(** The calls of a loop that ran to its end. *)
Lemma scan_path_complete row inputs evs last :
  scan_path logger build row inputs evs last →
  is_Some last →
  ∃ rows,
    calls [BuildsDB_UpdateBuildPreparation; Scanner_Scan;
           PipelineDB_LoadVersionsDB; PipelineDB_GetLatestInputVersions] evs
    = scan_calls logger inputs rows ∧
    Forall2 brackets inputs rows.
Proof.
  induction 1 as [row|row input rest evs last blocking notBlocking Hrest IH
                 | | |];
    intros [? Hlast]; try discriminate.
  - by exists [].
  - destruct IH as (rows & Hcalls & Hrows); [done|].
    exists ((blocking, notBlocking) :: rows). simpl. rewrite Hcalls.
    split; [done|]. constructor; [|done].
    split; apply input_status_assign.
Qed.
End ScanStatuses.

(** ** Where the calls of a path are *)

(** The paths after input discovery, case by case. *)
Ltac invert_after_discovery :=
  repeat match goal with
  | H : attempt_path _ _ _ _ _ _ _ |- _ => inversion H; subst; clear H
  | H : leased_path _ _ _ _ _ _ _ |- _ => inversion H; subst; clear H
  | H : commit_path _ _ _ _ _ _ _ _ |- _ => inversion H; subst; clear H
  | H : use_path _ _ _ _ _ _ _ _ |- _ => inversion H; subst; clear H
  | H : plan_path _ _ _ _ _ _ _ |- _ => inversion H; subst; clear H
  end;
  repeat match goal with
  | H : context [error_log _ _ ?ret] |- _ =>
    is_var ret; destruct ret; simpl error_log in H
  | |- context [error_log _ _ ?ret] =>
    is_var ret; destruct ret; simpl error_log
  end.

Lemma discover_path_quiet logger build job row versions evs o :
  discover_path logger build job row versions evs o →
  calls [PipelineDB_UseInputsForBuild; BuildFactory_Create;
         Engine_CreateBuild] evs = [] ∧
  calls [Engine_CreateBuild] evs = [] ∧
  calls [PipelineDB_UseInputsForBuild] evs = [].
Proof. intros Hpath. invert_paths; by count_calls. Qed.

Lemma calls_calls_absent ms ms' trace :
  calls ms' trace = [] → calls ms' (calls ms trace) = [].
Proof.
  induction trace as [|e trace IH]; [done|]. simpl.
  destruct (bool_decide_reflect (method e ∈ ms')) as [?|Hnot]; [done|].
  intros Hrest. destruct (bool_decide (method e ∈ ms)); simpl; [|by apply IH].
  rewrite bool_decide_eq_false_2 by done. by apply IH.
Qed.

(** A scanning loop that left the procedure has not made the calls of a
    scan of all inputs. *)
Lemma scan_path_stopped logger build row inputs evs rows rest :
  scan_path logger build row inputs evs None →
  length rows = length inputs →
  calls [BuildsDB_UpdateBuildPreparation; Scanner_Scan] evs
  ≠ scan_calls logger inputs rows ++ rest.
Proof.
  intros Hpath. revert rows.
  remember None as last eqn:Hlast.
  induction Hpath as [row|row input inputs evs last blocking notBlocking Hrest IH
                     | | |];
    intros rows Hlen; [done|..];
    destruct rows as [|[b nb] rows]; try discriminate Hlen;
    simpl; try (destruct ret; simpl); try (intros [=]; done).
  intros [= -> -> Hcalls]. eapply IH; [done| |exact Hcalls].
  by injection Hlen.
Qed.

(** * The claims *)

Section Claims.
Context {W : Type} `{!Scheduler W}.

(** C9. [cloneBuildPrep] returns a record with the [BuildID],
    [PausedPipeline], [PausedJob], [MaxRunningBuilds] and
    [InputsSatisfied] of its argument and with the same input statuses,
    held in a map that was not in the heap before the call.  Assigning an
    entry of the clone's map afterwards changes that map only: every map
    the heap held before the call, the one of the original record among
    them, keeps its contents. *)
Theorem cloneBuildPrep_fresh_copy {R} (buildPrep : BuildPreparation)
    (s : Store W) :
  ∃ clone l,
    outcome (cloneBuildPrep (R := R) buildPrep s) = Continue clone ∧
    events (cloneBuildPrep (R := R) buildPrep s) = [] ∧
    db.BuildID clone = db.BuildID buildPrep ∧
    db.PausedPipeline clone = db.PausedPipeline buildPrep ∧
    db.PausedJob clone = db.PausedJob buildPrep ∧
    db.MaxRunningBuilds clone = db.MaxRunningBuilds buildPrep ∧
    db.InputsSatisfied clone = db.InputsSatisfied buildPrep ∧
    db.Inputs clone = Some l ∧
    heap s !! l = None ∧
    heap (final (cloneBuildPrep (R := R) buildPrep s)) !! l
      = Some (contents (heap s) buildPrep) ∧
    (∀ l' m, heap s !! l' = Some m →
             heap (final (cloneBuildPrep (R := R) buildPrep s)) !! l' = Some m) ∧
    ∀ key value,
      let mutated :=
        map_assign (R := R) (db.Inputs clone) key value
          (final (cloneBuildPrep (R := R) buildPrep s)) in
      outcome mutated = Continue tt ∧
      heap (final mutated) !! l
        = Some (<[key := value]> (contents (heap s) buildPrep)) ∧
      ∀ l' m, heap s !! l' = Some m → heap (final mutated) !! l' = Some m.
Proof.
  rewrite cloneBuildPrep_run. simpl.
  exists (with_Inputs buildPrep (Some (length (heap s)))), (length (heap s)).
  split_and!; try done.
  - by apply lookup_ge_None_2.
  - apply lookup_fresh.
  - intros l' m Hl'. by apply lookup_app_l_Some.
  - intros key value. cbv zeta. simpl db.Inputs. rewrite map_assign_fresh.
    simpl.
    split_and!; [done|apply lookup_fresh|].
    intros l' m Hl'. by apply lookup_app_l_Some.
Qed.

Variables (logger : Logger) (build : db.Build) (job : atc.JobConfig)
  (resources : atc.ResourceConfigs).

Lemma attempt_follows_path versions (s : Store W) :
  attempt_path logger build job resources versions
    (events (scheduleAndResumePendingBuild logger versions build job resources s))
    (outcome (scheduleAndResumePendingBuild logger versions build job resources s)).
Proof. apply attempt_run. Qed.

(** Replaces the run of the procedure by a path. *)
Ltac on_path versions s :=
  generalize (attempt_follows_path versions s);
  generalize
    (events (scheduleAndResumePendingBuild logger versions build job resources s));
  generalize
    (outcome (scheduleAndResumePendingBuild logger versions build job resources s));
  intros ? ? ?.

Ltac absurd_call :=
  match goal with
  | H : _ ∈ [] |- _ => by apply elem_of_nil in H
  | H : _ ∈ [_] |- _ => apply list_elem_of_singleton in H; simplify_eq
  end.

(** The calls of [UseInputsForBuild], [Factory.Create] and
    [Engine.CreateBuild] in a run that reaches the engine. *)
Lemma commit_plan_engine versions (s : Store W) lg b plan ret :
  let r := scheduleAndResumePendingBuild logger versions build job resources s in
  EEngineCreateBuild lg b plan ret ∈ events r →
  ∃ inputs before after,
    events r
    = before
      ++ [EUseInputsForBuild (db.ID build) inputs None;
          EFactoryCreate job resources inputs (plan, None);
          EEngineCreateBuild lg b plan ret]
      ++ after ∧
    calls [PipelineDB_UseInputsForBuild; BuildFactory_Create;
           Engine_CreateBuild] before = [] ∧
    calls [PipelineDB_UseInputsForBuild; BuildFactory_Create;
           Engine_CreateBuild] after = [].
Proof.
  cbv zeta. on_path versions s. intros Hin.
  apply elem_of_calls_1 in Hin. simpl method in Hin.
  invert_after_discovery;
    rewrite <- ?app_assoc in Hin; simpl in Hin;
    rewrite ?calls_app in Hin;
    try match goal with
    | H : discover_path _ _ _ _ _ _ _ |- _ =>
      destruct (discover_path_quiet _ _ _ _ _ _ _ H)
        as (Hbefore & Hengine & _);
      rewrite Hengine in Hin
    end;
    simpl in Hin; try absurd_call;
    match goal with
    | H : discover_path _ _ _ _ _ ?evs _ |- _ =>
      eexists _,
        (ELeaseBuildScheduling _ _ _ :: EScheduleBuild _ _ _
         :: EGetBuildPreparation _ _ :: evs
         ++ [EGetLatestInputVersions _ _ _ _; EUpdateBuildPreparation _ _]),
        _
    end;
    (split_and!;
     [ rewrite <- ?app_assoc; simpl; rewrite <- ?app_assoc; reflexivity
     | simpl; rewrite calls_app, Hbefore; reflexivity
     | reflexivity ]).
Qed.


(** The trace of a run in which [Factory.Create] fails. *)
Lemma plan_failure_trace versions (s : Store W) j rs ins plan err :
  let r := scheduleAndResumePendingBuild logger versions build job resources s in
  EFactoryCreate j rs ins (plan, Some err) ∈ events r →
  (∃ ret, calls [BuildsDB_FinishBuild] (events r)
          = [EFinishBuild (db.ID build) db.StatusErrored ret]) ∧
  calls [BuildsDB_ErrorBuild] (events r) = [] ∧
  calls [Engine_CreateBuild] (events r) = [] ∧
  outcome r = Returned None.
Proof.
  cbv zeta. on_path versions s. intros Hin.
  apply elem_of_calls_1 in Hin. simpl method in Hin.
  invert_paths; count_calls; try absurd_call; eauto.
Qed.

(** C2. When [Factory.Create] returns an error, [FinishBuild] is called
    with status errored on the build: the call is made once, on the world
    the calls before it have left, and the rest of the run goes on from
    the world it leaves.  Neither [ErrorBuild] nor [Engine.CreateBuild]
    is called, and the procedure returns nil. *)
Theorem plan_failure_finishes_build versions (s : Store W) j rs ins plan err :
  let r := scheduleAndResumePendingBuild logger versions build job resources s in
  EFactoryCreate j rs ins (plan, Some err) ∈ events r →
  (∃ ret before after w w',
     calls [BuildsDB_FinishBuild] (events r)
     = [EFinishBuild (db.ID build) db.StatusErrored ret] ∧
     events r
     = before ++ EFinishBuild (db.ID build) db.StatusErrored ret :: after ∧
     replays before (world s) w ∧
     FinishBuild (db.ID build) db.StatusErrored w = (ret, w') ∧
     replays after w' (world (final r))) ∧
  calls [BuildsDB_ErrorBuild] (events r) = [] ∧
  calls [Engine_CreateBuild] (events r) = [] ∧
  outcome r = Returned None.
Proof.
  cbv zeta. intros Hin.
  destruct (plan_failure_trace versions s j rs ins plan err Hin)
    as ((ret & Hfinish) & Herror & Hengine & Hout).
  split_and!; [|done..].
  destruct (replays_elem (EFinishBuild (db.ID build) db.StatusErrored ret)
              _ _ _
              (attempt_faithful logger versions build job resources s))
    as (before & after & w & w' & Hevents & Hbefore & Hcall & Hafter).
  { apply (elem_of_calls [BuildsDB_FinishBuild]). rewrite Hfinish.
    apply list_elem_of_here. }
  by exists ret, before, after, w, w'.
Qed.

(** The trace of a run in which a scan fails. *)
Lemma scan_failure_trace (s : Store W) lg resource err :
  let r := scheduleAndResumePendingBuild logger None build job resources s in
  EScan lg resource (Some err) ∈ events r →
  (∃ ret, calls [BuildsDB_ErrorBuild] (events r)
          = [EErrorBuild (db.ID build) err ret]) ∧
  calls [PipelineDB_UseInputsForBuild; BuildFactory_Create] (events r) = [] ∧
  outcome r = Returned None ∧
  ∃ lease body,
    events r
    = ELeaseBuildScheduling (db.ID build) (10 * Second) (lease, true, None)
      :: body ++ [ELeaseBreak lease] ∧
    calls [BuildsDB_LeaseBuildScheduling; Lease_Break] body = [].
Proof.
  cbv zeta. on_path (@None algorithm.VersionsDB) s. intros Hin.
  match goal with H : attempt_path _ _ _ _ _ _ _ |- _ =>
    inversion H as [| |lease body o' Hbody]; subst; clear H end.
  1, 2: apply elem_of_calls_1 in Hin; simpl in Hin; absurd_call.
  split_and!; [| | |exists lease, body; split; [done|];
                    eapply calls_absent; [by eapply leased_path_methods|done]];
  (apply elem_of_calls_1 in Hin; simpl method in Hin;
   invert_paths; count_calls; try absurd_call;
    rewrite ?app_nil_r in *;
    apply elem_of_calls in Hin as [Hin _];
    match goal with H : scan_path _ _ _ _ _ _ |- _ =>
      destruct (scan_path_failure _ _ _ _ _ _ _ _ _ H Hin) as [? [ret Hret]]
    end; try discriminate; rewrite ?Hret; eauto).
Qed.

(** C3. Without a version index, when the scanner fails on an input,
    [ErrorBuild] is called exactly once, with the id of the build and the
    error of the scanner, on the world the calls before it have left;
    [UseInputsForBuild] and [Factory.Create] are never called; the
    procedure returns nil, and the last thing it does is to release the
    lease it acquired: the world it leaves is the world after
    [LeaseBreak] of that lease. *)
Theorem scan_failure_errors_build (s : Store W) lg resource err :
  let r := scheduleAndResumePendingBuild logger None build job resources s in
  EScan lg resource (Some err) ∈ events r →
  (∃ ret before after w w',
     calls [BuildsDB_ErrorBuild] (events r)
     = [EErrorBuild (db.ID build) err ret] ∧
     events r = before ++ EErrorBuild (db.ID build) err ret :: after ∧
     replays before (world s) w ∧
     ErrorBuild (db.ID build) err w = (ret, w') ∧
     replays after w' (world (final r))) ∧
  calls [PipelineDB_UseInputsForBuild; BuildFactory_Create] (events r) = [] ∧
  outcome r = Returned None ∧
  ∃ lease body w,
    events r
    = ELeaseBuildScheduling (db.ID build) (10 * Second) (lease, true, None)
      :: body ++ [ELeaseBreak lease] ∧
    calls [BuildsDB_LeaseBuildScheduling; Lease_Break] body = [] ∧
    replays
      (ELeaseBuildScheduling (db.ID build) (10 * Second) (lease, true, None)
       :: body)
      (world s) w ∧
    world (final r) = LeaseBreak lease w.
Proof.
  cbv zeta. intros Hin.
  destruct (scan_failure_trace s lg resource err Hin)
    as ((ret & Herror) & Hnone & Hout & lease & body & Hevents & Hbody).
  pose proof (attempt_faithful logger None build job resources s)
    as Hreplays.
  split_and!; [|done..|].
  - destruct (replays_elem (EErrorBuild (db.ID build) err ret) _ _ _
                Hreplays)
      as (before & after & w & w' & Hsplit & Hbefore & Hcall & Hafter).
    { apply (elem_of_calls [BuildsDB_ErrorBuild]). rewrite Herror.
      apply list_elem_of_here. }
    by exists ret, before, after, w, w'.
  - rewrite Hevents, app_comm_cons in Hreplays.
    apply replays_last in Hreplays as (w & Hw & Hbreak).
    by exists lease, body, w.
Qed.

(** The trace of a run begins with the lease and, if the lease was
    acquired, ends with its break. *)
Lemma lease_trace versions (s : Store W) :
  let r := scheduleAndResumePendingBuild logger versions build job resources s in
  ∃ lease acquired err rest,
    events r
    = ELeaseBuildScheduling (db.ID build) (10 * Second) (lease, acquired, err)
      :: rest ∧
    10 * Second = 10000000000 ∧
    if acquired && bool_decide (err = None) then
      ∃ body,
        rest = body ++ [ELeaseBreak lease] ∧
        calls [BuildsDB_LeaseBuildScheduling; Lease_Break] body = []
    else collaborator_calls rest = [] ∧ outcome r = Returned None.
Proof.
  cbv zeta. on_path versions s.
  match goal with H : attempt_path _ _ _ _ _ _ _ |- _ =>
    inversion H as [lease acquired err| |lease body o' Hbody]; subst; clear H
  end.
  - exists lease, acquired, (Some err). eexists. split; [done|].
    split; [done|]. by rewrite andb_false_r.
  - by eexists _, false, None, [].
  - exists lease, true, None. eexists. split; [done|]. split; [done|].
    exists body. split; [done|].
    eapply calls_absent; [by eapply leased_path_methods|done].
Qed.

(** C4. The first thing the procedure does, in the world it starts in,
    is to call [LeaseBuildScheduling] for the build with a TTL of ten
    seconds.  If the call fails or the lease is not acquired, the
    procedure calls no collaborator any more, returns nil and leaves the
    world as this call left it.  If the lease is acquired, the last
    thing every run does, whatever its outcome, is to break that lease:
    the world it leaves is the world after [LeaseBreak] of the lease, and
    the lease is neither taken nor broken in between. *)
Theorem lease_first_and_released versions (s : Store W) :
  let r := scheduleAndResumePendingBuild logger versions build job resources s in
  ∃ lease acquired err rest w1,
    events r
    = ELeaseBuildScheduling (db.ID build) (10 * Second) (lease, acquired, err)
      :: rest ∧
    10 * Second = 10000000000 ∧
    LeaseBuildScheduling (db.ID build) (10 * Second) (world s)
    = (lease, acquired, err, w1) ∧
    if acquired && bool_decide (err = None) then
      ∃ body w,
        rest = body ++ [ELeaseBreak lease] ∧
        calls [BuildsDB_LeaseBuildScheduling; Lease_Break] body = [] ∧
        replays body w1 w ∧
        world (final r) = LeaseBreak lease w
    else
      collaborator_calls rest = [] ∧ outcome r = Returned None ∧
      world (final r) = w1.
Proof.
  cbv zeta.
  destruct (lease_trace versions s)
    as (lease & acquired & err & rest & Hevents & Hten & Hrest).
  pose proof (attempt_faithful logger versions build job resources s)
    as Hreplays.
  rewrite Hevents in Hreplays. destruct Hreplays as (w1 & Hlease & Hreplays).
  exists lease, acquired, err, rest, w1. split_and!; [done..|].
  destruct (acquired && bool_decide (err = None)).
  - destruct Hrest as (body & -> & Hbody).
    apply replays_last in Hreplays as (w & Hw & Hbreak).
    by exists body, w.
  - destruct Hrest as [Hquiet Hout]. split_and!; [done..|].
    by eapply replays_logs.
Qed.

(** C10. When [Engine.CreateBuild] returns a nil handle and no error, the
    procedure returns nil, launches no [Resume] and does not log
    "building".  A [Resume] is launched only for the handle that
    [Engine.CreateBuild] returned, right after that call. *)
Theorem resume_only_for_a_handle versions (s : Store W) :
  let r := scheduleAndResumePendingBuild logger versions build job resources s in
  (∀ lg b plan,
     EEngineCreateBuild lg b plan (None, None) ∈ events r →
     outcome r = Returned None ∧
     calls [Build_Resume] (events r) = [] ∧
     ∀ lg', ELog lg' LInfo "building" None ∉ events r) ∧
  (∀ createdBuild lg,
     EGoResume createdBuild lg ∈ events r →
     ∃ plan,
       calls [Engine_CreateBuild; Build_Resume] (events r)
       = [EEngineCreateBuild logger build plan (Some createdBuild, None);
          EGoResume createdBuild lg] ∧
       outcome r = Returned (Some createdBuild)).
Proof.
  cbv zeta. on_path versions s. split.
  - intros lg b plan Hin.
    apply elem_of_calls_1 in Hin. simpl method in Hin.
    invert_paths; count_calls; try absurd_call;
      (split_and!; [done..|]); intros lg' Hlog; position Hlog;
      by eapply scan_path_not_building.
  - intros createdBuild lg Hin.
    apply elem_of_calls_1 in Hin. simpl method in Hin.
    invert_paths; count_calls; try absurd_call; eauto.
Qed.

(** The record saved right before inputs are committed. *)
Lemma commit_after_save versions (s : Store W) buildID inputs ret :
  let r := scheduleAndResumePendingBuild logger versions build job resources s in
  EUseInputsForBuild buildID inputs ret ∈ events r →
  ∃ row pre post,
    events r
    = pre
      ++ [EUpdateBuildPreparation row None;
          EUseInputsForBuild buildID inputs ret]
      ++ post ∧
    db.InputsSatisfied row = db.BuildPreparationStatusNotBlocking ∧
    calls [PipelineDB_UseInputsForBuild] pre = [] ∧
    calls [BuildsDB_UpdateBuildPreparation; PipelineDB_UseInputsForBuild]
      post = [].
Proof.
  cbv zeta. on_path versions s. intros Hin.
  apply elem_of_calls_1 in Hin. simpl method in Hin.
  invert_after_discovery;
    rewrite <- ?app_assoc in Hin; simpl in Hin;
    rewrite ?calls_app in Hin;
    try match goal with
    | H : discover_path _ _ _ _ _ _ _ |- _ =>
      destruct (discover_path_quiet _ _ _ _ _ _ _ H) as (_ & _ & Huse);
      rewrite Huse in Hin
    end;
    simpl in Hin; try absurd_call;
    match goal with
    | H : discover_path _ _ _ _ _ ?evs _ |- _ =>
      eexists _,
        (ELeaseBuildScheduling _ _ _ :: EScheduleBuild _ _ _
         :: EGetBuildPreparation _ _ :: evs
         ++ [EGetLatestInputVersions _ _ _ _]),
        _
    end;
    (split_and!;
     [ rewrite <- ?app_assoc; simpl; rewrite <- ?app_assoc; reflexivity
     | reflexivity
     | simpl; rewrite calls_app, Huse; reflexivity
     | reflexivity ]).
Qed.

(** The trace of a run in which a record cannot be saved. *)
Lemma save_failure_trace versions (s : Store W) row err :
  let r := scheduleAndResumePendingBuild logger versions build job resources s in
  EUpdateBuildPreparation row (Some err) ∈ events r →
  calls [PipelineDB_UseInputsForBuild] (events r) = [].
Proof.
  cbv zeta. on_path versions s. intros Hin.
  apply elem_of_calls_1 in Hin. simpl method in Hin.
  invert_paths; count_calls; try done; position Hin; try done;
    apply elem_of_calls in Hin as [Hin _];
    by eapply scan_path_saved in Hin.
Qed.

(** C8. When the procedure commits inputs, it has saved a record with
    [inputs_satisfied] not blocking right before: [UpdateBuildPreparation]
    is called with this record on the world the calls before have left
    and succeeds, [UseInputsForBuild] is called on the world this call
    leaves, and no inputs were committed before.  When an
    [UpdateBuildPreparation] fails, this one or an earlier one,
    [UseInputsForBuild] is not called. *)
Theorem preparation_saved_before_commit versions (s : Store W) :
  let r := scheduleAndResumePendingBuild logger versions build job resources s in
  (∀ buildID inputs ret,
     EUseInputsForBuild buildID inputs ret ∈ events r →
     ∃ before row,
       calls [BuildsDB_UpdateBuildPreparation; PipelineDB_UseInputsForBuild]
         (events r)
       = before ++ [EUpdateBuildPreparation row None;
                    EUseInputsForBuild buildID inputs ret] ∧
       db.InputsSatisfied row = db.BuildPreparationStatusNotBlocking ∧
       calls [PipelineDB_UseInputsForBuild] before = [] ∧
       ∃ pre post w1 w2 w3,
         events r
         = pre
           ++ [EUpdateBuildPreparation row None;
               EUseInputsForBuild buildID inputs ret]
           ++ post ∧
         replays pre (world s) w1 ∧
         UpdateBuildPreparation row w1 = (None, w2) ∧
         UseInputsForBuild buildID inputs w2 = (ret, w3) ∧
         replays post w3 (world (final r))) ∧
  (∀ row err,
     EUpdateBuildPreparation row (Some err) ∈ events r →
     calls [PipelineDB_UseInputsForBuild] (events r) = []).
Proof.
  cbv zeta. split; [|by apply save_failure_trace].
  intros buildID inputs ret Hin.
  destruct (commit_after_save versions s buildID inputs ret Hin)
    as (row & pre & post & Hevents & Hrow & Hpre & Hpost).
  exists (calls [BuildsDB_UpdateBuildPreparation;
                 PipelineDB_UseInputsForBuild] pre), row.
  split_and!; [|done|by apply calls_calls_absent|].
  - rewrite Hevents, !calls_app, Hpost, app_nil_r. reflexivity.
  - pose proof (attempt_faithful logger versions build job resources s)
      as Hreplays.
    rewrite Hevents in Hreplays.
    apply replays_app_inv in Hreplays as (w1 & Hw1 & Hreplays).
    apply replays_app_inv in Hreplays as (w3 & Hcalls & Hw3).
    destruct Hcalls as (w2 & Hsave & w3' & Huse & ->).
    by exists pre, post, w1, w2, w3'.
Qed.

(** C5. When [CreateJobBuildForCandidateInputs] reports that it created
    no build, [BuildLatestInputs] returns what that call returned as its
    error (nil when the call succeeded) without running the scheduling
    procedure: no lease is taken, and neither the scanner, the plan factory
    nor the engine is called. *)
Theorem candidate_build_not_created versions (s : Store W) name b err :
  let r := BuildLatestInputs logger versions job resources s in
  ECreateJobBuildForCandidateInputs name (b, false, err) ∈ events r →
  outcome r = Returned err ∧ calls scheduling_methods (events r) = [].
Proof.
  cbv zeta.
  change
    (follows
       (λ e o _,
          ECreateJobBuildForCandidateInputs name (b, false, err) ∈ e →
          o = Returned err ∧ calls scheduling_methods e = [])
       (BuildLatestInputs logger versions job resources s)).
  unfold BuildLatestInputs.
  apply follows_when. destruct (_ =? _)%nat; run;
    finished ltac:(intros Hin; position Hin).
  apply follows_call. intros [[latestInputs found] [err'|]] w1; run;
    finished ltac:(intros Hin; position Hin).
  apply follows_when. destruct found; cbn [negb]; cbv iota; run;
    finished ltac:(intros Hin; position Hin).
  apply follows_when. destruct (_ =? _)%nat; run;
    finished ltac:(intros Hin; position Hin).
  apply follows_call. intros [[existingBuild found] [err'|]] w2; run;
    finished ltac:(intros Hin; position Hin).
  apply follows_when. destruct found; run;
    finished ltac:(intros Hin; position Hin).
  apply follows_call. intros [[build' created] [err'|]] w3; run;
    finished ltac:(intros Hin; position Hin; by simplify_eq).
  apply follows_when. destruct created; cbn [negb]; cbv iota; run;
    finished ltac:(intros Hin; position Hin; by simplify_eq).
  apply follows_invoke.
  - intros r _. run. intros Hin. position Hin.
    match type of Hin with
    | _ ∈ events (scheduleAndResumePendingBuild ?lg ?v ?b' ?j ?rs ?st) =>
      pose proof (attempt_path_methods _ _ _ _ _ _ _
                    (attempt_run lg b' j rs v st)) as Hmethods
    end.
    rewrite Forall_forall in Hmethods. apply Hmethods in Hin.
    simpl in Hin. position Hin.
  - intros msg _ Hin. position Hin.
    match type of Hin with
    | _ ∈ events (scheduleAndResumePendingBuild ?lg ?v ?b' ?j ?rs ?st) =>
      pose proof (attempt_path_methods _ _ _ _ _ _ _
                    (attempt_run lg b' j rs v st)) as Hmethods
    end.
    rewrite Forall_forall in Hmethods. apply Hmethods in Hin.
    simpl in Hin. position Hin.
Qed.

(** The trace of a run that loads the version index. *)
Lemma load_trace (s : Store W) ret :
  let r := scheduleAndResumePendingBuild logger None build job resources s in
  ELoadVersionsDB ret ∈ events r →
  ∃ row rows rest,
    calls [BuildsDB_UpdateBuildPreparation; Scanner_Scan;
           PipelineDB_LoadVersionsDB; PipelineDB_GetLatestInputVersions]
      (events r)
    = EUpdateBuildPreparation row None
      :: scan_calls logger (JobInputs job) rows
      ++ ELoadVersionsDB ret :: rest ∧
    Forall2 brackets (JobInputs job) rows ∧
    calls [Scanner_Scan; PipelineDB_LoadVersionsDB] rest = [] ∧
    (rest = [] ∨
     ∃ found rest',
       rest = EGetLatestInputVersions ret.1 (atc.Name job) (JobInputs job)
                found :: rest' ∧
       ret.2 = None ∧
       calls [PipelineDB_GetLatestInputVersions] rest' = []).
Proof.
  cbv zeta. on_path (@None algorithm.VersionsDB) s. intros Hin.
  apply elem_of_calls_1 in Hin. simpl method in Hin.
  invert_paths; count_calls; try absurd_call;
    match goal with H : scan_path _ _ _ _ _ (Some _) |- _ =>
      destruct (scan_path_complete _ _ _ _ _ _ H (mk_is_Some _ _ eq_refl))
        as (rows & -> & Hrows)
    end;
    eexists _, rows, _; (split_and!; [reflexivity|done|done|]);
    first [by left | right; eexists _, _; by split_and!].
Qed.

(** After the scan of all inputs the version index is loaded. *)
Lemma scanned_then_loaded (s : Store W) row rows rest :
  let r := scheduleAndResumePendingBuild logger None build job resources s in
  length rows = length (JobInputs job) →
  calls [BuildsDB_UpdateBuildPreparation; Scanner_Scan] (events r)
  = EUpdateBuildPreparation row None
    :: scan_calls logger (JobInputs job) rows ++ rest →
  ∃ ret, calls [PipelineDB_LoadVersionsDB] (events r) = [ELoadVersionsDB ret].
Proof.
  cbv zeta. on_path (@None algorithm.VersionsDB) s. intros Hlen Hcalls.
  invert_paths;
    repeat match goal with
    | H : context [error_log _ _ ?ret] |- _ =>
      is_var ret; destruct ret; simpl error_log in H
    | |- context [error_log _ _ ?ret] =>
      is_var ret; destruct ret; simpl error_log
    end;
    rewrite <- ?app_assoc in *; simpl in Hcalls;
    rewrite ?calls_app in Hcalls; simpl in Hcalls;
    try discriminate Hcalls;
    try (injection Hcalls as _ Hcalls;
         rewrite ?app_nil_r in Hcalls;
         by eapply scan_path_stopped in Hcalls);
    count_calls; eauto.
Qed.

(** C7. Without a version index the inputs are scanned one at a time, in
    the order of their declaration, each scan between a saved record that
    shows the input blocking and a saved record that shows it not
    blocking, and then the version index is loaded.  A run that calls
    [LoadVersionsDB] has made these calls before; it calls
    [LoadVersionsDB] once, scans nothing afterwards, and if it goes on,
    its next call to the store is the resolver, with the version index
    just loaded.  A run that saves the first record and, for every
    declared input, the record before the scan, scans it successfully and
    saves the record after the scan, does call [LoadVersionsDB], once.
    The calls are made in the world: the scans, the saving of the records
    and the load lead, in the order of the trace, from the world the run
    starts in to the world it leaves. *)
Theorem scans_in_order_then_load (s : Store W) :
  let r := scheduleAndResumePendingBuild logger None build job resources s in
  (∀ ret,
     ELoadVersionsDB ret ∈ events r →
     ∃ row rows rest,
       calls [BuildsDB_UpdateBuildPreparation; Scanner_Scan;
              PipelineDB_LoadVersionsDB; PipelineDB_GetLatestInputVersions]
         (events r)
       = EUpdateBuildPreparation row None
         :: scan_calls logger (JobInputs job) rows
         ++ ELoadVersionsDB ret :: rest ∧
       Forall2 brackets (JobInputs job) rows ∧
       calls [Scanner_Scan; PipelineDB_LoadVersionsDB] rest = [] ∧
       (rest = [] ∨
        ∃ found rest',
          rest = EGetLatestInputVersions ret.1 (atc.Name job) (JobInputs job)
                   found :: rest' ∧
          ret.2 = None ∧
          calls [PipelineDB_GetLatestInputVersions] rest' = [])) ∧
  (∀ row rows rest,
     length rows = length (JobInputs job) →
     calls [BuildsDB_UpdateBuildPreparation; Scanner_Scan] (events r)
     = EUpdateBuildPreparation row None
       :: scan_calls logger (JobInputs job) rows ++ rest →
     ∃ ret,
       calls [PipelineDB_LoadVersionsDB] (events r) = [ELoadVersionsDB ret]) ∧
  replays (events r) (world s) (world (final r)).
Proof.
  cbv zeta. split_and!.
  - intros ret. apply load_trace.
  - intros row rows rest. apply scanned_then_loaded.
  - apply attempt_faithful.
Qed.

Opaque collapse.

(** C6, as the code has it.  When the declared inputs have distinct
    names, the statuses persisted for a declared input never move
    backwards.  Without a version index they are, repetitions collapsed, a
    prefix of the chain unknown, blocking, not blocking.  With a version
    index every persisted status of the input is not blocking. *)
Theorem statuses_follow_chain versions (s : Store W) name :
  let r := scheduleAndResumePendingBuild logger versions build job resources s in
  NoDup (config.Name <$> JobInputs job) →
  name ∈ config.Name <$> JobInputs job →
  match versions with
  | None =>
    collapse (statuses name (events r)) `prefix_of` preparation_chain
  | Some _ =>
    Forall (λ st, st = Some db.BuildPreparationStatusNotBlocking)
      (statuses name (events r))
  end.
Proof.
  cbv zeta. on_path versions s. intros Hdup Hname.
  destruct versions as [v|]; invert_paths; unfold statuses;
    rewrite <- ?app_assoc; simpl;
    rewrite ?persisted_app, ?persisted_error_log; simpl;
    rewrite ?persisted_error_log, ?fmap_app; simpl;
    rewrite ?input_status_set_InputsSatisfied;
    try match goal with
    | H : row_mark _ _ _ = Some ?marked |- _ =>
      pose proof (row_mark_status name _ _ _ marked H Hname) as Hmarked;
      rewrite !Hmarked
    end;
    try (by repeat (apply Forall_cons_2; [done|]); apply Forall_nil_2);
    try (by rewrite collapse_nil; apply prefix_nil);
    apply ascends_collapse; try done;
    match goal with
    | H : scan_path _ _ _ _ _ _ |- _ =>
      apply (scan_path_ascends _ _ name) in H; [|done..]
    end;
    rewrite ?app_nil_r, <- ?app_assoc; simpl; try done;
    match goal with
    | H : _ ∧ _ |- _ => destruct H as [Hlast Hk]
    end;
    rewrite ?Hlast; first [apply Hk|apply ascends_nil_r, Hk]; simpl;
    unfold chain_step; auto.
Qed.
End Claims.

(** * The claims at work on scripted collaborators *)

(** Finds an event in a trace that computes. *)
Ltac member :=
  apply list_elem_of_In; vm_compute;
  repeat first [left; reflexivity | right].

Section Scenarios.
Import fakes.

Example happy_cached_trace :
  calls [BuildsDB_LeaseBuildScheduling; PipelineDB_UseInputsForBuild;
         BuildFactory_Create; Engine_CreateBuild; Build_Resume; Lease_Break]
    (events (attempt (happy ["a"; "b"]) (Some 3%nat) ["a"; "b"]))
  = [ELeaseBuildScheduling 128 10000000000 (1%nat, true, None);
     EUseInputsForBuild 128 [version "a"; version "b"] None;
     EFactoryCreate (job ["a"; "b"]) [] [version "a"; version "b"]
       (42%nat, None);
     EEngineCreateBuild ["atc"] build 42%nat (Some 5%nat, None);
     EGoResume 5%nat ["atc"];
     ELeaseBreak 1%nat].
Proof. vm_compute. reflexivity. Qed.


Lemma plan_failure_finishes_build_witness :
  EFactoryCreate (job ["a"]) [] [version "a"] (42%nat, Some "no plan")
  ∈ events (attempt (plan_fails ["a"]) (Some 3%nat) ["a"]) ∧
  (∃ ret,
     calls [BuildsDB_FinishBuild]
       (events (attempt (plan_fails ["a"]) (Some 3%nat) ["a"]))
     = [EFinishBuild (db.ID build) db.StatusErrored ret]) ∧
  calls [BuildsDB_ErrorBuild]
    (events (attempt (plan_fails ["a"]) (Some 3%nat) ["a"])) = [] ∧
  calls [Engine_CreateBuild]
    (events (attempt (plan_fails ["a"]) (Some 3%nat) ["a"])) = [] ∧
  outcome (attempt (plan_fails ["a"]) (Some 3%nat) ["a"]) = Returned None.
Proof.
  assert (EFactoryCreate (job ["a"]) [] [version "a"] (42%nat, Some "no plan")
          ∈ events (attempt (plan_fails ["a"]) (Some 3%nat) ["a"]))
    as Hin by member.
  split; [exact Hin|].
  destruct (plan_failure_finishes_build
              (Scheduler0 := scheduler (plan_fails ["a"]))
              _ _ _ _ _ _ _ _ _ _ _ Hin)
    as ((ret & _ & _ & _ & _ & Hfinish & _) & Herror & Hengine & Hout).
  split; [exists ret; exact Hfinish|].
  exact (conj Herror (conj Hengine Hout)).
Defined.

Lemma scan_failure_errors_build_witness :
  EScan ["atc"; "scan"] "b-resource" (Some "scan failed")
  ∈ events (attempt (scan_fails ["a"; "b"] "b") None ["a"; "b"]) ∧
  calls [BuildsDB_ErrorBuild; PipelineDB_UseInputsForBuild;
         BuildFactory_Create]
    (events (attempt (scan_fails ["a"; "b"] "b") None ["a"; "b"]))
  = [EErrorBuild 128 "scan failed" None] ∧
  outcome (attempt (scan_fails ["a"; "b"] "b") None ["a"; "b"])
  = Returned None.
Proof.
  assert (EScan ["atc"; "scan"] "b-resource" (Some "scan failed")
          ∈ events (attempt (scan_fails ["a"; "b"] "b") None ["a"; "b"]))
    as Hin by member.
  split; [exact Hin|].
  destruct (scan_failure_errors_build
              (Scheduler0 := scheduler (scan_fails ["a"; "b"] "b"))
              _ _ _ _ _ _ _ _ Hin) as (_ & _ & Hout & _).
  split; [vm_compute; reflexivity|exact Hout].
Defined.

Lemma candidate_build_not_created_witness :
  ECreateJobBuildForCandidateInputs "some-job" (build, false, None)
  ∈ events
      (latest (not_created ["a"]) (Some 3%nat) ["a"]) ∧
  outcome
    (latest (not_created ["a"]) (Some 3%nat) ["a"])
  = Returned None ∧
  calls scheduling_methods
    (events
       (latest (not_created ["a"]) (Some 3%nat) ["a"]))
  = [].
Proof.
  assert (ECreateJobBuildForCandidateInputs "some-job" (build, false, None)
          ∈ events
              (latest (not_created ["a"]) (Some 3%nat) ["a"]))
    as Hin by member.
  split; [exact Hin|].
  exact (candidate_build_not_created
           (Scheduler0 := scheduler (not_created ["a"]))
           _ _ _ _ _ _ _ _ Hin).
Defined.

Lemma distinct_names : NoDup (config.Name <$> JobInputs (job ["a"; "b"])).
Proof. apply (bool_decide_unpack _). vm_compute. exact I. Defined.

Lemma declared_a : "a" ∈ config.Name <$> JobInputs (job ["a"; "b"]).
Proof. apply (bool_decide_unpack _). vm_compute. exact I. Defined.

Lemma statuses_follow_chain_witness :
  NoDup (config.Name <$> JobInputs (job ["a"; "b"])) ∧
  "a" ∈ config.Name <$> JobInputs (job ["a"; "b"]) ∧
  collapse (statuses "a" (events (attempt (happy ["a"; "b"]) None ["a"; "b"])))
    `prefix_of` preparation_chain.
Proof.
  split; [exact distinct_names|]. split; [exact declared_a|].
  exact (statuses_follow_chain
           (Scheduler0 := scheduler (happy ["a"; "b"]))
           _ _ _ _ None _ _ distinct_names declared_a).
Defined.

Lemma scans_in_order_then_load_witness :
  ELoadVersionsDB (Some 7%nat, None)
  ∈ events (attempt (happy ["a"; "b"]) None ["a"; "b"]) ∧
  (∃ row rows rest,
     calls [BuildsDB_UpdateBuildPreparation; Scanner_Scan;
            PipelineDB_LoadVersionsDB; PipelineDB_GetLatestInputVersions]
       (events (attempt (happy ["a"; "b"]) None ["a"; "b"]))
     = EUpdateBuildPreparation row None
       :: scan_calls ["atc"] (JobInputs (job ["a"; "b"])) rows
       ++ ELoadVersionsDB (Some 7%nat, None) :: rest ∧
     Forall2 brackets (JobInputs (job ["a"; "b"])) rows ∧
     calls [Scanner_Scan; PipelineDB_LoadVersionsDB] rest = []) ∧
  (∃ row rows rest,
     length rows = length (JobInputs (job ["a"; "b"])) ∧
     calls [BuildsDB_UpdateBuildPreparation; Scanner_Scan]
       (events (attempt (happy ["a"; "b"]) None ["a"; "b"]))
     = EUpdateBuildPreparation row None
       :: scan_calls ["atc"] (JobInputs (job ["a"; "b"])) rows ++ rest) ∧
  ∃ ret,
    calls [PipelineDB_LoadVersionsDB]
      (events (attempt (happy ["a"; "b"]) None ["a"; "b"]))
    = [ELoadVersionsDB ret].
Proof.
  assert (ELoadVersionsDB (Some 7%nat, None)
          ∈ events (attempt (happy ["a"; "b"]) None ["a"; "b"]))
    as Hin by member.
  assert (∃ row rows rest,
            length rows = length (JobInputs (job ["a"; "b"])) ∧
            calls [BuildsDB_UpdateBuildPreparation; Scanner_Scan]
              (events (attempt (happy ["a"; "b"]) None ["a"; "b"]))
            = EUpdateBuildPreparation row None
              :: scan_calls ["atc"] (JobInputs (job ["a"; "b"])) rows
              ++ rest) as Hscans.
  { eexists _, [(_, _); (_, _)], _. split; [reflexivity|].
    vm_compute. reflexivity. }
  destruct (scans_in_order_then_load
              (Scheduler0 := scheduler (happy ["a"; "b"]))
              ["atc"] build (job ["a"; "b"]) [] start)
    as (Hload & Hloaded & _).
  split; [exact Hin|]. split; [|split; [exact Hscans|]].
  - destruct (Hload _ Hin) as (row & rows & rest & H1 & H2 & H3 & _).
    exists row, rows, rest. exact (conj H1 (conj H2 H3)).
  - destruct Hscans as (row & rows & rest & Hlen & Hcalls).
    exact (Hloaded row rows rest Hlen Hcalls).
Defined.

Lemma preparation_saved_before_commit_witness :
  EUseInputsForBuild 128 [version "a"] None
  ∈ events (attempt (happy ["a"]) (Some 3%nat) ["a"]) ∧
  ∃ before row,
    calls [BuildsDB_UpdateBuildPreparation; PipelineDB_UseInputsForBuild]
      (events (attempt (happy ["a"]) (Some 3%nat) ["a"]))
    = before ++ [EUpdateBuildPreparation row None;
                 EUseInputsForBuild 128 [version "a"] None] ∧
    db.InputsSatisfied row = db.BuildPreparationStatusNotBlocking ∧
    calls [PipelineDB_UseInputsForBuild] before = [].
Proof.
  assert (EUseInputsForBuild 128 [version "a"] None
          ∈ events (attempt (happy ["a"]) (Some 3%nat) ["a"]))
    as Hin by member.
  split; [exact Hin|].
  destruct (proj1 (preparation_saved_before_commit
                     (Scheduler0 := scheduler (happy ["a"])) _ _ _ _ _ _)
              _ _ _ Hin) as (before & row & Hcalls & Hrow & Hbefore & _).
  exists before, row. exact (conj Hcalls (conj Hrow Hbefore)).
Defined.

Lemma resume_only_for_a_handle_witness :
  EEngineCreateBuild ["atc"] build 42%nat (None, None)
  ∈ events (attempt (engine_nil ["a"]) (Some 3%nat) ["a"]) ∧
  outcome (attempt (engine_nil ["a"]) (Some 3%nat) ["a"]) = Returned None ∧
  calls [Build_Resume] (events (attempt (engine_nil ["a"]) (Some 3%nat) ["a"]))
  = [].
Proof.
  assert (EEngineCreateBuild ["atc"] build 42%nat (None, None)
          ∈ events (attempt (engine_nil ["a"]) (Some 3%nat) ["a"]))
    as Hin by member.
  split; [exact Hin|].
  destruct (proj1 (resume_only_for_a_handle
                     (Scheduler0 := scheduler (engine_nil ["a"])) _ _ _ _ _ _)
              _ _ _ Hin) as (Hout & Hresume & _).
  exact (conj Hout Hresume).
Defined.

(** C6, as the spec states it, fails on the code.  With a version index
    the only status persisted for an input is not blocking, which is no
    prefix of the chain.  Without one, an input name declared twice goes
    from not blocking back to blocking. *)
Lemma statuses_not_prefix_of_chain :
  (statuses "a" (events (attempt (happy ["a"]) (Some 3%nat) ["a"]))
   = [Some db.BuildPreparationStatusNotBlocking;
      Some db.BuildPreparationStatusNotBlocking] ∧
   "a" ∈ config.Name <$> JobInputs (job ["a"]) ∧
   ¬ collapse (statuses "a" (events (attempt (happy ["a"]) (Some 3%nat) ["a"])))
       `prefix_of` preparation_chain) ∧
  (statuses "a" (events (attempt (happy ["a"; "a"]) None ["a"; "a"]))
   = [Some db.BuildPreparationStatusUnknown;
      Some db.BuildPreparationStatusBlocking;
      Some db.BuildPreparationStatusNotBlocking;
      Some db.BuildPreparationStatusBlocking;
      Some db.BuildPreparationStatusNotBlocking;
      Some db.BuildPreparationStatusNotBlocking] ∧
   "a" ∈ config.Name <$> JobInputs (job ["a"; "a"]) ∧
   ¬ collapse (statuses "a" (events (attempt (happy ["a"; "a"]) None ["a"; "a"])))
       `prefix_of` preparation_chain).
Proof.
  split; (split; [vm_compute; reflexivity|]);
    (split; [apply (bool_decide_unpack _); vm_compute; exact I|]);
    intros [k Hk]; vm_compute in Hk; discriminate Hk.
Qed.
End Scenarios.

(** * More about the scheduling procedure *)

Lemma collaborator_calls_app trace1 trace2 :
  collaborator_calls (trace1 ++ trace2)
  = collaborator_calls trace1 ++ collaborator_calls trace2.
Proof.
  induction trace1 as [|e trace1 IH]; [done|]. simpl.
  rewrite IH. by destruct (bool_decide _).
Qed.

Lemma row_mark_nil (row : BuildPreparationRow) inputs status :
  db.Inputs row = None → inputs ≠ [] → row_mark row inputs status = None.
Proof. intros Hnil Hinputs. destruct inputs; [done|]. simpl. by rewrite Hnil. Qed.

Lemma row_mark_None (row : BuildPreparationRow) inputs status :
  row_mark row inputs status = None → db.Inputs row = None ∧ inputs ≠ [].
Proof.
  destruct inputs; [done|]. simpl. by destruct (db.Inputs row).
Qed.

Lemma scanned_app trace1 trace2 :
  scanned (trace1 ++ trace2) = scanned trace1 ++ scanned trace2.
Proof.
  induction trace1 as [|e trace1 IH]; [done|].
  destruct e; simpl; by rewrite ?IH.
Qed.

Lemma scanned_error_log logger message ret :
  scanned (error_log logger message ret) = [].
Proof. by destruct ret. Qed.

Lemma same_build_fields_assign base row key status :
  same_build_fields base row →
  same_build_fields base (row_assign row key status).
Proof. done. Qed.

Lemma row_mark_fields (row marked : BuildPreparationRow) inputs status :
  row_mark row inputs status = Some marked →
  same_build_fields row marked ∧
  db.InputsSatisfied marked = db.InputsSatisfied row.
Proof.
  destruct inputs; simpl.
  - by intros [= <-].
  - destruct (db.Inputs row); [|done]. by intros [= <-].
Qed.

Lemma input_status_assign_is_Some name key row status :
  is_Some (input_status name row) →
  is_Some (input_status name (row_assign row key status)).
Proof.
  intros Hsome. destruct (decide (key = name)) as [->|Hne].
  - by rewrite input_status_assign.
  - by rewrite input_status_assign_ne.
Qed.

Section ScanMore.
Variables (logger : Logger) (build : db.Build).

(** The loop assigns statuses of inputs and nothing else. *)
Lemma scan_path_fields base row inputs evs last :
  scan_path logger build row inputs evs last →
  same_build_fields base row →
  Forall
    (λ row', same_build_fields base row' ∧
             db.InputsSatisfied row' = db.InputsSatisfied row)
    (persisted evs) ∧
  ∀ row', last = Some row' →
          same_build_fields base row' ∧
          db.InputsSatisfied row' = db.InputsSatisfied row.
Proof.
  induction 1 as [row|row input rest evs last blocking notBlocking Hrest IH
                 | | |];
    intros Hbase; simpl; rewrite ?persisted_error_log.
  - split; [done|]. by intros ? [= <-].
  - destruct (IH Hbase) as [Hall Hlast]. split; [|done].
    by repeat (apply Forall_cons_2; [done|]).
  - split; [|done]. by repeat (apply Forall_cons_2; [done|]).
  - split; [|done]. by repeat (apply Forall_cons_2; [done|]).
  - split; [|done]. by repeat (apply Forall_cons_2; [done|]).
Qed.

(** The loop removes no input from the record. *)
Lemma scan_path_keys name row inputs evs last :
  scan_path logger build row inputs evs last →
  is_Some (input_status name row) →
  Forall is_Some (input_status name <$> persisted evs) ∧
  ∀ row', last = Some row' → is_Some (input_status name row').
Proof.
  induction 1 as [row|row input rest evs last blocking notBlocking Hrest IH
                 | | |];
    intros Hsome; simpl; rewrite ?persisted_error_log;
    try (split; [|done];
         by repeat (apply Forall_cons_2;
                      [by repeat apply input_status_assign_is_Some|])).
  - split; [done|]. by intros ? [= <-].
  - destruct IH as [Hall Hlast];
      [by repeat apply input_status_assign_is_Some|].
    split; [|done].
    by repeat (apply Forall_cons_2;
                 [by repeat apply input_status_assign_is_Some|]).
Qed.

(** The loop scans the resources of the inputs in their order. *)
Lemma scan_path_scanned row inputs evs last :
  scan_path logger build row inputs evs last →
  scanned evs `prefix_of` (config.Resource <$> inputs) ∧
  (is_Some last → scanned evs = config.Resource <$> inputs).
Proof.
  induction 1 as [row|row input rest evs last blocking notBlocking Hrest IH
                 | | |];
    simpl; rewrite ?scanned_error_log.
  - done.
  - destruct IH as [Hprefix Hall]. split.
    + by apply prefix_cons.
    + intros Hlast. by rewrite Hall.
  - split; [apply prefix_nil|]. by intros [? ?].
  - split; [|by intros [? ?]]. apply prefix_cons, prefix_nil.
  - split; [|by intros [? ?]]. apply prefix_cons, prefix_nil.
Qed.

(** [ErrorBuild] in the loop reports the error of a scan. *)
Lemma scan_path_error_build row inputs evs last buildID err ret :
  scan_path logger build row inputs evs last →
  EErrorBuild buildID err ret ∈ evs →
  buildID = db.ID build ∧
  ∃ resource, EScan (Session logger "scan") resource (Some err) ∈ evs.
Proof.
  induction 1 as [row|row input rest evs last blocking notBlocking Hrest IH
                 |row input rest err' blocking
                 |row input rest err' ret' blocking
                 |row input rest err' blocking notBlocking];
    intros Hin.
  - by apply elem_of_nil in Hin.
  - do 4 (apply elem_of_cons in Hin as [Hin|Hin]; [discriminate|]).
    destruct (IH Hin) as [? [resource ?]]. split; [done|].
    exists resource. by do 4 apply list_elem_of_further.
  - position Hin.
  - do 3 (apply elem_of_cons in Hin as [Hin|Hin]; [discriminate|]).
    apply elem_of_cons in Hin as [Hin|Hin].
    + injection Hin as -> -> ->. split; [done|].
      exists (config.Resource input).
      apply list_elem_of_further, list_elem_of_here.
    + destruct ret'; position Hin.
  - position Hin.
Qed.
End ScanMore.

Section Procedure.
Context {W : Type} `{!Scheduler W}.
Variables (logger : Logger) (build : db.Build) (job : atc.JobConfig)
  (resources : atc.ResourceConfigs).

(** Replaces the run of the procedure by the path it follows. *)
Ltac along_path versions s :=
  generalize (attempt_run logger build job resources versions s);
  unfold follows;
  generalize
    (events (scheduleAndResumePendingBuild logger versions build job resources s));
  generalize
    (outcome (scheduleAndResumePendingBuild logger versions build job resources s));
  intros ? ? ?.

Ltac no_such_call :=
  match goal with
  | H : _ ∈ [] |- _ => by apply elem_of_nil in H
  | H : _ ∈ [_] |- _ => apply list_elem_of_singleton in H; simplify_eq
  end.

(** X1. When [ScheduleBuild] declines or fails, the procedure has called
    the store three times in all: it took the lease, asked to schedule,
    and broke the lease.  It read and wrote no preparation record, scanned
    nothing, committed nothing, and returns nil. *)
Theorem schedule_refused_does_nothing versions (s : Store W)
    buildID jobConfig scheduled err :
  let r := scheduleAndResumePendingBuild logger versions build job resources s in
  EScheduleBuild buildID jobConfig (scheduled, err) ∈ events r →
  scheduled && bool_decide (err = None) = false →
  ∃ lease,
    collaborator_calls (events r)
    = [ELeaseBuildScheduling (db.ID build) (10 * Second) (lease, true, None);
       EScheduleBuild (db.ID build) job (scheduled, err);
       ELeaseBreak lease] ∧
    outcome r = Returned None.
Proof.
  cbv zeta. along_path versions s. intros Hin Hrefused.
  apply elem_of_calls_1 in Hin. simpl method in Hin.
  invert_paths; count_calls; try no_such_call; try discriminate; eauto.
Qed.

(** What input discovery saves: every record has the build fields of the
    record it started from, shows the inputs as not yet satisfied and has
    a status for every declared input; so has the record it goes on
    with. *)
Lemma discover_path_rows row versions evs o :
  discover_path logger build job row versions evs o →
  let kept (row' : BuildPreparationRow) :=
    same_build_fields row row' ∧
    db.InputsSatisfied row' = db.BuildPreparationStatusBlocking ∧
    ∀ name, name ∈ config.Name <$> JobInputs job →
            is_Some (input_status name row') in
  Forall kept (persisted evs) ∧
  ∀ versions' row', o = Continue (versions', row') → kept row'.
Proof.
  intros Hpath kept.
  assert (∀ marked status,
            row_mark row (JobInputs job) status = Some marked →
            kept (set_InputsSatisfied marked
                    db.BuildPreparationStatusBlocking)) as Hmarked.
  { intros marked status Hmark.
    destruct (row_mark_fields _ _ _ _ Hmark) as [Hfields _].
    split_and!; [done..|]. intros name Hname.
    rewrite input_status_set_InputsSatisfied.
    by rewrite (row_mark_status name _ _ _ marked Hmark Hname). }
  assert (∀ marked status evs' last,
            row_mark row (JobInputs job) status = Some marked →
            scan_path logger build
              (set_InputsSatisfied marked db.BuildPreparationStatusBlocking)
              (JobInputs job) evs' last →
            Forall kept (persisted evs') ∧
            ∀ row', last = Some row' → kept row') as Hscan.
  { intros marked status evs' last Hmark Hscan.
    destruct (Hmarked _ _ Hmark) as (Hfields & _ & Hkeys).
    destruct (scan_path_fields _ _ row _ _ _ _ Hscan Hfields)
      as [Hall Hlast].
    assert (∀ name, name ∈ config.Name <$> JobInputs job →
              Forall is_Some (input_status name <$> persisted evs') ∧
              ∀ row', last = Some row' → is_Some (input_status name row'))
      as Hnames.
    { intros name Hname.
      by apply (scan_path_keys _ _ name _ _ _ _ Hscan), Hkeys. }
    split.
    - apply Forall_forall. intros row' Hin.
      rewrite Forall_forall in Hall.
      destruct (Hall _ Hin) as [? ?]. split_and!; [done..|].
      intros name Hname. destruct (Hnames _ Hname) as [Hsome _].
      rewrite Forall_fmap, Forall_forall in Hsome. by apply Hsome.
    - intros row' ->. destruct (Hlast _ eq_refl) as [? ?].
      split_and!; [done..|].
      intros name Hname. destruct (Hnames _ Hname) as [_ Hsome].
      by apply Hsome. }
  inversion Hpath; subst; simpl;
    rewrite ?persisted_app, ?persisted_error_log, ?app_nil_r; simpl;
    try match goal with
    | H : scan_path _ _ _ _ _ _ |- _ =>
      destruct (Hscan _ _ _ _ ltac:(eassumption) H) as [Hall Hlast]
    end;
    (split; [|try done; intros ? ? [= <- <-]; eauto]);
    repeat first [ apply Forall_nil_2 | apply Forall_cons_2; [by eauto|]
                 | assumption ].
Qed.

Lemma discover_path_fetches_nothing row versions evs o :
  discover_path logger build job row versions evs o →
  calls [BuildsDB_GetBuildPreparation] evs = [].
Proof. intros Hpath. invert_paths; by count_calls. Qed.

Ltac invert_outer :=
  repeat match goal with
  | H : attempt_path _ _ _ _ _ _ _ |- _ => inversion H; subst; clear H
  | H : leased_path _ _ _ _ _ _ _ |- _ => inversion H; subst; clear H
  | H : commit_path _ _ _ _ _ _ _ _ |- _ => inversion H; subst; clear H
  | H : use_path _ _ _ _ _ _ _ _ |- _ => inversion H; subst; clear H
  | H : plan_path _ _ _ _ _ _ _ |- _ => inversion H; subst; clear H
  end.

(** The records saved in a run, from the rows of input discovery. *)
Ltac saved_rows :=
  rewrite <- ?app_assoc; simpl;
  rewrite ?persisted_app, ?persisted_error_log; simpl;
  rewrite ?persisted_error_log, ?app_nil_r; simpl.

(** The trace of a run that gets a record with a nil map. *)
Lemma nil_inputs_map_trace versions (s : Store W) buildID row :
  let r := scheduleAndResumePendingBuild logger versions build job resources s in
  EGetBuildPreparation buildID (row, true, None) ∈ events r →
  db.Inputs row = None →
  JobInputs job ≠ [] →
  outcome r = Panicked "assignment to entry in nil map" ∧
  calls [BuildsDB_UpdateBuildPreparation; Scanner_Scan;
         PipelineDB_LoadVersionsDB; PipelineDB_GetLatestInputVersions;
         PipelineDB_UseInputsForBuild; BuildFactory_Create;
         Engine_CreateBuild] (events r) = [] ∧
  ∃ lease body,
    events r
    = ELeaseBuildScheduling (db.ID build) (10 * Second) (lease, true, None)
      :: body ++ [ELeaseBreak lease].
Proof.
  cbv zeta. along_path versions s. intros Hin Hnil Hinputs.
  match goal with H : attempt_path _ _ _ _ _ _ _ |- _ =>
    inversion H as [| |lease body o' Hbody]; subst; clear H end.
  1, 2: apply elem_of_calls_1 in Hin; simpl in Hin; no_such_call.
  split_and!; [| |by exists lease, body];
    (apply elem_of_calls_1 in Hin; simpl method in Hin;
     invert_paths; count_calls; try no_such_call; try done;
     match goal with
     | H : row_mark _ _ _ = Some _ |- _ =>
       by rewrite row_mark_nil in H
     end).
Qed.

(** X2. When the store returns a preparation record whose [Inputs] map is
    nil and the job declares an input, the first assignment to the map
    panics: the procedure panics before it saves any record, scans,
    resolves or commits, and the deferred break of the lease still runs
    as the last thing: the world the run leaves is the world after
    [LeaseBreak] of the lease it acquired. *)
Theorem nil_inputs_map_panics versions (s : Store W) buildID row :
  let r := scheduleAndResumePendingBuild logger versions build job resources s in
  EGetBuildPreparation buildID (row, true, None) ∈ events r →
  db.Inputs row = None →
  JobInputs job ≠ [] →
  outcome r = Panicked "assignment to entry in nil map" ∧
  calls [BuildsDB_UpdateBuildPreparation; Scanner_Scan;
         PipelineDB_LoadVersionsDB; PipelineDB_GetLatestInputVersions;
         PipelineDB_UseInputsForBuild; BuildFactory_Create;
         Engine_CreateBuild] (events r) = [] ∧
  ∃ lease body w,
    events r
    = ELeaseBuildScheduling (db.ID build) (10 * Second) (lease, true, None)
      :: body ++ [ELeaseBreak lease] ∧
    replays
      (ELeaseBuildScheduling (db.ID build) (10 * Second) (lease, true, None)
       :: body)
      (world s) w ∧
    world (final r) = LeaseBreak lease w.
Proof.
  cbv zeta. intros Hin Hnil Hinputs.
  destruct (nil_inputs_map_trace versions s buildID row Hin Hnil Hinputs)
    as (Hout & Hcalls & lease & body & Hevents).
  split_and!; [done..|].
  pose proof (attempt_faithful logger versions build job resources s)
    as Hreplays.
  rewrite Hevents, app_comm_cons in Hreplays.
  apply replays_last in Hreplays as (w & Hw & Hbreak).
  by exists lease, body, w.
Qed.

(** X3. The procedure panics in no other case: a panic means that the
    store returned a record with a nil [Inputs] map for a job that
    declares an input. *)
Theorem panics_only_on_nil_inputs_map versions (s : Store W) msg :
  let r := scheduleAndResumePendingBuild logger versions build job resources s in
  outcome r = Panicked msg →
  msg = "assignment to entry in nil map" ∧
  JobInputs job ≠ [] ∧
  ∃ row,
    calls [BuildsDB_GetBuildPreparation] (events r)
    = [EGetBuildPreparation (db.ID build) (row, true, None)] ∧
    db.Inputs row = None.
Proof.
  cbv zeta. along_path versions s. intros Hout.
  invert_paths; count_calls; try discriminate;
    match goal with
    | H : row_mark _ _ _ = None |- _ => apply row_mark_None in H as [? ?]
    end; eauto.
Qed.

(** X4. With a version index the procedure never scans, never loads a
    version index and never calls [ErrorBuild]; the resolver, if called,
    gets the caller's index, the name of the job and its declared
    inputs. *)
Theorem cached_index_is_used_as_is v (s : Store W) :
  let r :=
    scheduleAndResumePendingBuild logger (Some v) build job resources s in
  calls [Scanner_Scan; PipelineDB_LoadVersionsDB; BuildsDB_ErrorBuild]
    (events r) = [] ∧
  ∀ versions name inputs ret,
    EGetLatestInputVersions versions name inputs ret ∈ events r →
    versions = Some v ∧ name = atc.Name job ∧ inputs = JobInputs job.
Proof.
  cbv zeta. along_path (Some v) s. split.
  - invert_paths; by count_calls.
  - intros versions name inputs ret Hin.
    apply elem_of_calls_1 in Hin. simpl method in Hin.
    invert_paths; count_calls; try no_such_call; done.
Qed.

(** X5. When the resolver finds no versions, the build is left as it is:
    nothing is committed, no plan is built, neither [FinishBuild] nor
    [ErrorBuild] changes its status, the engine is not called, and the
    procedure returns nil. *)
Theorem nothing_resolved_leaves_build versions (s : Store W)
    versions' name inputs resolved :
  let r := scheduleAndResumePendingBuild logger versions build job resources s in
  EGetLatestInputVersions versions' name inputs (resolved, false, None)
  ∈ events r →
  calls [PipelineDB_UseInputsForBuild; BuildFactory_Create;
         BuildsDB_FinishBuild; BuildsDB_ErrorBuild; Engine_CreateBuild;
         Build_Resume] (events r) = [] ∧
  outcome r = Returned None.
Proof.
  cbv zeta. along_path versions s. intros Hin.
  apply elem_of_calls_1 in Hin. simpl method in Hin.
  invert_paths; count_calls; try no_such_call; done.
Qed.

(** X6. When [Engine.CreateBuild] returns an error, the procedure returns
    nil without launching [Resume], even if the engine returned a handle
    along with the error, and it does not change the status of the build:
    neither [FinishBuild] nor [ErrorBuild] is called. *)
Theorem engine_error_orphans_build versions (s : Store W) lg b plan
    createdBuild err :
  let r := scheduleAndResumePendingBuild logger versions build job resources s in
  EEngineCreateBuild lg b plan (createdBuild, Some err) ∈ events r →
  calls [Build_Resume; BuildsDB_FinishBuild; BuildsDB_ErrorBuild]
    (events r) = [] ∧
  outcome r = Returned None.
Proof.
  cbv zeta. along_path versions s. intros Hin.
  apply elem_of_calls_1 in Hin. simpl method in Hin.
  invert_paths; count_calls; try no_such_call; done.
Qed.

Lemma discovered_quiet row versions evs found :
  discover_path logger build job row versions evs (Continue found) →
  calls [PipelineDB_UseInputsForBuild; BuildFactory_Create;
         BuildsDB_FinishBuild; BuildsDB_ErrorBuild; Engine_CreateBuild;
         Build_Resume] evs = [].
Proof. intros Hpath. invert_paths; by count_calls. Qed.

(** The trace of a run that returns a handle. *)
Lemma returned_handle_trace versions (s : Store W) createdBuild :
  let r := scheduleAndResumePendingBuild logger versions build job resources s in
  outcome r = Returned (Some createdBuild) →
  ∃ inputs plan before after,
    events r
    = before
      ++ [EUseInputsForBuild (db.ID build) inputs None;
          EFactoryCreate job resources inputs (plan, None);
          EEngineCreateBuild logger build plan (Some createdBuild, None)]
      ++ after ∧
    calls [PipelineDB_UseInputsForBuild; BuildFactory_Create;
           BuildsDB_FinishBuild; BuildsDB_ErrorBuild; Engine_CreateBuild;
           Build_Resume] before = [] ∧
    calls [PipelineDB_UseInputsForBuild; BuildFactory_Create;
           BuildsDB_FinishBuild; BuildsDB_ErrorBuild; Engine_CreateBuild;
           Build_Resume] after = [EGoResume createdBuild logger].
Proof.
  cbv zeta. along_path versions s. intros Hout.
  invert_after_discovery; try discriminate; simplify_eq;
    try match goal with
    | H : discover_path _ _ _ _ _ _ (Returned _) |- _ => by inversion H
    end;
    match goal with
    | H : discover_path _ _ _ _ _ ?evs _ |- _ =>
      pose proof (discovered_quiet _ _ _ _ H) as Hbefore;
      eexists _, _,
        (ELeaseBuildScheduling _ _ _ :: EScheduleBuild _ _ _
         :: EGetBuildPreparation _ _ :: evs
         ++ [EGetLatestInputVersions _ _ _ _; EUpdateBuildPreparation _ _]),
        _
    end;
    (split_and!;
     [ rewrite <- ?app_assoc; simpl; rewrite <- ?app_assoc; reflexivity
     | simpl; rewrite calls_app, Hbefore; reflexivity
     | reflexivity ]).
Qed.

(** X7. When the procedure returns a handle, it has committed inputs,
    built a plan from the same inputs, handed build and plan to the
    engine and launched [Resume] on the handle the engine returned, each
    once and in this order, and it has called neither [FinishBuild] nor
    [ErrorBuild].  The commit, the plan and the engine call are made in
    the world one right after the other: [UseInputsForBuild] on the world
    the calls before have left, [Factory.Create] with the same inputs on
    the world this call leaves, [Engine.CreateBuild] with the plan
    returned on the world after that, returning the handle. *)
Theorem returned_handle_was_resumed versions (s : Store W) createdBuild :
  let r := scheduleAndResumePendingBuild logger versions build job resources s in
  outcome r = Returned (Some createdBuild) →
  ∃ inputs plan,
    calls [PipelineDB_UseInputsForBuild; BuildFactory_Create;
           BuildsDB_FinishBuild; BuildsDB_ErrorBuild; Engine_CreateBuild;
           Build_Resume] (events r)
    = [EUseInputsForBuild (db.ID build) inputs None;
       EFactoryCreate job resources inputs (plan, None);
       EEngineCreateBuild logger build plan (Some createdBuild, None);
       EGoResume createdBuild logger] ∧
    ∃ before after w1 w2 w3 w4,
      events r
      = before
        ++ [EUseInputsForBuild (db.ID build) inputs None;
            EFactoryCreate job resources inputs (plan, None);
            EEngineCreateBuild logger build plan (Some createdBuild, None)]
        ++ after ∧
      replays before (world s) w1 ∧
      UseInputsForBuild (db.ID build) inputs w1 = (None, w2) ∧
      Create job resources inputs w2 = (plan, None, w3) ∧
      CreateBuild logger build plan w3 = (Some createdBuild, None, w4) ∧
      replays after w4 (world (final r)).
Proof.
  cbv zeta. intros Hout.
  destruct (returned_handle_trace versions s createdBuild Hout)
    as (inputs & plan & before & after & Hevents & Hbefore & Hafter).
  exists inputs, plan. split.
  - rewrite Hevents, !calls_app, Hbefore, Hafter. reflexivity.
  - pose proof (attempt_faithful logger versions build job resources s)
      as Hreplays.
    rewrite Hevents in Hreplays.
    apply replays_app_inv in Hreplays as (w1 & Hw1 & Hreplays).
    apply replays_app_inv in Hreplays as (w4 & Hcalls & Hw4).
    destruct Hcalls as (w2 & Huse & w3 & Hcreate & w4' & Hengine & ->).
    by exists before, after, w1, w2, w3, w4'.
Qed.

(** X8. [FinishBuild] is called for nothing but a failed plan: a call of
    [FinishBuild] is for this build, with status errored, and comes right
    after a [Factory.Create] that returned an error. *)
Theorem finish_build_only_after_plan_failure versions (s : Store W)
    buildID status ret :
  let r := scheduleAndResumePendingBuild logger versions build job resources s in
  EFinishBuild buildID status ret ∈ events r →
  ∃ inputs plan err,
    calls [BuildFactory_Create; BuildsDB_FinishBuild; Engine_CreateBuild]
      (events r)
    = [EFactoryCreate job resources inputs (plan, Some err);
       EFinishBuild (db.ID build) db.StatusErrored ret] ∧
    buildID = db.ID build ∧ status = db.StatusErrored.
Proof.
  cbv zeta. along_path versions s. intros Hin.
  apply elem_of_calls_1 in Hin. simpl method in Hin.
  invert_paths; count_calls; try no_such_call; eauto 10.
Qed.

(** X9. [ErrorBuild] is called for nothing but a failed scan: a call of
    [ErrorBuild] is for this build, happens only when the procedure was
    given no version index, and carries the error that a scan
    returned. *)
Theorem error_build_only_after_scan_failure versions (s : Store W)
    buildID err ret :
  let r := scheduleAndResumePendingBuild logger versions build job resources s in
  EErrorBuild buildID err ret ∈ events r →
  versions = None ∧ buildID = db.ID build ∧
  ∃ resource, EScan (Session logger "scan") resource (Some err) ∈ events r.
Proof.
  cbv zeta. along_path versions s. intros Hin.
  pose proof Hin as Hin'.
  apply elem_of_calls_1 in Hin'. simpl method in Hin'.
  invert_paths; count_calls; try no_such_call;
    rewrite ?app_nil_r in *;
    apply elem_of_calls in Hin' as [Hin' _];
    match goal with H : scan_path _ _ _ _ _ _ |- _ =>
      destruct (scan_path_error_build _ _ _ _ _ _ _ _ _ H Hin')
        as [-> [resource Hscan]]
    end;
    (split_and!; [done..|]); exists resource;
    repeat first [ apply list_elem_of_further
                 | apply elem_of_app; left; exact Hscan ].
Qed.

(** X10. Every preparation record the procedure saves has the build id,
    the paused flags and the running-builds status of the record the
    store returned: the procedure changes nothing but the statuses of the
    inputs and [InputsSatisfied]. *)
Theorem saved_records_keep_build_fields versions (s : Store W)
    buildID row found err :
  let r := scheduleAndResumePendingBuild logger versions build job resources s in
  EGetBuildPreparation buildID (row, found, err) ∈ events r →
  Forall (same_build_fields row) (persisted (events r)).
Proof.
  cbv zeta. along_path versions s. intros Hin.
  apply elem_of_calls_1 in Hin. simpl method in Hin.
  invert_outer;
    repeat match goal with
    | H : context [error_log _ _ ?ret] |- _ =>
      is_var ret; destruct ret; simpl error_log in H
    end;
    rewrite <- ?app_assoc in Hin; simpl in Hin;
    rewrite ?calls_app in Hin; simpl in Hin;
    try match goal with
    | H : discover_path _ _ _ _ _ _ _ |- _ =>
      rewrite (discover_path_fetches_nothing _ _ _ _ H) in Hin;
      simpl in Hin
    end;
    try (by apply elem_of_nil in Hin);
    apply elem_of_cons in Hin as [Hin|Hin];
    try (exfalso; revert Hin; apply not_elem_of_nil);
    try (injection Hin as -> -> -> ->); saved_rows; try done;
    match goal with
    | H : discover_path _ _ _ _ _ _ _ |- _ =>
      destruct (discover_path_rows _ _ _ _ H) as [Hall Hlast]
    end;
    try (destruct (Hlast _ _ eq_refl) as (? & _ & _));
    repeat first
      [ apply Forall_nil_2
      | apply Forall_app_2
      | apply Forall_cons_2; [done|]
      | by eapply Forall_impl; [exact Hall|]; intros ? (? & _ & _) ].
Qed.

(** X11. [InputsSatisfied] is saved as not blocking at most once, and then
    by the last record the procedure saves: the records saved are a run
    of records with [InputsSatisfied] blocking, followed by at most one
    record with [InputsSatisfied] not blocking. *)
Theorem inputs_satisfied_saved_last versions (s : Store W) :
  let r := scheduleAndResumePendingBuild logger versions build job resources s in
  ∃ blocking tail,
    persisted (events r) = blocking ++ tail ∧
    Forall
      (λ row, db.InputsSatisfied row = db.BuildPreparationStatusBlocking)
      blocking ∧
    (tail = [] ∨
     ∃ row, tail = [row] ∧
            db.InputsSatisfied row = db.BuildPreparationStatusNotBlocking).
Proof.
  cbv zeta. along_path versions s.
  invert_outer; saved_rows;
    try (by exists [], []; split_and!; [done|apply Forall_nil_2|left]);
    match goal with
    | H : discover_path _ _ _ _ _ _ _ |- _ =>
      destruct (discover_path_rows _ _ _ _ H) as [Hall _]
    end;
    match goal with
    | |- ∃ _ _, persisted ?evs = _ ∧ _ =>
      exists (persisted evs), []; rewrite app_nil_r
    | |- ∃ _ _, persisted ?evs ++ [?row] = _ ∧ _ =>
      exists (persisted evs), [row]
    end;
    (split_and!;
     [ done
     | by eapply Forall_impl; [exact Hall|]; intros ? (_ & ? & _)
     | first [by left | right; by eexists] ]).
Qed.

(** X12. Every preparation record the procedure saves has a status for
    every declared input: the first assignment loop gives one to each
    input, and no later step removes one. *)
Theorem saved_records_cover_inputs versions (s : Store W) name :
  let r := scheduleAndResumePendingBuild logger versions build job resources s in
  name ∈ config.Name <$> JobInputs job →
  Forall is_Some (statuses name (events r)).
Proof.
  cbv zeta. along_path versions s. intros Hname. unfold statuses.
  apply Forall_fmap.
  invert_outer; saved_rows; try apply Forall_nil_2;
    match goal with
    | H : discover_path _ _ _ _ _ _ _ |- _ =>
      destruct (discover_path_rows _ _ _ _ H) as [Hall Hlast]
    end;
    try (destruct (Hlast _ _ eq_refl) as (_ & _ & Hkeys));
    repeat first
      [ apply Forall_nil_2
      | apply Forall_app_2
      | apply Forall_cons_2;
        [simpl; rewrite input_status_set_InputsSatisfied; by apply Hkeys|]
      | by eapply Forall_impl; [exact Hall|]; intros ? (_ & _ & Hk);
        apply Hk ].
Qed.

(** X13. Whatever happens, the resources the procedure scans are a prefix
    of the resources of the declared inputs, in the order of the
    declaration: an input is scanned only after all inputs declared
    before it, and no input is scanned twice. *)
Theorem scans_are_a_prefix_of_inputs versions (s : Store W) :
  let r := scheduleAndResumePendingBuild logger versions build job resources s in
  scanned (events r) `prefix_of` (config.Resource <$> JobInputs job).
Proof.
  cbv zeta. along_path versions s.
  invert_paths; rewrite <- ?app_assoc; simpl;
    rewrite ?scanned_app, ?scanned_error_log; simpl;
    rewrite ?scanned_error_log, ?app_nil_r;
    try apply prefix_nil;
    match goal with
    | H : scan_path _ _ _ _ _ _ |- _ =>
      by apply scan_path_scanned in H as [? _]
    end.
Qed.
End Procedure.

(** * [BuildLatestInputs] *)

(** The loops of [BuildLatestInputs] keep, in their order, the resolved
    inputs whose first declaration of the same name is a trigger. *)
Lemma appendIfTrigger_triggers inputs input checkInputs :
  appendIfTrigger inputs input checkInputs
  = checkInputs ++ (if triggers inputs input then [input] else []).
Proof.
  unfold triggers. induction inputs as [|ji rest IH]; simpl.
  - by rewrite app_nil_r.
  - destruct (String.eqb _ _); [|done].
    destruct (config.Trigger ji); [done|by rewrite app_nil_r].
Qed.

Lemma checkInputs_of_filter inputs latestInputs :
  checkInputs_of inputs latestInputs
  = List.filter (triggers inputs) latestInputs.
Proof.
  unfold checkInputs_of.
  enough (∀ acc,
            foldl (λ checkInputs input,
                     appendIfTrigger inputs input checkInputs) acc latestInputs
            = acc ++ List.filter (triggers inputs) latestInputs) as H
    by apply (H []).
  induction latestInputs as [|input rest IH]; intros acc; simpl.
  - by rewrite app_nil_r.
  - rewrite IH, appendIfTrigger_triggers.
    destruct (triggers inputs input); [by rewrite <- app_assoc|].
    by rewrite app_nil_r.
Qed.

Section Latest.
Context {W : Type} `{!Scheduler W}.
Variables (logger : Logger) (versions : option algorithm.VersionsDB)
  (job : atc.JobConfig) (resources : atc.ResourceConfigs).

(** Every run of [BuildLatestInputs] follows one of its paths. *)
Lemma latest_run (s : Store W) :
  follows (λ e o _, latest_path logger versions job resources e o)
    (BuildLatestInputs logger versions job resources s).
Proof.
  unfold BuildLatestInputs. cbv zeta.
  apply follows_when.
  destruct (length (JobInputs job) =? 0)%nat eqn:Hlen.
  { run. apply latest_no_inputs.
    apply Nat.eqb_eq in Hlen. by apply nil_length_inv. }
  assert (JobInputs job ≠ []) as Hdeclared.
  { intros Hnil. by rewrite Hnil in Hlen. }
  apply follows_call. intros [[latestInputs found] [err|]] w1; run;
    finished ltac:(by apply latest_failed).
  apply follows_when. destruct found; cbn [negb]; cbv iota; run;
    finished ltac:(by apply latest_nothing).
  fold (checkInputs_of (JobInputs job) latestInputs).
  apply follows_when.
  destruct (length (checkInputs_of (JobInputs job) latestInputs) =? 0)%nat
    eqn:Hchecked.
  { run. apply latest_no_trigger; [done|].
    apply Nat.eqb_eq in Hchecked. by apply nil_length_inv. }
  assert (checkInputs_of (JobInputs job) latestInputs ≠ []) as Hfound.
  { intros Hnil. by rewrite Hnil in Hchecked. }
  apply follows_call. intros [[existingBuild found] [err|]] w2; run;
    finished ltac:(apply latest_looked_up; [done..|]; apply lookup_failed).
  apply follows_when. destruct found; run;
    finished ltac:(apply latest_looked_up; [done..|]; apply lookup_found).
  apply follows_call. intros [[build created] [err|]] w3; run;
    finished ltac:(apply latest_looked_up; [done..|];
                   apply lookup_missing, candidate_failed).
  apply follows_when. destruct created; cbn [negb]; cbv iota; run;
    finished ltac:(apply latest_looked_up; [done..|];
                   apply lookup_missing, candidate_exists).
  apply follows_invoke.
  - intros r Hout. run. rewrite app_nil_r.
    apply latest_looked_up; [done..|]. apply lookup_missing.
    match goal with
    | |- candidate_path _ _ _ _ (_ :: _ :: events (?f ?st)) _ =>
      replace (Returned None : Outcome (option Error) Empty_set)
        with (dropped (R := Error) (outcome (f st)))
        by by rewrite Hout
    end.
    apply candidate_scheduled.
  - intros msg Hout.
    apply latest_looked_up; [done..|]. apply lookup_missing.
    match goal with
    | |- candidate_path _ _ _ _ (_ :: _ :: events (?f ?st)) _ =>
      replace (Panicked msg : Outcome (option Error) Empty_set)
        with (dropped (R := Error) (outcome (f st)))
        by by rewrite Hout
    end.
    apply candidate_scheduled.
Qed.

Lemma attempt_calls lg v build (s : Store W) e :
  e ∈ events (scheduleAndResumePendingBuild lg v build job resources s) →
  method e ∈ attempt_methods.
Proof.
  intros Hin.
  pose proof (attempt_path_methods _ _ _ _ _ _ _
                (attempt_run lg build job resources v s)) as Hmethods.
  rewrite Forall_forall in Hmethods. by apply Hmethods.
Qed.

Ltac along_latest s :=
  generalize (latest_run s); unfold follows;
  generalize (events (BuildLatestInputs logger versions job resources s));
  generalize (outcome (BuildLatestInputs logger versions job resources s));
  intros ? ? ?.

Ltac invert_latest :=
  repeat match goal with
  | H : latest_path _ _ _ _ _ _ |- _ => inversion H; subst; clear H
  | H : lookup_path _ _ _ _ _ _ _ |- _ => inversion H; subst; clear H
  | H : candidate_path _ _ _ _ _ _ |- _ => inversion H; subst; clear H
  end.

(** An event the scheduling procedure never makes is not in its trace. *)
Ltac not_scheduling H :=
  apply attempt_calls in H; simpl in H; position H.

(** X14. For a job that declares no inputs [BuildLatestInputs] does
    nothing: it calls no collaborator, logs nothing and returns nil. *)
Theorem no_inputs_nothing_to_do (s : Store W) :
  let r := BuildLatestInputs logger versions job resources s in
  JobInputs job = [] →
  events r = [] ∧ outcome r = Returned None.
Proof.
  cbv zeta. along_latest s. intros Hnil. by invert_latest.
Qed.

(** X15. [BuildLatestInputs] returns an error only when the last call it
    made to the store failed with this error, all calls before succeeded,
    and the scheduling procedure was not started: what goes wrong inside
    the scheduling procedure is never returned. *)
Theorem latest_error_is_last_call (s : Store W) err :
  let r := BuildLatestInputs logger versions job resources s in
  outcome r = Returned (Some err) →
  calls scheduling_methods (events r) = [] ∧
  ∃ before e,
    collaborator_calls (events r) = before ++ [e] ∧
    failure e = Some err ∧
    Forall (λ e', failure e' = None) before.
Proof.
  cbv zeta. along_latest s. intros Hout. invert_latest;
    try match goal with
    | H : dropped (outcome ?r) = _ |- _ =>
      by destruct (outcome r) as [[]| |]
    end;
    try discriminate; simplify_eq;
    (split; [done|]);
    first [ eexists [], _; split_and!; [done..|]; by repeat constructor
          | eexists [_], _; split_and!; [done..|]; by repeat constructor
          | eexists [_; _], _; split_and!; [done..|]; by repeat constructor ].
Qed.

(** X16. The inputs a build is looked up for are the resolved inputs
    whose first declaration of the same name is a trigger, in the order
    the resolver returned them; the lookup is made right after the
    resolver found versions, and only if there is such an input. *)
Theorem lookup_is_for_triggered_inputs (s : Store W) name checkInputs ret :
  let r := BuildLatestInputs logger versions job resources s in
  EGetJobBuildForInputs name checkInputs ret ∈ events r →
  ∃ latestInputs rest,
    events r
    = EGetLatestInputVersions versions (atc.Name job) (JobInputs job)
        (latestInputs, true, None)
      :: EGetJobBuildForInputs name checkInputs ret :: rest ∧
    name = atc.Name job ∧
    checkInputs = List.filter (triggers (JobInputs job)) latestInputs ∧
    checkInputs ≠ [].
Proof.
  cbv zeta. along_latest s. intros Hin.
  invert_latest; position Hin; try not_scheduling Hin; simplify_eq;
    eexists _, _;
    (split_and!;
     [reflexivity|done|by rewrite checkInputs_of_filter|done]).
Qed.

(** X17. When the lookup finds a build for the inputs, or fails,
    [BuildLatestInputs] creates no build and schedules nothing, and
    returns what the lookup returned as its error. *)
Theorem existing_build_is_not_repeated (s : Store W) name checkInputs
    existingBuild found err :
  let r := BuildLatestInputs logger versions job resources s in
  EGetJobBuildForInputs name checkInputs (existingBuild, found, err)
  ∈ events r →
  found = true ∨ err ≠ None →
  calls (PipelineDB_CreateJobBuildForCandidateInputs :: scheduling_methods)
    (events r) = [] ∧
  outcome r = Returned err.
Proof.
  cbv zeta. along_latest s. intros Hin Hfound.
  invert_latest; position Hin; try not_scheduling Hin; simplify_eq;
    try done; by destruct Hfound.
Qed.

(** X18. When [CreateJobBuildForCandidateInputs] created a build, the rest
    of the run is one run of the scheduling procedure for this build,
    with the version index and the session logger of the caller; before
    it only the resolver, the lookup and the creation were called.
    [BuildLatestInputs] then returns nil whatever the procedure returned;
    only a panic of the procedure is passed on. *)
Theorem created_build_is_scheduled (s : Store W) name build :
  let r := BuildLatestInputs logger versions job resources s in
  ECreateJobBuildForCandidateInputs name (build, true, None) ∈ events r →
  ∃ before s' latestInputs checkInputs existingBuild,
    let attempt :=
      scheduleAndResumePendingBuild (Session logger "build-latest")
        versions build job resources s' in
    events r = before ++ events attempt ∧
    collaborator_calls before
    = [EGetLatestInputVersions versions (atc.Name job) (JobInputs job)
         (latestInputs, true, None);
       EGetJobBuildForInputs (atc.Name job) checkInputs
         (existingBuild, false, None);
       ECreateJobBuildForCandidateInputs (atc.Name job)
         (build, true, None)] ∧
    outcome r = dropped (outcome attempt).
Proof.
  cbv zeta. along_latest s. intros Hin.
  invert_latest; position Hin; try not_scheduling Hin; simplify_eq.
  by eexists [_; _; _; _], _, _, _, _.
Qed.
End Latest.

(** * The other entry points *)

Lemma elem_of_collaborator_calls e trace :
  e ∈ trace → method e ≠ Logger_Log → e ∈ collaborator_calls trace.
Proof.
  intros Hin Hcall. induction trace as [|e' trace IH]; [done|]. simpl.
  apply elem_of_cons in Hin as [->|Hin].
  - rewrite bool_decide_eq_false_2 by done. apply list_elem_of_here.
  - destruct (bool_decide _); [|apply list_elem_of_further]; by apply IH.
Qed.

Lemma events_invoked {W R R' B} (f : Func W R') (r : R) (s : Store W) :
  events (bind (invoke f) (λ _, return_ (A := B) r) s) = events (f s).
Proof.
  unfold bind, invoke. cbn [outcome events final].
  destruct (outcome (f s)) as [[]| |]; [|done].
  apply app_nil_r.
Qed.

Section EntryPoints.
Context {W : Type} `{!Scheduler W}.
Variables (logger : Logger) (job : atc.JobConfig)
  (resources : atc.ResourceConfigs).

(** Without a version index the resolver is called only after every
    declared input was scanned, with the index [LoadVersionsDB]
    returned. *)
Lemma resolved_after_scans lg build (s : Store W) v name inputs ret :
  let r := scheduleAndResumePendingBuild lg None build job resources s in
  EGetLatestInputVersions v name inputs ret ∈ events r →
  scanned (events r) = config.Resource <$> JobInputs job ∧
  ELoadVersionsDB (v, None) ∈ events r.
Proof.
  cbv zeta.
  generalize (attempt_run lg build job resources None s).
  unfold follows.
  generalize
    (events (scheduleAndResumePendingBuild lg None build job resources s)).
  generalize
    (outcome (scheduleAndResumePendingBuild lg None build job resources s)).
  intros ? ? ? Hin.
  apply elem_of_calls_1 in Hin. simpl method in Hin.
  invert_paths; count_calls;
    try (by apply elem_of_nil in Hin);
    apply list_elem_of_singleton in Hin; simplify_eq;
    rewrite ?scanned_app, ?scanned_error_log; simpl;
    rewrite ?scanned_error_log, ?app_nil_r;
    match goal with
    | H : scan_path _ _ _ _ _ (Some _) |- _ =>
      apply scan_path_scanned in H as [_ ->]; [|done]
    end;
    (split; [done|]);
    repeat apply list_elem_of_further;
    apply elem_of_app; right;
    apply list_elem_of_further, list_elem_of_here.
Qed.

(** The trace of the goroutine of [TryNextPendingBuild]. *)
Lemma next_pending_build_trace versions (s : Store W) name build found err :
  let r := TryNextPendingBuild logger versions job resources s in
  EGetNextPendingBuild name (build, found, err) ∈ events r →
  name = atc.Name job ∧
  ∃ rest,
    events r = EGetNextPendingBuild name (build, found, err) :: rest ∧
    if found && bool_decide (err = None) then
      ∃ s',
        rest
        = events
            (scheduleAndResumePendingBuild
               (Session logger "try-next-pending") versions build job
               resources s')
    else collaborator_calls rest = [].
Proof.
  cbv zeta.
  change
    (follows
       (λ e o _,
          EGetNextPendingBuild name (build, found, err) ∈ e →
          name = atc.Name job ∧
          ∃ rest,
            e = EGetNextPendingBuild name (build, found, err) :: rest ∧
            if found && bool_decide (err = None) then
              ∃ s',
                rest
                = events
                    (scheduleAndResumePendingBuild
                       (Session logger "try-next-pending") versions build
                       job resources s')
            else collaborator_calls rest = [])
       (TryNextPendingBuild logger versions job resources s)).
  unfold TryNextPendingBuild. cbv zeta.
  apply follows_call. intros [[build' found'] [err'|]] w1; run;
    finished ltac:(intros Hin; position Hin; simplify_eq;
                   split; [done|]; eexists; split; [reflexivity|];
                   by rewrite andb_false_r).
  apply follows_when. destruct found'; cbn [negb]; cbv iota; run;
    finished ltac:(intros Hin; position Hin; simplify_eq;
                   split; [done|]; eexists; by split).
  apply follows_invoke.
  - intros r _. run. intros Hin. rewrite app_nil_r in *.
    apply elem_of_cons in Hin as [Hin|Hin].
    + simplify_eq. split; [done|]. eexists. split; [reflexivity|].
      simpl. eauto.
    + apply attempt_calls in Hin. simpl in Hin. position Hin.
  - intros msg _ Hin.
    apply elem_of_cons in Hin as [Hin|Hin].
    + simplify_eq. split; [done|]. eexists. split; [reflexivity|].
      simpl. eauto.
    + apply attempt_calls in Hin. simpl in Hin. position Hin.
Qed.

(** X24. What the goroutine of [TryNextPendingBuild] does is decided by
    [GetNextPendingBuild], which it calls first, in the world it starts
    in: when the call fails or finds no build, nothing else is called,
    the error is only logged, and the world is left as this call left
    it; when it finds a build, the rest is one run of the scheduling
    procedure for this build with the version index of the caller. *)
Theorem next_pending_build_is_tried versions (s : Store W) name build
    found err :
  let r := TryNextPendingBuild logger versions job resources s in
  EGetNextPendingBuild name (build, found, err) ∈ events r →
  name = atc.Name job ∧
  ∃ rest w1,
    events r = EGetNextPendingBuild name (build, found, err) :: rest ∧
    GetNextPendingBuild (atc.Name job) (world s) = (build, found, err, w1) ∧
    if found && bool_decide (err = None) then
      ∃ s',
        rest
        = events
            (scheduleAndResumePendingBuild
               (Session logger "try-next-pending") versions build job
               resources s')
    else collaborator_calls rest = [] ∧ world (final r) = w1.
Proof.
  cbv zeta. intros Hin.
  destruct (next_pending_build_trace versions s name build found err Hin)
    as (-> & rest & Hevents & Hrest).
  split; [done|].
  pose proof (next_faithful logger versions job resources s) as Hreplays.
  rewrite Hevents in Hreplays. destruct Hreplays as (w1 & Hcall & Hreplays).
  exists rest, w1. split_and!; [done..|].
  destruct (found && bool_decide (err = None)); [done|].
  split; [done|]. by eapply replays_logs.
Qed.

(** The trace and the result of [TriggerImmediately]. *)
Lemma triggered_build_trace (s : Store W) name build err :
  let r := TriggerImmediately logger job resources s in
  ECreateJobBuild name (build, err) ∈ events r →
  collaborator_calls (events r)
  = [ECreateJobBuild (atc.Name job) (build, err)] ∧
  match err with
  | Some err => outcome r = Returned ({| db.ID := 0 |}, None, Some err)
  | None =>
    ∃ go,
      outcome r = Returned (build, Some go, None) ∧
      ∀ s' v name' inputs ret,
        EGetLatestInputVersions v name' inputs ret ∈ events (go s') →
        scanned (events (go s')) = config.Resource <$> JobInputs job ∧
        ELoadVersionsDB (v, None) ∈ events (go s')
  end.
Proof.
  cbv zeta.
  change
    (follows
       (λ e o _,
          ECreateJobBuild name (build, err) ∈ e →
          collaborator_calls e
          = [ECreateJobBuild (atc.Name job) (build, err)] ∧
          match err with
          | Some err => o = Returned ({| db.ID := 0 |}, None, Some err)
          | None =>
            ∃ go,
              o = Returned (build, Some go, None) ∧
              ∀ s' v name' inputs ret,
                EGetLatestInputVersions v name' inputs ret
                ∈ events (go s') →
                scanned (events (go s'))
                = config.Resource <$> JobInputs job ∧
                ELoadVersionsDB (v, None) ∈ events (go s')
          end)
       (TriggerImmediately logger job resources s)).
  unfold TriggerImmediately. cbv zeta.
  apply follows_call. intros [build' [err'|]] w1; run;
    intros Hin; position Hin; simplify_eq; [done|].
  split; [done|].
  eexists. split; [reflexivity|].
  intros s' v name' inputs ret. unfold triggered.
  rewrite events_invoked. apply resolved_after_scans.
Qed.

End EntryPoints.

(** * The actions step *)

Section ActionsStep.
Import exec.
Context {W A : Type} `{!Action W A, !BuildEventsDelegate W}.
Variable s : ActionsStep A.

Lemma ran_app (trace1 trace2 : list (Event A)) :
  ran (trace1 ++ trace2) = ran trace1 ++ ran trace2.
Proof.
  induction trace1 as [|e trace1 IH]; [done|].
  destruct e; simpl; by rewrite ?IH.
Qed.

Lemma notified_app (trace1 trace2 : list (Event A)) :
  notified (trace1 ++ trace2) = notified trace1 ++ notified trace2.
Proof.
  induction trace1 as [|e trace1 IH]; [done|].
  destruct e; simpl; by rewrite ?IH.
Qed.

Lemma ran_quiet done : ran (quiet s done) = done.
Proof. induction done as [|a done IH]; simpl; by rewrite ?IH. Qed.

Lemma notified_quiet done : notified (quiet s done) = [].
Proof. by induction done. Qed.

Lemma elem_of_quiet a lg repo ret done :
  ERun a lg repo ret ∈ quiet s done →
  lg = logger s ∧ repo = repository s ∧ ret = None.
Proof.
  unfold quiet. rewrite list_elem_of_fmap.
  by intros (a' & [= -> -> -> ->] & _).
Qed.

(** The loop either runs every action, each returning nil, or stops at
    the first action that returns an error and handles this error. *)
Lemma run_actions_spec todo w :
  match run_actions s todo w with
  | (None, _, evs) => evs = quiet s todo
  | (Some ret, _, evs) =>
    ∃ done a err rest,
      todo = done ++ a :: rest ∧
      evs
      = quiet s done
        ++ ERun a (logger s) (repository s) (Some err)
        :: match err with
           | ErrResourceScriptFailed status =>
             [ELogError (logger s) "resource-script-failed" err;
              EFinished (logger s) status]
           | ErrAborted => [ELogDebug (logger s) "resource-aborted"]
           | _ =>
             [ELogError (logger s) "failed-to-run-action" err;
              EFailed (logger s) err]
           end ∧
      ret
      = match err with
        | ErrResourceScriptFailed _ => None
        | ErrAborted => Some ErrInterrupted
        | _ => Some err
        end
  end.
Proof.
  revert w. induction todo as [|a todo IH]; intros w; simpl; [done|].
  destruct (Action_Run a (logger s) (repository s) w) as [[err|] w1].
  - destruct err as [status| | |message];
      [ exists [], a, (ErrResourceScriptFailed status), todo
      | exists [], a, ErrAborted, todo
      | exists [], a, ErrInterrupted, todo
      | exists [], a, (ErrOther message), todo ]; done.
  - specialize (IH w1).
    destruct (run_actions s todo w1) as [[[ret|] w2] evs].
    + destruct IH as (done & a' & err & rest & -> & -> & ->).
      by exists (a :: done), a', err, rest.
    + by rewrite IH.
Qed.

Ltac by_cases w :=
  unfold Run; generalize (run_actions_spec (actions s) (Initializing (logger s) w));
  destruct (run_actions s (actions s) (Initializing (logger s) w))
    as [[[ret|] w'] evs]; simpl;
  [intros (done & a' & err' & rest & Hactions & -> & ->)|intros ->].




(** X22. [Run] never clears [succeeded]: after a run the flag is set if
    it was set before or if every action of this run returned nil.  The
    actions, the logger and the repository of the step are never
    changed. *)
Theorem succeeded_is_never_cleared (w : W) :
  let r := Run s w in
  (succeeded (step r) = true ↔
   succeeded s = true ∨
   ∀ a lg repo ret, ERun a lg repo ret ∈ trace r → ret = None) ∧
  actions (step r) = actions s ∧
  logger (step r) = logger s ∧
  repository (step r) = repository s.
Proof.
  cbv zeta. by_cases w; (split; [|done]).
  - split; [by left|]. intros [Hset|Hquiet]; [done|].
    discriminate
      (Hquiet a' (logger s) (repository s) (Some err')).
    apply list_elem_of_further, elem_of_app. right. apply list_elem_of_here.
  - split; [|done]. intros _. right. intros a lg repo ret Hin.
    apply elem_of_cons in Hin as [Hin|Hin]; [discriminate|].
    apply elem_of_app in Hin as [Hin|Hin];
      [by apply elem_of_quiet in Hin as (_ & _ & ?)|].
    position Hin.
Qed.
End ActionsStep.

Section ActionsStepUsing.
Import exec.
Context {W A : Type} `{!Action W A, !BuildEventsDelegate W}.

End ActionsStepUsing.

(** * The further properties at work on scripted collaborators *)

Section MoreScenarios.
Import fakes.

Lemma schedule_refused_does_nothing_witness :
  EScheduleBuild 128 (job ["a"]) (false, None)
  ∈ events (attempt scenarios.refused None ["a"]) ∧
  ∃ lease,
    collaborator_calls (events (attempt scenarios.refused None ["a"]))
    = [ELeaseBuildScheduling 128 (10 * Second) (lease, true, None);
       EScheduleBuild 128 (job ["a"]) (false, None); ELeaseBreak lease] ∧
    outcome (attempt scenarios.refused None ["a"]) = Returned None.
Proof.
  assert (EScheduleBuild 128 (job ["a"]) (false, None)
          ∈ events (attempt scenarios.refused None ["a"]))
    as Hin by member.
  split; [exact Hin|].
  exact (schedule_refused_does_nothing
           (Scheduler0 := scheduler scenarios.refused)
           _ _ _ _ _ _ _ _ _ _ Hin eq_refl).
Defined.

Lemma declares_a : JobInputs (job ["a"]) ≠ [].
Proof. vm_compute. discriminate. Defined.

Lemma nil_inputs_map_panics_witness :
  EGetBuildPreparation 128 (with_Inputs prep None, true, None)
  ∈ events (attempt (scenarios.nil_map ["a"]) None ["a"]) ∧
  outcome (attempt (scenarios.nil_map ["a"]) None ["a"])
  = Panicked "assignment to entry in nil map" ∧
  calls [BuildsDB_UpdateBuildPreparation; Scanner_Scan;
         PipelineDB_LoadVersionsDB; PipelineDB_GetLatestInputVersions;
         PipelineDB_UseInputsForBuild; BuildFactory_Create;
         Engine_CreateBuild]
    (events (attempt (scenarios.nil_map ["a"]) None ["a"])) = [].
Proof.
  assert (EGetBuildPreparation 128 (with_Inputs prep None, true, None)
          ∈ events (attempt (scenarios.nil_map ["a"]) None ["a"]))
    as Hin by member.
  split; [exact Hin|].
  destruct (nil_inputs_map_panics
              (Scheduler0 := scheduler (scenarios.nil_map ["a"]))
              _ _ _ _ _ _ _ _ Hin eq_refl declares_a)
    as (Hout & Hcalls & _).
  exact (conj Hout Hcalls).
Defined.

Lemma panics_only_on_nil_inputs_map_witness :
  outcome (attempt (scenarios.nil_map ["a"]) (Some 3%nat) ["a"])
  = Panicked "assignment to entry in nil map" ∧
  JobInputs (job ["a"]) ≠ [] ∧
  ∃ row,
    calls [BuildsDB_GetBuildPreparation]
      (events (attempt (scenarios.nil_map ["a"]) (Some 3%nat) ["a"]))
    = [EGetBuildPreparation 128 (row, true, None)] ∧
    db.Inputs row = None.
Proof.
  assert (outcome (attempt (scenarios.nil_map ["a"]) (Some 3%nat) ["a"])
          = Panicked "assignment to entry in nil map")
    as Hout by (vm_compute; reflexivity).
  split; [exact Hout|].
  exact (proj2 (panics_only_on_nil_inputs_map
                  (Scheduler0 := scheduler (scenarios.nil_map ["a"]))
                  _ _ _ _ _ _ _ Hout)).
Defined.

Lemma nothing_resolved_leaves_build_witness :
  EGetLatestInputVersions (Some 3%nat) "some-job" (JobInputs (job ["a"]))
    ([], false, None)
  ∈ events (attempt scenarios.unresolved (Some 3%nat) ["a"]) ∧
  calls [PipelineDB_UseInputsForBuild; BuildFactory_Create;
         BuildsDB_FinishBuild; BuildsDB_ErrorBuild; Engine_CreateBuild;
         Build_Resume]
    (events (attempt scenarios.unresolved (Some 3%nat) ["a"])) = [] ∧
  outcome (attempt scenarios.unresolved (Some 3%nat) ["a"]) = Returned None.
Proof.
  assert (EGetLatestInputVersions (Some 3%nat) "some-job"
            (JobInputs (job ["a"])) ([], false, None)
          ∈ events (attempt scenarios.unresolved (Some 3%nat) ["a"]))
    as Hin by member.
  split; [exact Hin|].
  exact (nothing_resolved_leaves_build
           (Scheduler0 := scheduler scenarios.unresolved)
           _ _ _ _ _ _ _ _ _ _ Hin).
Defined.

Lemma engine_error_orphans_build_witness :
  EEngineCreateBuild ["atc"] build 42%nat (Some 5%nat, Some "no engine")
  ∈ events (attempt (scenarios.engine_fails ["a"]) (Some 3%nat) ["a"]) ∧
  calls [Build_Resume; BuildsDB_FinishBuild; BuildsDB_ErrorBuild]
    (events (attempt (scenarios.engine_fails ["a"]) (Some 3%nat) ["a"]))
  = [] ∧
  outcome (attempt (scenarios.engine_fails ["a"]) (Some 3%nat) ["a"])
  = Returned None.
Proof.
  assert (EEngineCreateBuild ["atc"] build 42%nat
            (Some 5%nat, Some "no engine")
          ∈ events
              (attempt (scenarios.engine_fails ["a"]) (Some 3%nat) ["a"]))
    as Hin by member.
  split; [exact Hin|].
  exact (engine_error_orphans_build
           (Scheduler0 := scheduler (scenarios.engine_fails ["a"]))
           _ _ _ _ _ _ _ _ _ _ _ Hin).
Defined.

Lemma returned_handle_was_resumed_witness :
  outcome (attempt (happy ["a"]) (Some 3%nat) ["a"])
  = Returned (Some 5%nat) ∧
  ∃ inputs plan,
    calls [PipelineDB_UseInputsForBuild; BuildFactory_Create;
           BuildsDB_FinishBuild; BuildsDB_ErrorBuild; Engine_CreateBuild;
           Build_Resume]
      (events (attempt (happy ["a"]) (Some 3%nat) ["a"]))
    = [EUseInputsForBuild 128 inputs None;
       EFactoryCreate (job ["a"]) [] inputs (plan, None);
       EEngineCreateBuild ["atc"] build plan (Some 5%nat, None);
       EGoResume 5%nat ["atc"]].
Proof.
  assert (outcome (attempt (happy ["a"]) (Some 3%nat) ["a"])
          = Returned (Some 5%nat))
    as Hout by (vm_compute; reflexivity).
  split; [exact Hout|].
  destruct (returned_handle_was_resumed
              (Scheduler0 := scheduler (happy ["a"])) _ _ _ _ _ _ _ Hout)
    as (inputs & plan & Hcalls & _).
  exists inputs, plan. exact Hcalls.
Defined.

Lemma finish_build_only_after_plan_failure_witness :
  EFinishBuild 128 db.StatusErrored None
  ∈ events (attempt (plan_fails ["a"]) (Some 3%nat) ["a"]) ∧
  ∃ inputs plan err,
    calls [BuildFactory_Create; BuildsDB_FinishBuild; Engine_CreateBuild]
      (events (attempt (plan_fails ["a"]) (Some 3%nat) ["a"]))
    = [EFactoryCreate (job ["a"]) [] inputs (plan, Some err);
       EFinishBuild 128 db.StatusErrored None].
Proof.
  assert (EFinishBuild 128 db.StatusErrored None
          ∈ events (attempt (plan_fails ["a"]) (Some 3%nat) ["a"]))
    as Hin by member.
  split; [exact Hin|].
  destruct (finish_build_only_after_plan_failure
              (Scheduler0 := scheduler (plan_fails ["a"]))
              _ _ _ _ _ _ _ _ _ Hin) as (inputs & plan & err & Hcalls & _).
  exists inputs, plan, err. exact Hcalls.
Defined.

Lemma error_build_only_after_scan_failure_witness :
  EErrorBuild 128 "scan failed" None
  ∈ events (attempt (scan_fails ["a"; "b"] "b") None ["a"; "b"]) ∧
  ∃ resource,
    EScan ["atc"; "scan"] resource (Some "scan failed")
    ∈ events (attempt (scan_fails ["a"; "b"] "b") None ["a"; "b"]).
Proof.
  assert (EErrorBuild 128 "scan failed" None
          ∈ events (attempt (scan_fails ["a"; "b"] "b") None ["a"; "b"]))
    as Hin by member.
  split; [exact Hin|].
  destruct (error_build_only_after_scan_failure
              (Scheduler0 := scheduler (scan_fails ["a"; "b"] "b"))
              _ _ _ _ _ _ _ _ _ Hin) as (_ & _ & Hscan).
  exact Hscan.
Defined.

Lemma saved_records_keep_build_fields_witness :
  EGetBuildPreparation 128 (prep, true, None)
  ∈ events (attempt (happy ["a"]) None ["a"]) ∧
  Forall (same_build_fields prep)
    (persisted (events (attempt (happy ["a"]) None ["a"]))).
Proof.
  assert (EGetBuildPreparation 128 (prep, true, None)
          ∈ events (attempt (happy ["a"]) None ["a"]))
    as Hin by member.
  split; [exact Hin|].
  exact (saved_records_keep_build_fields
           (Scheduler0 := scheduler (happy ["a"]))
           _ _ _ _ _ _ _ _ _ _ Hin).
Defined.

Lemma declares_b : "b" ∈ config.Name <$> JobInputs (job ["a"; "b"]).
Proof. apply (bool_decide_unpack _). vm_compute. exact I. Defined.

Lemma saved_records_cover_inputs_witness :
  "b" ∈ config.Name <$> JobInputs (job ["a"; "b"]) ∧
  Forall is_Some
    (statuses "b" (events (attempt (happy ["a"; "b"]) None ["a"; "b"]))).
Proof.
  split; [exact declares_b|].
  exact (saved_records_cover_inputs
           (Scheduler0 := scheduler (happy ["a"; "b"]))
           _ _ _ _ None _ _ declares_b).
Defined.

Lemma no_inputs_nothing_to_do_witness :
  JobInputs (job []) = [] ∧
  events (latest (happy []) (Some 3%nat) []) = [] ∧
  outcome (latest (happy []) (Some 3%nat) []) = Returned None.
Proof.
  split; [reflexivity|].
  exact (no_inputs_nothing_to_do (Scheduler0 := scheduler (happy []))
           ["atc"] (Some 3%nat) (job []) [] start eq_refl).
Defined.

Lemma latest_error_is_last_call_witness :
  outcome (latest scenarios.resolver_fails (Some 3%nat) ["a"])
  = Returned (Some "no versions") ∧
  calls scheduling_methods
    (events (latest scenarios.resolver_fails (Some 3%nat) ["a"])) = [].
Proof.
  assert (outcome (latest scenarios.resolver_fails (Some 3%nat) ["a"])
          = Returned (Some "no versions"))
    as Hout by (vm_compute; reflexivity).
  split; [exact Hout|].
  exact (proj1 (latest_error_is_last_call
                  (Scheduler0 := scheduler scenarios.resolver_fails)
                  _ _ _ _ _ _ Hout)).
Defined.

Lemma lookup_is_for_triggered_inputs_witness :
  EGetJobBuildForInputs "some-job" [version "a"]
    ({| db.ID := 0 |}, false, None)
  ∈ events (latest (happy ["a"]) (Some 3%nat) ["a"]) ∧
  ∃ latestInputs,
    [version "a"]
    = List.filter (triggers (JobInputs (job ["a"]))) latestInputs.
Proof.
  assert (EGetJobBuildForInputs "some-job" [version "a"]
            ({| db.ID := 0 |}, false, None)
          ∈ events (latest (happy ["a"]) (Some 3%nat) ["a"]))
    as Hin by member.
  split; [exact Hin|].
  destruct (lookup_is_for_triggered_inputs
              (Scheduler0 := scheduler (happy ["a"]))
              _ _ _ _ _ _ _ _ Hin)
    as (latestInputs & _ & _ & _ & Hfilter & _).
  exists latestInputs. exact Hfilter.
Defined.

Lemma existing_build_is_not_repeated_witness :
  EGetJobBuildForInputs "some-job" [version "a"]
    ({| db.ID := 127 |}, true, None)
  ∈ events (latest (scenarios.already_built ["a"]) (Some 3%nat) ["a"]) ∧
  calls (PipelineDB_CreateJobBuildForCandidateInputs :: scheduling_methods)
    (events (latest (scenarios.already_built ["a"]) (Some 3%nat) ["a"]))
  = [] ∧
  outcome (latest (scenarios.already_built ["a"]) (Some 3%nat) ["a"])
  = Returned None.
Proof.
  assert (EGetJobBuildForInputs "some-job" [version "a"]
            ({| db.ID := 127 |}, true, None)
          ∈ events
              (latest (scenarios.already_built ["a"]) (Some 3%nat) ["a"]))
    as Hin by member.
  split; [exact Hin|].
  exact (existing_build_is_not_repeated
           (Scheduler0 := scheduler (scenarios.already_built ["a"]))
           _ _ _ _ _ _ _ _ _ _ Hin (or_introl eq_refl)).
Defined.

Lemma created_build_is_scheduled_witness :
  ECreateJobBuildForCandidateInputs "some-job" (build, true, None)
  ∈ events (latest (happy ["a"]) (Some 3%nat) ["a"]) ∧
  ∃ before s',
    events (latest (happy ["a"]) (Some 3%nat) ["a"])
    = before
      ++ events
           (scheduleAndResumePendingBuild
              (Scheduler0 := scheduler (happy ["a"]))
              ["atc"; "build-latest"] (Some 3%nat) build (job ["a"]) [] s').
Proof.
  assert (ECreateJobBuildForCandidateInputs "some-job" (build, true, None)
          ∈ events (latest (happy ["a"]) (Some 3%nat) ["a"]))
    as Hin by member.
  split; [exact Hin|].
  destruct (created_build_is_scheduled
              (Scheduler0 := scheduler (happy ["a"]))
              _ _ _ _ _ _ _ Hin)
    as (before & s' & _ & _ & _ & Hevents & _).
  exists before, s'. exact Hevents.
Defined.

Lemma next_pending_build_is_tried_witness :
  EGetNextPendingBuild "some-job" ({| db.ID := 0 |}, false, None)
  ∈ events
      (TryNextPendingBuild (Scheduler0 := scheduler (happy ["a"]))
         ["atc"] (Some 3%nat) (job ["a"]) [] start) ∧
  collaborator_calls
    (events
       (TryNextPendingBuild (Scheduler0 := scheduler (happy ["a"]))
          ["atc"] (Some 3%nat) (job ["a"]) [] start))
  = [EGetNextPendingBuild "some-job" ({| db.ID := 0 |}, false, None)].
Proof.
  assert (EGetNextPendingBuild "some-job" ({| db.ID := 0 |}, false, None)
          ∈ events
              (TryNextPendingBuild (Scheduler0 := scheduler (happy ["a"]))
                 ["atc"] (Some 3%nat) (job ["a"]) [] start))
    as Hin by member.
  split; [exact Hin|].
  destruct (next_pending_build_is_tried
              (Scheduler0 := scheduler (happy ["a"]))
              _ _ _ _ _ _ _ _ _ Hin)
    as (_ & rest & w1 & Hevents & _ & Hquiet & _).
  exact (eq_trans (f_equal collaborator_calls Hevents)
           (f_equal (cons _) Hquiet)).
Defined.

End MoreScenarios.

Section StepScenarios.
Import exec exec.scripted.



End StepScenarios.
